(** * Sparse Merkle tree (dist/index.js): shallow embedding and properties

    The JavaScript class [SMT] and its helpers are embedded as executable
    Rocq functions.  The node table ([Map]) is a [gmap]; mutation is explicit
    state passing on the record [SMT]; the injected hash function is a
    section variable.  [export] and [import] are not modelled. *)

From Stdlib Require Import ZArith Lia Ascii String.
From stdpp Require Import gmap strings list fin_maps.

Local Open Scope Z_scope.

(** ** Values

    Keys, values and node identifiers are JavaScript strings or bigints
    ([Node = string | bigint] in the type declarations); strings are taken
    over ASCII characters.  [===] on two such values is equality of [elem]:
    a string never equals a bigint. *)
Inductive elem :=
  | Str (s : string)
  | Big (z : Z).

#[global] Instance elem_eq_dec : EqDecision elem.
Proof. solve_decision. Defined.

#[global] Instance elem_countable : Countable elem.
Proof.
  apply (inj_countable'
           (fun e => match e with Str s => inl s | Big z => inr z end)
           (fun x => match x with inl s => Str s | inr z => Big z end)).
  by intros [].
Defined.

(** Truthiness of a string or bigint ([!!x], [if (x)]). *)
Definition truthy (e : elem) : bool :=
  match e with
  | Str s => if decide (s = "") then false else true
  | Big z => negb (z =? 0)
  end.

(** Elements of a path: the numbers [Number(c)] for the characters [c] of a
    binary string.  Besides "0" and "1" the string can only hold the
    characters of "-" (negative bigint) and "NaN" (a non-hexadecimal
    character met by [hexToBin]), all of which [Number] maps to [NaN]. *)
Inductive pathbit := B0 | B1 | BNaN.

#[global] Instance pathbit_eq_dec : EqDecision pathbit.
Proof. solve_decision. Defined.

(** [a === b] on two path elements: [NaN] differs from itself. *)
Definition pathbit_seq (a b : pathbit) : bool :=
  match a, b with
  | B0, B0 | B1, B1 => true
  | _, _ => false
  end.

(** [path[i] ? .. : ..] where [path[i]] may be [undefined]. *)
Definition dir_truthy (d : option pathbit) : bool :=
  match d with
  | Some B1 => true
  | _ => false
  end.

Definition Number_of_char (c : ascii) : pathbit :=
  if decide (c = "0"%char) then B0
  else if decide (c = "1"%char) then B1
  else BNaN.

(** ** Path codec *)

(** [Number(`0x${c}`)] for one character [c]: the digit's value, or [None]
    for [NaN]. *)
Definition hexDigit (c : ascii) : option N :=
  let n := N_of_ascii c in
  if ((48 <=? n) && (n <=? 57))%N then Some (n - 48)%N
  else if ((65 <=? n) && (n <=? 70))%N then Some (n - 55)%N
  else if ((97 <=? n) && (n <=? 102))%N then Some (n - 87)%N
  else None.

(** Binary digits of a positive number, least-significant first. *)
Fixpoint pos_bits (p : positive) : list bool :=
  match p with
  | xH => [true]
  | xO q => false :: pos_bits q
  | xI q => true :: pos_bits q
  end.

Definition bit_char (b : bool) : ascii := if b then "1"%char else "0"%char.

(** [n.toString(2)] for a non-negative integer. *)
Definition N_toString2 (n : N) : string :=
  match n with
  | N0 => "0"
  | Npos p => string_of_list_ascii (map bit_char (rev (pos_bits p)))
  end.

(** [n.toString(2)] for a bigint. *)
Definition Z_toString2 (z : Z) : string :=
  match z with
  | Z0 => "0"
  | Zpos p => N_toString2 (Npos p)
  | Zneg p => "-" +:+ N_toString2 (Npos p)
  end.

(** [Number(`0x${c}`).toString(2)]. *)
Definition hexCharToString2 (c : ascii) : string :=
  match hexDigit c with
  | Some n => N_toString2 n
  | None => "NaN"
  end.

(** [s.padStart(n, "0")]. *)
Definition padStart0 (n : nat) (s : string) : string :=
  string_of_list_ascii (replicate (n - String.length s) "0"%char) +:+ s.

(** [hexToBin(n)]; for the empty string [n[0]] is [undefined] and the
    template gives ["0xundefined"], hence ["NaN"]. *)
Definition hexToBin (n : string) : string :=
  match n with
  | EmptyString => "NaN"
  | String c rest =>
      fold_left (fun bin ci => bin +:+ padStart0 4 (hexCharToString2 ci))
                (list_ascii_of_string rest) (hexCharToString2 c)
  end.

(** [keyToPath(key)]. *)
Definition keyToPath (key : elem) : list pathbit :=
  let bits := match key with
              | Big z => Z_toString2 z
              | Str s => hexToBin s
              end in
  map Number_of_char (rev (list_ascii_of_string (padStart0 256 bits))).

(** [checkHex(n)] for a string: [/^[0-9A-Fa-f]{1,64}$/]. *)
Definition checkHexString (s : string) : bool :=
  let cs := list_ascii_of_string s in
  (1 <=? length cs)%nat && (length cs <=? 64)%nat
  && forallb (fun c => match hexDigit c with Some _ => true | None => false end) cs.

Definition checkHex (n : elem) : bool :=
  match n with
  | Str s => checkHexString s
  | Big _ => false
  end.

(** ** Array helpers *)

(** [Number(`0x${x}`) !== 0].  For a bigint the template gives its decimal
    digits, read back as hexadecimal digits: zero only for [0n] (a negative
    sign gives [NaN]).  For a string the number is zero exactly when it is
    one or more "0", possibly followed by ASCII white space, which [Number]
    trims. *)
Definition is_space (c : ascii) : bool :=
  let n := N_of_ascii c in
  ((9 <=? n) && (n <=? 13) || (n =? 32))%N.

Fixpoint drop_while {A} (f : A -> bool) (l : list A) : list A :=
  match l with
  | [] => []
  | x :: l' => if f x then drop_while f l' else l
  end.

Definition hexNumberIsZero (s : string) : bool :=
  let cs := rev (drop_while is_space (rev (list_ascii_of_string s))) in
  (1 <=? length cs)%nat && forallb (fun c => if decide (c = "0"%char) then true else false) cs.

Definition numberNonZero (x : elem) : bool :=
  match x with
  | Big z => negb (z =? 0)
  | Str s => negb (hexNumberIsZero s)
  end.

(** [getIndexOfLastNonZeroElement(array)]: scans from the end; [-1] when
    every element is zero. *)
Fixpoint getIndexOfLastNonZeroElement_from (n : nat) (array : list elem) : Z :=
  match n with
  | O => -1
  | S i =>
      match array !! i with
      | Some x => if numberNonZero x then Z.of_nat i
                  else getIndexOfLastNonZeroElement_from i array
      | None => Z.of_nat i
      end
  end.

Definition getIndexOfLastNonZeroElement (array : list elem) : Z :=
  getIndexOfLastNonZeroElement_from (length array) array.

(** [getFirstCommonElements(array1, array2)] on two paths. *)
Fixpoint firstCommon_from (a1 a2 : list pathbit) : nat :=
  match a1, a2 with
  | x :: a1', y :: a2' => if pathbit_seq x y then S (firstCommon_from a1' a2') else O
  | _, _ => O
  end.

Definition getFirstCommonElements (array1 array2 : list pathbit) : list pathbit :=
  let minArray := if (length array1 <? length array2)%nat then array1 else array2 in
  take (firstCommon_from array1 array2) minArray.

(** ** The class [SMT] *)

(** Content of the node table.  The class only ever stores the two-element
    arrays [[left, right]] ([addNewNodes]) and the three-element arrays
    [[key, value, entryMark]] ([add], [update]); [import], which installs a
    caller-supplied table, is outside this model. *)
Inductive childNodes :=
  | Pair (left right : elem)
  | Triple (key value mark : elem).

(** The array itself, as handed to the hash function. *)
Definition array_of (c : childNodes) : list elem :=
  match c with
  | Pair l r => [l; r]
  | Triple k v m => [k; v; m]
  end.

(** [childNodes[2]] is truthy. *)
Definition has_mark (c : childNodes) : bool :=
  match c with
  | Pair _ _ => false
  | Triple _ _ m => truthy m
  end.

Definition child0 (c : childNodes) : elem :=
  match c with Pair l _ => l | Triple k _ _ => k end.

Definition child1 (c : childNodes) : elem :=
  match c with Pair _ r => r | Triple _ v _ => v end.

Record SMT := mkSMT {
  bigNumbers : bool;
  nodes : gmap elem childNodes;
  root : elem
}.

(** [this.zeroNode] and [this.entryMark], fixed by the constructor from
    [bigNumbers]. *)
Definition zeroNode (t : SMT) : elem := if bigNumbers t then Big 0 else Str "0".
Definition entryMark (t : SMT) : elem := if bigNumbers t then Big 1 else Str "1".

Inductive error :=
  | InvalidHashFunctionOutput
  | InvalidParameterType
  | KeyAlreadyExists
  | KeyNotFound
  | TypeError
  | RangeError.

(** Result of a call that leaves the tree as it is. *)
Inductive result (A : Type) :=
  | Ok (a : A)
  | Err (e : error).
Arguments Ok {A} a.
Arguments Err {A} e.

(** Result of a mutation: the tree after a normal return, or the tree at
    the moment an exception is thrown. *)
Inductive outcome :=
  | Done (t : SMT)
  | Thrown (e : error) (t : SMT).

Record EntryResponse := mkEntryResponse {
  entry : list elem;
  matchingEntry : option (list elem);
  siblings : list elem
}.

Record MerkleProof := mkMerkleProof {
  proof_entry : list elem;
  proof_matchingEntry : option (list elem);
  proof_siblings : list elem;
  proof_root : elem;
  membership : bool
}.

Section WithHash.

Variable hash : list elem -> elem.

(** [new SMT(hash, bigNumbers)], where [BigInt] is supported. *)
Definition new_SMT (big : bool) : result SMT :=
  if big then
    match hash [Big 1; Big 1] with
    | Big _ => Ok (mkSMT true ∅ (Big 0))
    | Str _ => Err InvalidHashFunctionOutput
    end
  else if checkHex (hash [Str "1"; Str "1"]) then Ok (mkSMT false ∅ (Str "0"))
  else Err InvalidHashFunctionOutput.

(** [checkParameterType(parameter)]: [true] when nothing is thrown. *)
Definition checkParameterType (t : SMT) (parameter : elem) : bool :=
  if bigNumbers t then
    match parameter with Big _ => true | Str _ => false end
  else checkHex parameter.

(** The loop of [retrieveEntry]; [path] holds [path[i]], [path[i+1]], ...
    When the direction is [undefined] or [NaN], [node] becomes [undefined]
    and the next iteration throws on [childNodes[2]]; so does a node that
    the table does not hold. *)
Fixpoint retrieveEntry_loop (t : SMT) (key : elem) (path : list pathbit)
    (node : elem) (sibs : list elem) : result EntryResponse :=
  if decide (node = zeroNode t) then Ok (mkEntryResponse [key] None sibs)
  else
    match nodes t !! node with
    | None => Err TypeError
    | Some c =>
        if has_mark c then
          if decide (child0 c = key) then Ok (mkEntryResponse (array_of c) None sibs)
          else Ok (mkEntryResponse [key] (Some (array_of c)) sibs)
        else
          match path with
          | B0 :: path' => retrieveEntry_loop t key path' (child0 c) (sibs ++ [child1 c])
          | B1 :: path' => retrieveEntry_loop t key path' (child1 c) (sibs ++ [child0 c])
          | _ => Err TypeError
          end
    end.

Definition retrieveEntry (t : SMT) (key : elem) : result EntryResponse :=
  retrieveEntry_loop t key (keyToPath key) (root t) [].

(** The array hashed at index [i] of the bottom-up loops. *)
Definition level (path : list pathbit) (i : nat) (node sibling : elem) : childNodes :=
  if dir_truthy (path !! i) then Pair sibling node else Pair node sibling.

(** [calculateRoot(node, path, siblings)]; [n] is [i + 1].  In the three
    bottom-up loops [siblings[i]] is defined at every index the callers
    reach (the last branch is never taken). *)
Fixpoint calculateRoot_from (n : nat) (node : elem) (path : list pathbit)
    (sibs : list elem) : elem :=
  match n with
  | O => node
  | S i =>
      match sibs !! i with
      | Some s => calculateRoot_from i (hash (array_of (level path i node s))) path sibs
      | None => node
      end
  end.

Definition calculateRoot (node : elem) (path : list pathbit) (sibs : list elem) : elem :=
  calculateRoot_from (length sibs) node path sibs.

(** [addNewNodes(node, path, siblings, i)]; [n] is [i + 1].  Returns the
    last node and the table. *)
Fixpoint addNewNodes_from (n : nat) (m : gmap elem childNodes) (node : elem)
    (path : list pathbit) (sibs : list elem) : elem * gmap elem childNodes :=
  match n with
  | O => (node, m)
  | S i =>
      match sibs !! i with
      | Some s =>
          let c := level path i node s in
          addNewNodes_from i (<[hash (array_of c) := c]> m) (hash (array_of c)) path sibs
      | None => (node, m)
      end
  end.

Definition addNewNodes (m : gmap elem childNodes) (node : elem)
    (path : list pathbit) (sibs : list elem) (i : Z) : elem * gmap elem childNodes :=
  addNewNodes_from (Z.to_nat (i + 1)) m node path sibs.

(** [deleteOldNodes(node, path, siblings)]. *)
Fixpoint deleteOldNodes_from (n : nat) (m : gmap elem childNodes) (node : elem)
    (path : list pathbit) (sibs : list elem) : gmap elem childNodes :=
  match n with
  | O => m
  | S i =>
      match sibs !! i with
      | Some s =>
          let node' := hash (array_of (level path i node s)) in
          deleteOldNodes_from i (delete node' m) node' path sibs
      | None => m
      end
  end.

Definition deleteOldNodes (m : gmap elem childNodes) (node : elem)
    (path : list pathbit) (sibs : list elem) : gmap elem childNodes :=
  deleteOldNodes_from (length sibs) m node path sibs.

(** [isLeaf(node)] on a table. *)
Definition isLeaf (m : gmap elem childNodes) (node : elem) : bool :=
  match m !! node with
  | Some c => has_mark c
  | None => false
  end.

(** [get(key)]: [Ok None] is [undefined]. *)
Definition get (t : SMT) (key : elem) : result (option elem) :=
  if negb (checkParameterType t key) then Err InvalidParameterType
  else
    match retrieveEntry t key with
    | Err e => Err e
    | Ok r => Ok (entry r !! 1%nat)
    end.

(** The loop [for (i = siblings.length; matchingPath[i] === path[i]; ...)]
    of [add]: the number of zero nodes pushed, given both paths from index
    [siblings.length] on.  For two paths that agree to their common end
    the condition stays true past the end ([undefined === undefined]), every
    turn pushes one more node, and [push] throws a [RangeError] when the
    array cannot grow any more: [None]. *)
Fixpoint matchingRun (matchingPath path : list pathbit) : option nat :=
  match matchingPath, path with
  | [], [] => None
  | a :: mp', b :: p' =>
      if pathbit_seq a b then S <$> matchingRun mp' p' else Some O
  | _, _ => Some O
  end.

(** [add(key, value)]. *)
Definition add (t : SMT) (key value : elem) : outcome :=
  if negb (checkParameterType t key) then Thrown InvalidParameterType t
  else if negb (checkParameterType t value) then Thrown InvalidParameterType t
  else
    match retrieveEntry t key with
    | Err e => Thrown e t
    | Ok r =>
        match entry r !! 1%nat with
        | Some _ => Thrown KeyAlreadyExists t
        | None =>
            let path := keyToPath key in
            let node := match matchingEntry r with
                        | Some me => hash me
                        | None => zeroNode t
                        end in
            let m1 := if (0 <? length (siblings r))%nat
                      then deleteOldNodes (nodes t) node path (siblings r)
                      else nodes t in
            let finish := fun sibs : list elem =>
              let newNode := hash [key; value; entryMark t] in
              let m2 := <[newNode := Triple key value (entryMark t)]> m1 in
              let '(rt, m3) := addNewNodes m2 newNode path sibs (Z.of_nat (length sibs) - 1) in
              Done (mkSMT (bigNumbers t) m3 rt) in
            match matchingEntry r with
            | Some me =>
                match me !! 0%nat with
                | None => Thrown TypeError (mkSMT (bigNumbers t) m1 (root t))
                | Some mkey =>
                    let matchingPath := keyToPath mkey in
                    match matchingRun (drop (length (siblings r)) matchingPath)
                                      (drop (length (siblings r)) path) with
                    | Some n => finish (siblings r ++ replicate n (zeroNode t) ++ [node])
                    | None => Thrown RangeError (mkSMT (bigNumbers t) m1 (root t))
                    end
                end
            | None => finish (siblings r)
            end
        end
    end.

(** [update(key, value)]. *)
Definition update (t : SMT) (key value : elem) : outcome :=
  if negb (checkParameterType t key) then Thrown InvalidParameterType t
  else if negb (checkParameterType t value) then Thrown InvalidParameterType t
  else
    match retrieveEntry t key with
    | Err e => Thrown e t
    | Ok r =>
        match entry r !! 1%nat with
        | None => Thrown KeyNotFound t
        | Some _ =>
            let path := keyToPath key in
            let oldNode := hash (entry r) in
            let m1 := delete oldNode (nodes t) in
            let m2 := deleteOldNodes m1 oldNode path (siblings r) in
            let newNode := hash [key; value; entryMark t] in
            let m3 := <[newNode := Triple key value (entryMark t)]> m2 in
            let '(rt, m4) := addNewNodes m3 newNode path (siblings r)
                               (Z.of_nat (length (siblings r)) - 1) in
            Done (mkSMT (bigNumbers t) m4 rt)
        end
    end.

(** [delete(key)] (stdpp's [delete] is the operation on maps). *)
Definition SMT_delete (t : SMT) (key : elem) : outcome :=
  if negb (checkParameterType t key) then Thrown InvalidParameterType t
  else
    match retrieveEntry t key with
    | Err e => Thrown e t
    | Ok r =>
        match entry r !! 1%nat with
        | None => Thrown KeyNotFound t
        | Some _ =>
            let path := keyToPath key in
            let node := hash (entry r) in
            let m1 := delete node (nodes t) in
            match last (siblings r) with
            | None => Done (mkSMT (bigNumbers t) m1 (zeroNode t))
            | Some lastSibling =>
                let m2 := deleteOldNodes m1 node path (siblings r) in
                if negb (isLeaf m2 lastSibling) then
                  let '(rt, m3) := addNewNodes m2 (zeroNode t) path (siblings r)
                                     (Z.of_nat (length (siblings r)) - 1) in
                  Done (mkSMT (bigNumbers t) m3 rt)
                else
                  let firstSibling := lastSibling in
                  let sibs := removelast (siblings r) in
                  let i := getIndexOfLastNonZeroElement sibs in
                  let '(rt, m3) := addNewNodes m2 firstSibling path sibs i in
                  Done (mkSMT (bigNumbers t) m3 rt)
            end
        end
    end.

(** [createProof(key)]; [membership] is [!!entry[1]]. *)
Definition createProof (t : SMT) (key : elem) : result MerkleProof :=
  if negb (checkParameterType t key) then Err InvalidParameterType
  else
    match retrieveEntry t key with
    | Err e => Err e
    | Ok r =>
        Ok (mkMerkleProof (entry r) (matchingEntry r) (siblings r) (root t)
              (match entry r !! 1%nat with Some v => truthy v | None => false end))
    end.

(** [verifyProof(merkleProof)].  Reading the key of an empty [entry] or
    [matchingEntry] array makes [keyToPath] throw on [n[0]]. *)
Definition verifyProof (t : SMT) (merkleProof : MerkleProof) : result bool :=
  match proof_matchingEntry merkleProof with
  | None =>
      match proof_entry merkleProof !! 0%nat with
      | None => Err TypeError
      | Some key =>
          let path := keyToPath key in
          let node := match proof_entry merkleProof !! 1%nat with
                      | Some _ => hash (proof_entry merkleProof)
                      | None => zeroNode t
                      end in
          let rt := calculateRoot node path (proof_siblings merkleProof) in
          Ok (bool_decide (rt = proof_root merkleProof))
      end
  | Some me =>
      match me !! 0%nat with
      | None => Err TypeError
      | Some mkey =>
          let matchingPath := keyToPath mkey in
          let node := hash me in
          let rt := calculateRoot node matchingPath (proof_siblings merkleProof) in
          if decide (rt = proof_root merkleProof) then
            match proof_entry merkleProof !! 0%nat with
            | None => Err TypeError
            | Some key =>
                let path := keyToPath key in
                let firstMatchingBits := getFirstCommonElements path matchingPath in
                Ok (length (proof_siblings merkleProof) <=? length firstMatchingBits)%nat
            end
          else Ok false
      end
  end.

End WithHash.

(** ** Specification-side definitions *)

(** The keys of the documented domain: a string accepted by [checkHex], or
    a bigint [0 <= z < 2^256]. *)
Definition keyInRange (big : bool) (key : elem) : bool :=
  if big then
    match key with
    | Big z => (0 <=? z) && (z <? 2 ^ 256)
    | Str _ => false
    end
  else checkHex key.

(** The number a hexadecimal string denotes. *)
Definition hexValue (s : string) : Z :=
  fold_left (fun acc c => 16 * acc + Z.of_N (default 0%N (hexDigit c)))
            (list_ascii_of_string s) 0.

(** The number a key denotes. *)
Definition keyValue (key : elem) : Z :=
  match key with
  | Big z => z
  | Str s => hexValue s
  end.

Definition bit_of (b : bool) : pathbit := if b then B1 else B0.

(** Value of a list of binary digits, least-significant first. *)
Fixpoint lsb_value (l : list bool) : Z :=
  match l with
  | [] => 0
  | b :: l' => Z.b2z b + 2 * lsb_value l'
  end.

(** Binary digits of [n.toString(2)], most-significant first. *)
Definition digits_msb (n : N) : list bool :=
  match n with
  | N0 => [false]
  | Npos p => rev (pos_bits p)
  end.

(** The four digits of [padStart(4, "0")] applied to a hexadecimal digit. *)
Definition digits4 (n : N) : list bool :=
  replicate (4 - length (digits_msb n)) false ++ digits_msb n.

(** A path of 256 directions, each 0 or 1. *)
Definition good_path (p : list pathbit) : Prop :=
  length p = 256%nat /\
  forall i : nat, (i < 256)%nat -> p !! i = Some B0 \/ p !! i = Some B1.

(** Number of leading elements [getFirstCommonElements] keeps. *)
Definition commonPrefix (p q : list pathbit) : nat := firstCommon_from p q.

(** Number of leading positions at which two paths have the same
    direction. *)
Fixpoint sharedBits (p q : list pathbit) : nat :=
  match p, q with
  | B0 :: p', B0 :: q' => S (sharedBits p' q')
  | B1 :: p', B1 :: q' => S (sharedBits p' q')
  | _, _ => O
  end.

(** Folding a node through a list of siblings, the last sibling first: at
    index [i] the node goes left when [path[i]] is 0 and right when it is 1. *)
Definition foldSiblings (hash : list elem -> elem) (node : elem)
    (path : list pathbit) (sibs : list elem) : elem :=
  foldr (fun '(i, s) acc =>
           hash (match path !! i with
                 | Some B1 => [s; acc]
                 | _ => [acc; s]
                 end))
        node (zip (seq 0 (length sibs)) sibs).

(** The proof with another [membership] field. *)
Definition with_membership (b : bool) (p : MerkleProof) : MerkleProof :=
  mkMerkleProof (proof_entry p) (proof_matchingEntry p) (proof_siblings p)
                (proof_root p) b.

(** *** The tree a node table denotes

    A table reachable from a root identifier denotes a binary tree: the zero
    identifier is the empty tree, a marked triple is a leaf, a pair is an
    internal node. *)
Inductive tree :=
  | Empty
  | Leaf (key value : elem)
  | Node (left right : tree).

#[global] Instance tree_eq_dec : EqDecision tree.
Proof. solve_decision. Defined.

Definition zeroOf (big : bool) : elem := if big then Big 0 else Str "0".
Definition markOf (big : bool) : elem := if big then Big 1 else Str "1".

Definition is_leafT (T : tree) : bool :=
  match T with Leaf _ _ => true | _ => false end.

Fixpoint entries (T : tree) : list (elem * elem) :=
  match T with
  | Empty => []
  | Leaf k v => [(k, v)]
  | Node l r => entries l ++ entries r
  end.

Definition keys (T : tree) : list elem := (entries T).*1.

Fixpoint tsize (T : tree) : nat :=
  match T with
  | Node l r => S (tsize l + tsize r)
  | _ => 1%nat
  end.

Fixpoint subterm (s T : tree) : Prop :=
  s = T \/ match T with
           | Node l r => subterm s l \/ subterm s r
           | _ => False
           end.

(** The tree obtained by hanging [slot] below the siblings [sibs], the
    first sibling at depth [d], each level ordered by the path as the
    bottom-up loops order it. *)
Fixpoint plug (d : nat) (p : list pathbit) (sibs : list tree) (slot : tree) : tree :=
  match sibs with
  | [] => slot
  | s :: sibs' =>
      if dir_truthy (p !! d) then Node s (plug (S d) p sibs' slot)
      else Node (plug (S d) p sibs' slot) s
  end.

(** The nodes on the path from depth [d] down to the slot, top first. *)
Fixpoint pathnodes (d : nat) (p : list pathbit) (sibs : list tree) (slot : tree) : list tree :=
  match sibs with
  | [] => []
  | s :: sibs' => plug d p sibs slot :: pathnodes (S d) p sibs' slot
  end.

(** Walking down a tree along a path: the siblings passed and the subtree
    (empty or a leaf) where the walk stops. *)
Fixpoint locate (d : nat) (p : list pathbit) (T : tree) : list tree * tree :=
  match T with
  | Node l r =>
      if dir_truthy (p !! d)
      then let '(ss, slot) := locate (S d) p r in (l :: ss, slot)
      else let '(ss, slot) := locate (S d) p l in (r :: ss, slot)
  | _ => ([], T)
  end.

(** One more than the index of the last non-empty tree among the first [n]. *)
Fixpoint lastNonEmpty_from (n : nat) (sibs : list tree) : nat :=
  match n with
  | O => O
  | S i =>
      match sibs !! i with
      | Some Empty => lastNonEmpty_from i sibs
      | _ => S i
      end
  end.

(** The tree [delete] builds from the siblings of the removed leaf. *)
Definition delZ (d : nat) (p : list pathbit) (sibs : list tree) : tree :=
  match last sibs with
  | None => Empty
  | Some L =>
      if is_leafT L then
        let rs := removelast sibs in
        plug d p (take (lastNonEmpty_from (length rs) rs) rs) L
      else plug d p sibs Empty
  end.

(** The tree [add] builds from the siblings and the slot the walk found. *)
Definition insZ (d : nat) (p : list pathbit) (k v : elem) (sibs : list tree) (slot : tree) : tree :=
  match slot with
  | Leaf mk mv =>
      plug d p (sibs ++ replicate (commonPrefix (drop (d + length sibs) (keyToPath mk))
                                                (drop (d + length sibs) p)) Empty
                     ++ [Leaf mk mv]) (Leaf k v)
  | _ => plug d p sibs (Leaf k v)
  end.

(** Insertion, deletion and replacement by recursion on the tree. *)
Fixpoint insT (d : nat) (p : list pathbit) (k v : elem) (T : tree) : tree :=
  match T with
  | Empty => Leaf k v
  | Leaf mk mv =>
      plug d p (replicate (commonPrefix (drop d (keyToPath mk)) (drop d p)) Empty
                ++ [Leaf mk mv]) (Leaf k v)
  | Node l r =>
      if dir_truthy (p !! d) then Node l (insT (S d) p k v r)
      else Node (insT (S d) p k v l) r
  end.

Definition collapse (T : tree) : tree :=
  match T with
  | Node (Leaf k v) Empty => Leaf k v
  | Node Empty (Leaf k v) => Leaf k v
  | _ => T
  end.

Fixpoint delT (d : nat) (p : list pathbit) (k : elem) (T : tree) : tree :=
  match T with
  | Empty => Empty
  | Leaf mk mv => if decide (mk = k) then Empty else T
  | Node l r =>
      collapse (if dir_truthy (p !! d) then Node l (delT (S d) p k r)
                else Node (delT (S d) p k l) r)
  end.

Fixpoint updT (d : nat) (p : list pathbit) (k v : elem) (T : tree) : tree :=
  match T with
  | Empty => Empty
  | Leaf mk mv => if decide (mk = k) then Leaf k v else T
  | Node l r =>
      if dir_truthy (p !! d) then Node l (updT (S d) p k v r)
      else Node (updT (S d) p k v l) r
  end.

Section Abstract.

Variable hash : list elem -> elem.
Variable big : bool.

(** Identifier of a tree. *)
Fixpoint hashT (T : tree) : elem :=
  match T with
  | Empty => zeroOf big
  | Leaf k v => hash [k; v; markOf big]
  | Node l r => hash [hashT l; hashT r]
  end.

(** The table holds every node of the tree under its identifier. *)
Fixpoint stored (m : gmap elem childNodes) (T : tree) : Prop :=
  match T with
  | Empty => True
  | Leaf k v => m !! hashT T = Some (Triple k v (markOf big))
  | Node l r =>
      m !! hashT T = Some (Pair (hashT l) (hashT r)) /\ stored m l /\ stored m r
  end.

(** Every identifier of the table is the hash of its content. *)
Definition ids_ok (m : gmap elem childNodes) : Prop :=
  forall h c, m !! h = Some c -> hash (array_of c) = h.

(** Well-formed tree at depth [d]: keys are in range, every key below the
    left (right) child of a node at depth [d] has direction 0 (1) at index
    [d], and a node has at least two leaves below it. *)
Fixpoint wf (d : nat) (T : tree) : Prop :=
  match T with
  | Empty => True
  | Leaf k v => keyInRange big k = true
  | Node l r =>
      wf (S d) l /\ wf (S d) r
      /\ (forall k, k ∈ keys l -> keyToPath k !! d = Some B0)
      /\ (forall k, k ∈ keys r -> keyToPath k !! d = Some B1)
      /\ (2 <= length (entries l) + length (entries r))%nat
  end.

(** What [retrieveEntry] answers when the walk stops at [slot]. *)
Definition response (key : elem) (sibs : list tree) (slot : tree) : EntryResponse :=
  match slot with
  | Leaf mk mv =>
      if decide (mk = key)
      then mkEntryResponse [mk; mv; markOf big] None (hashT <$> sibs)
      else mkEntryResponse [key] (Some [mk; mv; markOf big]) (hashT <$> sibs)
  | _ => mkEntryResponse [key] None (hashT <$> sibs)
  end.

(** The tree object [t] holds the tree [T]. *)
Definition represents (t : SMT) (T : tree) : Prop :=
  bigNumbers t = big /\ root t = hashT T /\ stored (nodes t) T
  /\ ids_ok (nodes t) /\ wf 0 T.

(** Trees reached from a new tree by calls of [add], [update] and [delete]
    that return ([import], which installs any table, is left out), the keys
    added being of the documented domain; with each tree, the entries the
    calls have left in it. *)
Inductive reachable : SMT -> list (elem * elem) -> Prop :=
  | reach_new t :
      new_SMT hash big = Ok t -> reachable t []
  | reach_add t E k v t' :
      reachable t E -> keyInRange big k = true ->
      add hash t k v = Done t' -> reachable t' ((k, v) :: E)
  | reach_update t E k v t' :
      reachable t E ->
      update hash t k v = Done t' ->
      reachable t' ((k, v) :: filter (fun e => e.1 <> k) E)
  | reach_delete t E k t' :
      reachable t E ->
      SMT_delete hash t k = Done t' ->
      reachable t' (filter (fun e => e.1 <> k) E).

(** Inserting a list of pairs, first to last. *)
Definition addAll (t : SMT) (l : list (elem * elem)) : outcome :=
  fold_left (fun o kv => match o with
                         | Done t' => add hash t' kv.1 kv.2
                         | _ => o
                         end) l (Done t).

End Abstract.

(** An injective hash function on bigints, used to run the code. *)
Definition hashW (l : list elem) : elem := Big (Z.pos (encode l)).

(** An injective hash function on strings of binary digits, to run the code
    in hexadecimal mode. *)
Definition hashX (l : list elem) : elem :=
  Str (string_of_list_ascii ("1"%char :: map bit_char (pos_bits (encode l)))).

(** Small trees in big-number mode, used to run the code: the new tree, and
    the trees holding the single entry (1, 10) and the single entry (1, 0). *)
Definition tree0 : SMT := mkSMT true ∅ (Big 0).

Definition leafW (k v : Z) : elem := hashW [Big k; Big v; Big 1].

Definition tree1 : SMT :=
  mkSMT true (<[leafW 1 10 := Triple (Big 1) (Big 10) (Big 1)]> ∅) (leafW 1 10).

Definition treeZ : SMT :=
  mkSMT true (<[leafW 1 0 := Triple (Big 1) (Big 0) (Big 1)]> ∅) (leafW 1 0).

(** The tree holding the entries (1, 10) and (2, 20), built by [add]. *)
Definition tree2 : SMT :=
  match add hashW tree1 (Big 2) (Big 20) with
  | Done t => t
  | _ => tree1
  end.

(** Small trees in hexadecimal mode: the new tree and the tree holding the
    single entry ("f", "1"). *)
Definition treeX0 : SMT := mkSMT false ∅ (Str "0").

Definition treeX1 : SMT :=
  mkSMT false (<[hashX [Str "f"; Str "1"; Str "1"] := Triple (Str "f") (Str "1") (Str "1")]> ∅)
        (hashX [Str "f"; Str "1"; Str "1"]).

(** The tree in hexadecimal mode holding ("f", "1") and ("e", "1"), built
    by [add]: the two keys part at index 0, so the root is the node of the
    two leaves. *)
Definition treeX2 : SMT :=
  match add hashX treeX1 (Str "e") (Str "1") with
  | Done t => t
  | _ => treeX1
  end.

(** *** Further notions used for the other properties *)

Section Exactness.

Variable hash : list elem -> elem.
Variable big : bool.

(** Every identifier of the table is that of a non-empty tree satisfying
    [P]. *)
Definition within (m : gmap elem childNodes) (P : tree -> Prop) : Prop :=
  forall h c, m !! h = Some c ->
    exists s, P s /\ s <> Empty /\ hashT hash big s = h.

(** The table holds nothing but the nodes of the tree. *)
Definition no_garbage (m : gmap elem childNodes) (T : tree) : Prop :=
  within m (fun s => subterm s T).

End Exactness.
(** * Path codec *)

Lemma chars_app (a b : string) :
  list_ascii_of_string (a +:+ b) = list_ascii_of_string a ++ list_ascii_of_string b.
Proof. induction a as [|c a IH]; simpl; [done | by rewrite IH]. Qed.

Lemma chars_length (s : string) : String.length s = length (list_ascii_of_string s).
Proof. induction s as [|c s IH]; simpl; [done | by rewrite IH]. Qed.

Lemma lsb_value_nonneg l : 0 <= lsb_value l.
Proof. induction l as [|[] l IH]; simpl; lia. Qed.

Lemma lsb_value_bound l : lsb_value l < 2 ^ Z.of_nat (length l).
Proof.
  induction l as [|b l IH]; [simpl; lia|].
  cbn [lsb_value length]. rewrite Nat2Z.inj_succ, Z.pow_succ_r by lia.
  destruct b; simpl Z.b2z; lia.
Qed.

Lemma lsb_value_testbit l (i : nat) :
  Z.testbit (lsb_value l) (Z.of_nat i) = default false (l !! i).
Proof.
  revert i. induction l as [|b l IH]; intros i.
  - simpl. by rewrite Z.testbit_0_l.
  - cbn [lsb_value]. destruct i as [|i].
    + simpl Z.of_nat. rewrite Z.add_comm, Z.testbit_0_r. done.
    + rewrite Nat2Z.inj_succ, Z.add_comm, Z.testbit_succ_r by lia. apply IH.
Qed.

Lemma lsb_value_app a b :
  lsb_value (a ++ b) = lsb_value a + 2 ^ Z.of_nat (length a) * lsb_value b.
Proof.
  induction a as [|x a IH]; [simpl; lia|].
  cbn [app lsb_value length]. rewrite IH, Nat2Z.inj_succ, Z.pow_succ_r by lia. lia.
Qed.

Lemma lsb_value_replicate n : lsb_value (replicate n false) = 0.
Proof. induction n as [|n IH]; simpl; [done | rewrite IH; done]. Qed.

Lemma pos_bits_value p : lsb_value (pos_bits p) = Z.pos p.
Proof. induction p as [p IH|p IH|]; cbn [pos_bits lsb_value]; try rewrite IH; simpl; lia. Qed.

Lemma Number_of_bit_char b : Number_of_char (bit_char b) = bit_of b.
Proof. by destruct b. Qed.

Lemma rev_replicate {A} n (x : A) : rev (replicate n x) = replicate n x.
Proof. rewrite rev_alt. apply reverse_replicate. Qed.

(** The path read off a binary string made of the digits [msb]. *)
Lemma path_of_bits (msb : list bool) :
  (length msb <= 256)%nat ->
  let path := map Number_of_char
                (rev (list_ascii_of_string
                        (padStart0 256 (string_of_list_ascii (map bit_char msb))))) in
  length path = 256%nat /\
  forall i : nat, (i < 256)%nat ->
    path !! i = Some (bit_of (Z.testbit (lsb_value (rev msb)) (Z.of_nat i))).
Proof.
  intros Hlen path.
  assert (Hp : path = map bit_of (rev msb ++ replicate (256 - length msb) false)).
  { unfold path, padStart0.
    rewrite chars_app, !list_ascii_of_string_of_list_ascii, chars_length,
      list_ascii_of_string_of_list_ascii, length_map.
    rewrite rev_app_distr, rev_replicate, <- !map_rev, !map_app, !map_map.
    f_equal.
    - apply map_ext. intros b. apply Number_of_bit_char.
    - change (map ?f ?l) with (f <$> l). by rewrite !fmap_replicate. }
  rewrite Hp. split.
  - rewrite length_map, length_app, length_rev, length_replicate. lia.
  - intros i Hi. rewrite list_lookup_fmap.
    rewrite <- (Z.add_0_r (lsb_value (rev msb))).
    rewrite <- (Z.mul_0_r (2 ^ Z.of_nat (length (rev msb)))).
    rewrite <- (lsb_value_replicate (256 - length msb)), <- lsb_value_app.
    rewrite lsb_value_testbit.
    destruct ((rev msb ++ replicate (256 - length msb) false) !! i) eqn:E; [done|].
    apply lookup_ge_None in E.
    rewrite length_app, length_rev, length_replicate in E. lia.
Qed.

Lemma pos_bits_length p : 2 ^ Z.of_nat (length (pos_bits p) - 1) <= Z.pos p.
Proof.
  induction p as [p IH|p IH|]; cbn [pos_bits length]; [| |simpl; lia].
  - replace (S (length (pos_bits p)) - 1)%nat with (S (length (pos_bits p) - 1))
      by (destruct p; simpl; lia).
    rewrite Nat2Z.inj_succ, Z.pow_succ_r by lia. lia.
  - replace (S (length (pos_bits p)) - 1)%nat with (S (length (pos_bits p) - 1))
      by (destruct p; simpl; lia).
    rewrite Nat2Z.inj_succ, Z.pow_succ_r by lia. lia.
Qed.

Lemma pos_bits_length_256 p : Z.pos p < 2 ^ 256 -> (length (pos_bits p) <= 256)%nat.
Proof.
  intros H. pose proof (pos_bits_length p) as Hl.
  destruct (decide (length (pos_bits p) <= 256)%nat) as [|Hn]; [done|].
  exfalso.
  assert (2 ^ 256 <= 2 ^ Z.of_nat (length (pos_bits p) - 1)); [|lia].
  apply Z.pow_le_mono_r; lia.
Qed.

Lemma N_toString2_digits n :
  N_toString2 n = string_of_list_ascii (map bit_char (digits_msb n)).
Proof. by destruct n. Qed.

Lemma digits_msb_value n : lsb_value (rev (digits_msb n)) = Z.of_N n.
Proof.
  destruct n as [|p]; [done|]. simpl digits_msb.
  rewrite rev_involutive. apply pos_bits_value.
Qed.

Lemma hexDigit_bound c n : hexDigit c = Some n -> (n < 16)%N.
Proof.
  unfold hexDigit. intros H.
  repeat match type of H with
         | (if ?b then _ else _) = _ => destruct b eqn:?
         end; inversion H; subst;
  repeat match goal with
         | E : (_ && _)%bool = true |- _ => apply andb_prop in E as [? ?]
         | E : (_ <=? _)%N = true |- _ => apply N.leb_le in E
         end; lia.
Qed.

Lemma digits4_length n : (n < 16)%N -> length (digits4 n) = 4%nat.
Proof.
  intros H. destruct n as [|p]; [done|].
  do 4 (destruct p as [p|p|]; try reflexivity); lia.
Qed.

Lemma digits4_value n : lsb_value (rev (digits4 n)) = Z.of_N n.
Proof.
  unfold digits4. rewrite rev_app_distr, rev_replicate, lsb_value_app,
    lsb_value_replicate, digits_msb_value. lia.
Qed.

Lemma padStart0_digits n :
  padStart0 4 (N_toString2 n) = string_of_list_ascii (map bit_char (digits4 n)).
Proof.
  unfold padStart0, digits4. rewrite N_toString2_digits, chars_length,
    list_ascii_of_string_of_list_ascii, length_map, map_app.
  apply (f_equal string_of_list_ascii) with
      (x := list_ascii_of_string _) (y := _) || idtac.
  rewrite <- (string_of_list_ascii_of_string (_ +:+ _)), chars_app,
    !list_ascii_of_string_of_list_ascii.
  do 2 f_equal. change (map ?f ?l) with (f <$> l). by rewrite fmap_replicate.
Qed.

Lemma digits_msb_length n : (n < 16)%N -> (length (digits_msb n) <= 4)%nat.
Proof.
  intros H. destruct n as [|p]; [simpl; lia|].
  do 4 (destruct p as [p|p|]; try (simpl; lia)); lia.
Qed.

(** The loop of [hexToBin] over hexadecimal digits. *)
Lemma hexToBin_loop (rest : list ascii) (acc : list bool) :
  forallb (fun c => match hexDigit c with Some _ => true | None => false end) rest = true ->
  exists msb,
    fold_left (fun bin ci => bin +:+ padStart0 4 (hexCharToString2 ci)) rest
              (string_of_list_ascii (map bit_char acc))
      = string_of_list_ascii (map bit_char msb)
    /\ length msb = (length acc + 4 * length rest)%nat
    /\ lsb_value (rev msb)
       = fold_left (fun a c => 16 * a + Z.of_N (default 0%N (hexDigit c))) rest
                   (lsb_value (rev acc)).
Proof.
  revert acc. induction rest as [|c rest IH]; intros acc Hall.
  - exists acc. simpl. split; [done|]. split; [lia|done].
  - cbn [forallb] in Hall. apply andb_prop in Hall as [Hc Hall].
    destruct (hexDigit c) as [n|] eqn:Hn; [|done].
    destruct (IH (acc ++ digits4 n) Hall) as (msb & E1 & E2 & E3).
    exists msb. cbn [fold_left]. split; [|split].
    + rewrite <- E1. f_equal. unfold hexCharToString2. rewrite Hn, padStart0_digits.
      rewrite <- (string_of_list_ascii_of_string (_ +:+ _)), chars_app,
        !list_ascii_of_string_of_list_ascii, map_app. done.
    + rewrite E2, length_app, digits4_length by (eapply hexDigit_bound; eauto).
      cbn [length]. lia.
    + rewrite E3. f_equal.
      rewrite rev_app_distr, lsb_value_app, length_rev, digits4_value,
        digits4_length by (eapply hexDigit_bound; eauto).
      rewrite Hn. simpl default. change (2 ^ Z.of_nat 4) with 16. lia.
Qed.

Lemma hexToBin_digits s :
  checkHexString s = true ->
  exists msb,
    hexToBin s = string_of_list_ascii (map bit_char msb)
    /\ (length msb <= 256)%nat
    /\ lsb_value (rev msb) = hexValue s.
Proof.
  unfold checkHexString, hexValue. intros H.
  apply andb_prop in H as [H Hall]. apply andb_prop in H as [H1 H64].
  apply Nat.leb_le in H1, H64.
  destruct s as [|c rest]; [simpl in H1; lia|].
  cbn [list_ascii_of_string forallb length] in *.
  apply andb_prop in Hall as [Hc Hall].
  destruct (hexDigit c) as [n|] eqn:Hn; [|done].
  destruct (hexToBin_loop (list_ascii_of_string rest) (digits_msb n) Hall)
    as (msb & E1 & E2 & E3).
  exists msb. split; [|split].
  - cbn [hexToBin]. unfold hexCharToString2 at 2. rewrite Hn, N_toString2_digits. exact E1.
  - rewrite E2. pose proof (digits_msb_length n (hexDigit_bound _ _ Hn)). lia.
  - rewrite E3. cbn [fold_left]. rewrite Hn, digits_msb_value. simpl default. f_equal.
Qed.

Lemma keyToPath_spec_aux (big : bool) (key : elem) :
  keyInRange big key = true ->
  length (keyToPath key) = 256%nat /\
  forall i : nat, (i < 256)%nat ->
    keyToPath key !! i = Some (bit_of (Z.testbit (keyValue key) (Z.of_nat i))).
Proof.
  intros Hr.
  assert (exists msb, (match key with Big z => Z_toString2 z | Str s => hexToBin s end)
                      = string_of_list_ascii (map bit_char msb)
                      /\ (length msb <= 256)%nat
                      /\ lsb_value (rev msb) = keyValue key) as (msb & E1 & E2 & E3).
  { destruct key as [s|z]; destruct big; simpl in Hr; try done.
    - by apply hexToBin_digits.
    - apply andb_prop in Hr as [H0 H1]. apply Z.leb_le in H0. apply Z.ltb_lt in H1.
      destruct z as [|p|p]; [| |lia].
      + exists [false]. split; [done|]. split; [simpl; lia|done].
      + exists (rev (pos_bits p)). split; [done|]. split.
        * rewrite length_rev. by apply pos_bits_length_256.
        * rewrite rev_involutive. apply pos_bits_value. }
  unfold keyToPath. rewrite E1, <- E3. by apply path_of_bits.
Qed.

Lemma keyInRange_good_path big key :
  keyInRange big key = true -> good_path (keyToPath key).
Proof.
  intros H. destruct (keyToPath_spec_aux big key H) as [Hl Hb].
  split; [done|]. intros i Hi. rewrite (Hb i Hi).
  destruct (Z.testbit _ _); simpl; auto.
Qed.

Lemma good_path_drop p d :
  good_path p -> (d < 256)%nat ->
  exists b, p !! d = Some b /\ (b = B0 \/ b = B1) /\ drop d p = b :: drop (S d) p.
Proof.
  intros [Hl Hb] Hd. destruct (Hb d Hd) as [E|E].
  - exists B0. split; [done|]. split; [auto|]. by apply drop_S.
  - exists B1. split; [done|]. split; [auto|]. by apply drop_S.
Qed.

Lemma keyInRange_checkParameterType t key :
  keyInRange (bigNumbers t) key = true -> checkParameterType t key = true.
Proof.
  unfold keyInRange, checkParameterType. destruct (bigNumbers t); [|done].
  by destruct key.
Qed.

Lemma hexValue_range s :
  checkHexString s = true -> 0 <= hexValue s < 2 ^ 256.
Proof.
  intros H. destruct (hexToBin_digits s H) as (msb & _ & Hl & <-).
  split; [apply lsb_value_nonneg|].
  eapply Z.lt_le_trans; [apply lsb_value_bound|].
  rewrite length_rev. apply Z.pow_le_mono_r; lia.
Qed.

Lemma keyValue_range big key :
  keyInRange big key = true -> 0 <= keyValue key < 2 ^ 256.
Proof.
  destruct key as [s|z], big; simpl; try done.
  - apply hexValue_range.
  - intros [H0 H1]%andb_prop. apply Z.leb_le in H0. apply Z.ltb_lt in H1. lia.
Qed.

(** Keys of the domain with the same path denote the same number. *)
Lemma keyToPath_value big k k' :
  keyInRange big k = true -> keyInRange big k' = true ->
  keyToPath k = keyToPath k' -> keyValue k = keyValue k'.
Proof.
  intros Hk Hk' E.
  destruct (keyToPath_spec_aux big k Hk) as [_ Hb].
  destruct (keyToPath_spec_aux big k' Hk') as [_ Hb'].
  pose proof (keyValue_range big k Hk) as Hr.
  pose proof (keyValue_range big k' Hk') as Hr'.
  apply Z.bits_inj'. intros n Hn.
  destruct (decide (n < 256)) as [Hlt|Hge].
  - specialize (Hb (Z.to_nat n)). specialize (Hb' (Z.to_nat n)).
    rewrite Z2Nat.id in Hb, Hb' by lia. rewrite E, Hb' in Hb by lia.
    assert (Some (bit_of (Z.testbit (keyValue k') n)) = Some (bit_of (Z.testbit (keyValue k) n)))
      as Hs by (apply Hb; lia).
    destruct (Z.testbit (keyValue k) n), (Z.testbit (keyValue k') n); simpl in Hs; congruence.
  - rewrite !Z.bits_above_log2; try lia.
    + destruct (decide (keyValue k' = 0)) as [->|]; [simpl; lia|].
      apply Z.log2_lt_pow2; [lia|]. eapply Z.lt_le_trans; [apply Hr'|].
      apply Z.pow_le_mono_r; lia.
    + destruct (decide (keyValue k = 0)) as [->|]; [simpl; lia|].
      apply Z.log2_lt_pow2; [lia|]. eapply Z.lt_le_trans; [apply Hr|].
      apply Z.pow_le_mono_r; lia.
Qed.

(** * Trees, identifiers and the bottom-up loops

    From here on the hash function is assumed injective (no collisions) and
    never numerically zero: the zero identifier marks an empty subtree, and
    [delete] recognises the zero siblings it trims by
    [Number(`0x${x}`) !== 0]. *)

Section TreeFacts.

Variable hash : list elem -> elem.
Variable big : bool.
Hypothesis hash_inj : forall a b, hash a = hash b -> a = b.
Hypothesis hash_nonzero : forall l, numberNonZero (hash l) = true.

Local Abbreviation hashT := (hashT hash big).
Local Abbreviation stored := (stored hash big).

Lemma zeroOf_number : numberNonZero (zeroOf big) = false.
Proof. by destruct big. Qed.

Lemma markOf_truthy : truthy (markOf big) = true.
Proof. by destruct big. Qed.

Lemma hash_not_zero l : hash l <> zeroOf big.
Proof.
  intros E. pose proof (hash_nonzero l) as H. rewrite E, zeroOf_number in H. done.
Qed.

Lemma hashT_zero T : hashT T = zeroOf big -> T = Empty.
Proof. destruct T; simpl; [done| |]; intros E; by apply hash_not_zero in E. Qed.

Lemma hashT_inj T1 T2 : hashT T1 = hashT T2 -> T1 = T2.
Proof.
  revert T2. induction T1 as [|k v|l IHl r IHr]; intros T2 E.
  - symmetry. apply hashT_zero. by rewrite <- E.
  - destruct T2 as [|k' v'|l' r']; simpl in E.
    + by apply hash_not_zero in E.
    + apply hash_inj in E. by inversion E.
    + apply hash_inj in E. by inversion E.
  - destruct T2 as [|k' v'|l' r']; simpl in E.
    + by apply hash_not_zero in E.
    + apply hash_inj in E. by inversion E.
    + apply hash_inj in E. inversion E as [[El Er]].
      by rewrite (IHl _ El), (IHr _ Er).
Qed.

Lemma hashT_number T : numberNonZero (hashT T) = negb (bool_decide (T = Empty)).
Proof. destruct T; simpl; [apply zeroOf_number | apply hash_nonzero | apply hash_nonzero]. Qed.

(** ** Plugging and locating *)

Lemma plug_app d p a b slot :
  plug d p (a ++ b) slot = plug d p a (plug (d + length a) p b slot).
Proof.
  revert d. induction a as [|s a IH]; intros d; simpl.
  - by rewrite Nat.add_0_r.
  - rewrite IH. by replace (S d + length a)%nat with (d + S (length a))%nat by lia.
Qed.

Lemma plug_locate d p T : plug d p (locate d p T).1 (locate d p T).2 = T.
Proof.
  revert d. induction T as [|k v|l IHl r IHr]; intros d; simpl; [done|done|].
  destruct (dir_truthy (p !! d)) eqn:E.
  - specialize (IHr (S d)). destruct (locate (S d) p r) as [ss slot].
    simpl in *. by rewrite E, IHr.
  - specialize (IHl (S d)). destruct (locate (S d) p l) as [ss slot].
    simpl in *. by rewrite E, IHl.
Qed.

Lemma locate_slot d p T : forall l r, (locate d p T).2 <> Node l r.
Proof.
  revert d. induction T as [|k v|l IHl r IHr]; intros d l0 r0; simpl; [done|done|].
  destruct (dir_truthy (p !! d)).
  - specialize (IHr (S d) l0 r0). by destruct (locate (S d) p r).
  - specialize (IHl (S d) l0 r0). by destruct (locate (S d) p l).
Qed.

Lemma pathnodes_app d p a b slot :
  pathnodes d p (a ++ b) slot
  = pathnodes d p a (plug (d + length a) p b slot) ++ pathnodes (d + length a) p b slot.
Proof.
  revert d. induction a as [|s a IH]; intros d.
  - simpl. by rewrite Nat.add_0_r.
  - cbn [app pathnodes length]. rewrite IH, <- (plug_app d p (s :: a) b).
    by replace (S d + length a)%nat with (d + S (length a))%nat by lia.
Qed.

Lemma pathnodes_length d p sibs slot : length (pathnodes d p sibs slot) = length sibs.
Proof. revert d. induction sibs as [|s sibs IH]; intros d; simpl; [done | by rewrite IH]. Qed.

Lemma pathnodes_node d p sibs slot o :
  o ∈ pathnodes d p sibs slot -> exists l r, o = Node l r.
Proof.
  revert d. induction sibs as [|s sibs IH]; intros d; simpl; [by intros ?%elem_of_nil|].
  intros [->|H]%elem_of_cons; [|by eapply IH].
  destruct (dir_truthy (p !! d)); eauto.
Qed.

Lemma entries_plug d p sibs slot :
  entries (plug d p sibs slot) ≡ₚ entries slot ++ concat (entries <$> sibs).
Proof.
  revert d. induction sibs as [|s sibs IH]; intros d; simpl.
  - by rewrite app_nil_r.
  - destruct (dir_truthy (p !! d)); simpl; rewrite IH.
    + rewrite (Permutation_app_comm (entries s)). by rewrite <- !app_assoc,
        (Permutation_app_comm (entries s)).
    + rewrite <- !app_assoc. by rewrite (Permutation_app_comm (concat _)).
Qed.

(** ** The bottom-up loops *)

Lemma level_plug p i slot s :
  hash (array_of (level p i (hashT slot) (hashT s))) = hashT (plug i p [s] slot).
Proof. unfold level. simpl. by destruct (dir_truthy (p !! i)). Qed.


Lemma take_S_snoc {A} (l : list A) i x :
  l !! i = Some x -> take (S i) l = take i l ++ [x].
Proof. intros H. by apply take_S_r. Qed.

Lemma calculateRoot_from_plug n p sibs slot :
  (n <= length sibs)%nat ->
  calculateRoot_from hash n (hashT slot) p (hashT <$> sibs)
  = hashT (plug 0 p (take n sibs) slot).
Proof.
  revert slot. induction n as [|i IH]; intros slot Hn; [by rewrite take_0|].
  cbn [calculateRoot_from].
  destruct (sibs !! i) as [s|] eqn:Es; [|apply lookup_ge_None in Es; lia].
  rewrite list_lookup_fmap, Es. simpl.
  rewrite level_plug, IH by lia.
  rewrite (take_S_snoc _ _ _ Es), plug_app, length_take_le by lia. done.
Qed.

Lemma calculateRoot_plug p sibs slot :
  calculateRoot hash (hashT slot) p (hashT <$> sibs) = hashT (plug 0 p sibs slot).
Proof.
  unfold calculateRoot. rewrite length_fmap, calculateRoot_from_plug by lia.
  by rewrite firstn_all.
Qed.

(** The identifiers [deleteOldNodes] removes are those of the path nodes. *)
Lemma deleteOldNodes_from_lookup n m p sibs slot h :
  (n <= length sibs)%nat ->
  deleteOldNodes_from hash n m (hashT slot) p (hashT <$> sibs) !! h
  = if decide (h ∈ hashT <$> pathnodes 0 p (take n sibs) slot) then None else m !! h.
Proof.
  revert m slot. induction n as [|i IH]; intros m slot Hn.
  - rewrite take_0. cbn [deleteOldNodes_from pathnodes fmap list_fmap].
    case_decide as Hin; [by apply elem_of_nil in Hin | done].
  - cbn [deleteOldNodes_from].
    destruct (sibs !! i) as [s|] eqn:Es; [|apply lookup_ge_None in Es; lia].
    rewrite list_lookup_fmap, Es. simpl.
    rewrite level_plug, IH by lia.
    rewrite (take_S_snoc _ _ _ Es), pathnodes_app, length_take_le by lia.
    simpl pathnodes. rewrite fmap_app. simpl.
    destruct (decide (h ∈ hashT <$> pathnodes 0 p (take i sibs) _)) as [Hin|Hnin].
    + rewrite decide_True; [done | apply elem_of_app; by left].
    + destruct (decide (h = hashT (plug i p [s] slot))) as [->|Hne].
      * rewrite lookup_delete_eq, decide_True; [done|].
        apply elem_of_app. right. simpl. destruct (dir_truthy (p !! i)); apply list_elem_of_here.
      * rewrite lookup_delete_ne by done. rewrite decide_False; [done|].
        intros [?|Hx%list_elem_of_singleton]%elem_of_app; [done|].
        apply Hne. rewrite Hx. simpl. by destruct (dir_truthy (p !! i)).
Qed.

Lemma deleteOldNodes_lookup m p sibs slot h :
  deleteOldNodes hash m (hashT slot) p (hashT <$> sibs) !! h
  = if decide (h ∈ hashT <$> pathnodes 0 p sibs slot) then None else m !! h.
Proof.
  unfold deleteOldNodes. rewrite length_fmap, deleteOldNodes_from_lookup by lia.
  by rewrite firstn_all.
Qed.

(** ** The table *)

Lemma stored_insert m c T :
  stored m T -> stored (<[hash (array_of c) := c]> m) T.
Proof.
  induction T as [|k v|l IHl r IHr]; simpl; [done| |].
  - intros H. destruct (decide (hash (array_of c) = hash [k; v; markOf big])) as [E|E].
    + rewrite E, lookup_insert_eq. apply hash_inj in E. destruct c; by inversion E.
    + by rewrite lookup_insert_ne.
  - intros (H & Hl & Hr). split; [|by auto].
    destruct (decide (hash (array_of c) = hash [hashT l; hashT r])) as [E|E].
    + rewrite E, lookup_insert_eq. apply hash_inj in E. destruct c; by inversion E.
    + by rewrite lookup_insert_ne.
Qed.

Lemma stored_level m p i slot s :
  stored m slot -> stored m s ->
  let c := level p i (hashT slot) (hashT s) in
  stored (<[hash (array_of c) := c]> m) (plug i p [s] slot).
Proof.
  intros Hslot Hs. unfold level. simpl.
  destruct (dir_truthy (p !! i)); simpl;
    (split; [apply lookup_insert_eq | split; by apply stored_insert]).
Qed.

Lemma stored_agree m m' T :
  (forall s, subterm s T -> s <> Empty -> m' !! hashT s = m !! hashT s) ->
  stored m T -> stored m' T.
Proof.
  induction T as [|k v|l IHl r IHr]; simpl; [done| |].
  - intros H <-. apply (H (Leaf k v)); [by left | done].
  - intros H (H1 & Hl & Hr). split; [|split].
    + rewrite <- H1. apply (H (Node l r)); [by left | done].
    + apply IHl; [|done]. intros s Hs. apply H. right. by left.
    + apply IHr; [|done]. intros s Hs. apply H. right. by right.
Qed.

Lemma subterm_refl T : subterm T T.
Proof. destruct T; by left. Qed.

Lemma subterm_size s T : subterm s T -> (tsize s <= tsize T)%nat.
Proof.
  induction T as [|k v|l IHl r IHr]; simpl; intros [->|H]; try done.
  destruct H as [H|H]; [apply IHl in H | apply IHr in H]; lia.
Qed.

Lemma subterm_entries s T e : subterm s T -> e ∈ entries s -> e ∈ entries T.
Proof.
  induction T as [|k v|l IHl r IHr]; simpl; intros [->|H]; try done.
  intros He. apply elem_of_app. destruct H as [H|H]; [left | right]; auto.
Qed.

Lemma ids_ok_insert m c : ids_ok hash m -> ids_ok hash (<[hash (array_of c) := c]> m).
Proof.
  intros H h c'. destruct (decide (hash (array_of c) = h)) as [<-|Hne].
  - rewrite lookup_insert_eq. by intros [= <-].
  - rewrite lookup_insert_ne by done. apply H.
Qed.

Lemma ids_ok_delete m h : ids_ok hash m -> ids_ok hash (delete h m).
Proof.
  intros H h' c. destruct (decide (h = h')) as [<-|Hne].
  - by rewrite lookup_delete_eq.
  - rewrite lookup_delete_ne by done. apply H.
Qed.

Lemma ids_ok_sub m m' :
  (forall h c, m' !! h = Some c -> m !! h = Some c) -> ids_ok hash m -> ids_ok hash m'.
Proof. intros Hs H h c Hc. apply H, Hs, Hc. Qed.

Lemma ids_ok_zero m : ids_ok hash m -> m !! zeroOf big = None.
Proof.
  intros H. destruct (m !! zeroOf big) as [c|] eqn:E; [|done].
  apply H in E. by apply hash_not_zero in E.
Qed.

(** [addNewNodes] stores the new path nodes and returns the identifier of
    the tree they form. *)
Lemma addNewNodes_from_plug n m p sibs slot :
  (n <= length sibs)%nat ->
  stored m slot -> (forall s, s ∈ take n sibs -> stored m s) -> ids_ok hash m ->
  exists m',
    addNewNodes_from hash n m (hashT slot) p (hashT <$> sibs)
    = (hashT (plug 0 p (take n sibs) slot), m')
    /\ stored m' (plug 0 p (take n sibs) slot)
    /\ ids_ok hash m'
    /\ (forall T, stored m T -> stored m' T).
Proof.
  revert m slot. induction n as [|i IH]; intros m slot Hn Hslot Hsibs Hids.
  - rewrite take_0. simpl. eauto.
  - cbn [addNewNodes_from].
    destruct (sibs !! i) as [s|] eqn:Es; [|apply lookup_ge_None in Es; lia].
    rewrite list_lookup_fmap, Es. simpl.
    rewrite (take_S_snoc _ _ _ Es) in *.
    set (c := level p i (hashT slot) (hashT s)).
    assert (Hs : stored m s) by (apply Hsibs, elem_of_app; right; apply list_elem_of_here).
    destruct (IH (<[hash (array_of c) := c]> m) (plug i p [s] slot)) as (m' & E & Hst & Hid & Hmono).
    + lia.
    + by apply stored_level.
    + intros s' Hs'. apply stored_insert, Hsibs, elem_of_app. by left.
    + by apply ids_ok_insert.
    + exists m'. rewrite plug_app, length_take_le by lia. simpl Nat.add.
      subst c. rewrite ?level_plug in E |- *. split; [exact E|]. split; [done|]. split; [done|].
      intros T HT. by apply Hmono, stored_insert.
Qed.

End TreeFacts.

(** * Well-formed trees and the entry locator *)

Lemma retrieveEntry_loop_unfold t key path node sibs :
  retrieveEntry_loop t key path node sibs
  = if decide (node = zeroNode t) then Ok (mkEntryResponse [key] None sibs)
    else
      match nodes t !! node with
      | None => Err TypeError
      | Some c =>
          if has_mark c then
            if decide (child0 c = key) then Ok (mkEntryResponse (array_of c) None sibs)
            else Ok (mkEntryResponse [key] (Some (array_of c)) sibs)
          else
            match path with
            | B0 :: path' => retrieveEntry_loop t key path' (child0 c) (sibs ++ [child1 c])
            | B1 :: path' => retrieveEntry_loop t key path' (child1 c) (sibs ++ [child0 c])
            | _ => Err TypeError
            end
      end.
Proof. by destruct path. Qed.

Section WellFormed.

Variable hash : list elem -> elem.
Variable big : bool.
Hypothesis hash_inj : forall a b, hash a = hash b -> a = b.
Hypothesis hash_nonzero : forall l, numberNonZero (hash l) = true.

Local Abbreviation hashT := (hashT hash big).
Local Abbreviation stored := (stored hash big).
Local Abbreviation wf := (wf big).
Local Abbreviation response := (response hash big).

Lemma wf_keys_inrange d T k : wf d T -> k ∈ keys T -> keyInRange big k = true.
Proof.
  revert d. induction T as [|k' v|l IHl r IHr]; intros d; unfold keys; simpl.
  - by intros _ ?%elem_of_nil.
  - by intros H ->%list_elem_of_singleton.
  - intros (Hl & Hr & _) Hk. rewrite fmap_app in Hk.
    apply elem_of_app in Hk as [Hk|Hk]; [by eapply IHl | by eapply IHr].
Qed.

Lemma wf_keys_good d T k : wf d T -> k ∈ keys T -> good_path (keyToPath k).
Proof. intros H Hk. eapply keyInRange_good_path, wf_keys_inrange; eauto. Qed.

Lemma entries_keys T e : e ∈ entries T -> e.1 ∈ keys T.
Proof. intros H. by apply list_elem_of_fmap_2. Qed.

Lemma wf_node_entry d l r : wf d (Node l r) -> exists e, e ∈ entries (Node l r).
Proof.
  intros (_ & _ & _ & _ & Hn). simpl.
  destruct (entries l ++ entries r) as [|e E] eqn:El.
  - apply (f_equal length) in El. rewrite length_app in El. simpl in El. lia.
  - exists e. apply list_elem_of_here.
Qed.

Lemma wf_node_depth d l r : wf d (Node l r) -> (d < 256)%nat.
Proof.
  intros H. destruct (wf_node_entry _ _ _ H) as [e He].
  pose proof H as (Hl & Hr & Hbl & Hbr & _).
  simpl in He. apply elem_of_app in He as [He|He]; apply entries_keys in He.
  - pose proof (wf_keys_good _ _ _ Hl He) as [Hlen _].
    specialize (Hbl _ He). apply lookup_lt_Some in Hbl. lia.
  - pose proof (wf_keys_good _ _ _ Hr He) as [Hlen _].
    specialize (Hbr _ He). apply lookup_lt_Some in Hbr. lia.
Qed.

Lemma wf_locate_length d p T : wf d T -> (d + length (locate d p T).1 <= 256)%nat \/ T = Empty \/ exists k v, T = Leaf k v.
Proof.
  revert d. induction T as [|k v|l IHl r IHr]; intros d H; [by auto|by eauto|].
  left. pose proof (wf_node_depth _ _ _ H) as Hd.
  destruct H as (Hl & Hr & _). simpl.
  destruct (dir_truthy (p !! d)).
  - destruct (IHr _ Hr) as [Hr'|[->|(k & v & ->)]]; simpl in *;
      [destruct (locate (S d) p r); simpl in *; lia | lia | lia].
  - destruct (IHl _ Hl) as [Hl'|[->|(k & v & ->)]]; simpl in *;
      [destruct (locate (S d) p l); simpl in *; lia | lia | lia].
Qed.

Lemma locate_length d p T : wf d T -> (length (locate d p T).1 <= 256 - d)%nat.
Proof.
  intros H. destruct (wf_locate_length d p T H) as [?|[->|(k & v & ->)]]; simpl; lia.
Qed.

(** The walk of [retrieveEntry] on a stored, well-formed tree. *)
Lemma retrieveEntry_loop_locate t key p d T acc :
  bigNumbers t = big -> good_path p -> stored (nodes t) T -> wf d T ->
  retrieveEntry_loop t key (drop d p) (hashT T) acc
  = Ok (let r := response key (locate d p T).1 (locate d p T).2 in
        mkEntryResponse (entry r) (matchingEntry r) (acc ++ siblings r)).
Proof.
  intros Hbig Hp. revert d acc.
  assert (Hz : zeroNode t = zeroOf big) by (unfold zeroNode; by rewrite Hbig).
  induction T as [|k v|l IHl r IHr]; intros d acc Hst Hwf;
    rewrite retrieveEntry_loop_unfold, Hz.
  - simpl. rewrite decide_True by done. by rewrite app_nil_r.
  - simpl in Hst. change (hashT (Leaf k v)) with (hash [k; v; markOf big]).
    rewrite decide_False by (by apply hash_not_zero).
    rewrite Hst. simpl. rewrite markOf_truthy. unfold response. simpl.
    destruct (decide (k = key)); simpl; by rewrite app_nil_r.
  - destruct Hst as (Hn & Hsl & Hsr).
    rewrite decide_False by (by apply hash_not_zero).
    rewrite Hn. simpl has_mark. cbv iota.
    pose proof (wf_node_depth _ _ _ Hwf) as Hd.
    destruct Hwf as (Hwl & Hwr & _).
    destruct (good_path_drop p d Hp Hd) as (b & Eb & [->| ->] & Edrop);
      rewrite Edrop; simpl; rewrite Eb; simpl.
    + rewrite IHl by done. destruct (locate (S d) p l) as [ss slot]. simpl.
      unfold response. destruct slot as [|mk mv|]; simpl;
        try destruct (decide (mk = key)); simpl; by rewrite <- app_assoc.
    + rewrite IHr by done. destruct (locate (S d) p r) as [ss slot]. simpl.
      unfold response. destruct slot as [|mk mv|]; simpl;
        try destruct (decide (mk = key)); simpl; by rewrite <- app_assoc.
Qed.

(** The walk follows the key: a stored key is found, and the leaf the walk
    ends at agrees with the path on every level passed. *)
Lemma locate_found d T k v :
  wf d T -> (k, v) ∈ entries T -> (locate d (keyToPath k) T).2 = Leaf k v.
Proof.
  revert d. induction T as [|k' v'|l IHl r IHr]; intros d Hwf He; simpl in *.
  - by apply elem_of_nil in He.
  - apply list_elem_of_singleton in He. by inversion He.
  - destruct Hwf as (Hwl & Hwr & Hbl & Hbr & _).
    apply elem_of_app in He as [He|He].
    + rewrite (Hbl k) by (by apply (entries_keys _ (k, v))). simpl.
      specialize (IHl _ Hwl He). by destruct (locate (S d) (keyToPath k) l).
    + rewrite (Hbr k) by (by apply (entries_keys _ (k, v))). simpl.
      specialize (IHr _ Hwr He). by destruct (locate (S d) (keyToPath k) r).
Qed.

Lemma locate_entry d p T k v :
  (locate d p T).2 = Leaf k v -> (k, v) ∈ entries T.
Proof.
  intros H. rewrite <- (plug_locate d p T), entries_plug, H.
  apply elem_of_app. left. apply list_elem_of_here.
Qed.

Lemma locate_agree d p T mk mv i :
  good_path p -> wf d T -> (locate d p T).2 = Leaf mk mv ->
  (d <= i < d + length (locate d p T).1)%nat ->
  keyToPath mk !! i = p !! i.
Proof.
  intros Hp. revert d. induction T as [|k' v'|l IHl r IHr]; intros d Hwf Hs Hi; simpl in *.
  - lia.
  - lia.
  - pose proof (wf_node_depth _ _ _ Hwf) as Hd.
    destruct Hwf as (Hwl & Hwr & Hbl & Hbr & _).
    destruct (good_path_drop p d Hp Hd) as (b & Eb & Hb & _).
    rewrite Eb in *. destruct Hb as [-> | ->]; simpl in *.
    + destruct (locate (S d) p l) as [ss slot] eqn:El. simpl in *.
      destruct (decide (i = d)) as [->|Hne].
      * rewrite Eb. apply Hbl. apply (entries_keys _ (mk, mv)).
        apply (locate_entry (S d) p). by rewrite El.
      * apply (IHl (S d)); rewrite ?El; simpl; [done|done|lia].
    + destruct (locate (S d) p r) as [ss slot] eqn:Er. simpl in *.
      destruct (decide (i = d)) as [->|Hne].
      * rewrite Eb. apply Hbr. apply (entries_keys _ (mk, mv)).
        apply (locate_entry (S d) p). by rewrite Er.
      * apply (IHr (S d)); rewrite ?Er; simpl; [done|done|lia].
Qed.

(** Keys of a well-formed tree are pairwise distinct. *)
Lemma wf_NoDup_keys d T : wf d T -> NoDup (keys T).
Proof.
  revert d. induction T as [|k v|l IHl r IHr]; intros d Hwf; unfold keys; simpl.
  - constructor.
  - apply NoDup_singleton.
  - destruct Hwf as (Hwl & Hwr & Hbl & Hbr & _). rewrite fmap_app.
    apply NoDup_app. split; [by eapply IHl|]. split; [|by eapply IHr].
    intros k Hl Hr. apply Hbl in Hl. apply Hbr in Hr. congruence.
Qed.

(** ** Path nodes never occur inside a sibling *)

Lemma sibling_size d p sibs slot s :
  s ∈ sibs -> (tsize s < tsize (plug d p sibs slot))%nat.
Proof.
  revert d. induction sibs as [|s0 sibs IH]; intros d; [by intros ?%elem_of_nil|].
  intros [->|Hs]%elem_of_cons; simpl.
  - destruct (dir_truthy (p !! d)); simpl; lia.
  - specialize (IH (S d) Hs). destruct (dir_truthy (p !! d)); simpl; lia.
Qed.

Lemma pathnodes_wf d p sibs slot o :
  wf d (plug d p sibs slot) -> o ∈ pathnodes d p sibs slot ->
  subterm o (plug d p sibs slot) /\ exists e, e ∈ entries o.
Proof.
  revert d. induction sibs as [|s0 sibs IH]; intros d; [by intros _ ?%elem_of_nil|].
  intros Hwf [->|Ho]%elem_of_cons.
  - split; [apply subterm_refl|]. simpl in *.
    destruct (dir_truthy (p !! d)); by eapply wf_node_entry.
  - simpl in Hwf |- *. destruct (dir_truthy (p !! d)); destruct Hwf as (Hwl & Hwr & _).
    + destruct (IH (S d) Hwr Ho) as [Hsub He]. split; [|done]. right. by right.
    + destruct (IH (S d) Hwl Ho) as [Hsub He]. split; [|done]. right. by left.
Qed.

Lemma pathnodes_not_in_siblings d p sibs slot o s :
  wf d (plug d p sibs slot) -> o ∈ pathnodes d p sibs slot -> s ∈ sibs ->
  ~ subterm o s.
Proof.
  revert d. induction sibs as [|s0 sibs IH]; intros d; [by intros _ ?%elem_of_nil|].
  intros Hwf Ho Hs Hsub.
  apply elem_of_cons in Ho as [->|Ho].
  - apply subterm_size in Hsub. pose proof (sibling_size d p (s0 :: sibs) slot s Hs). lia.
  - apply elem_of_cons in Hs as [->|Hs].
    + simpl in Hwf. destruct (dir_truthy (p !! d));
        destruct Hwf as (Hwl & Hwr & Hbl & Hbr & _).
      * destruct (pathnodes_wf _ _ _ _ _ Hwr Ho) as [Hsub' [e He]].
        pose proof (subterm_entries _ _ _ Hsub He) as H1%entries_keys.
        pose proof (subterm_entries _ _ _ Hsub' He) as H2%entries_keys.
        apply Hbl in H1. apply Hbr in H2. congruence.
      * destruct (pathnodes_wf _ _ _ _ _ Hwl Ho) as [Hsub' [e He]].
        pose proof (subterm_entries _ _ _ Hsub He) as H1%entries_keys.
        pose proof (subterm_entries _ _ _ Hsub' He) as H2%entries_keys.
        apply Hbr in H1. apply Hbl in H2. congruence.
    + simpl in Hwf. destruct (dir_truthy (p !! d)); destruct Hwf as (Hwl & Hwr & _).
      * by apply (IH (S d) Hwr Ho Hs).
      * by apply (IH (S d) Hwl Ho Hs).
Qed.

(** Removing the path nodes from the table keeps every sibling stored. *)
Lemma stored_without_path d p sibs slot m m' T :
  wf d (plug d p sibs slot) ->
  (forall h, h ∉ hashT <$> pathnodes d p sibs slot -> m' !! h = m !! h) ->
  (forall o, o ∈ pathnodes d p sibs slot -> ~ subterm o T) ->
  stored m T -> stored m' T.
Proof.
  intros Hwf Hm Hno. apply stored_agree; [done..|].
  intros s Hs Hne. apply Hm. intros (o & Eo & Ho)%list_elem_of_fmap.
  apply hashT_inj in Eo; [|done..]. subst o. by apply (Hno s).
Qed.

End WellFormed.

(** * Insertion, replacement and deletion on trees *)

Lemma pathbit_seq_true a b : pathbit_seq a b = true -> a = b.
Proof. by destruct a, b. Qed.

Lemma pathbit_seq_false a b :
  (a = B0 \/ a = B1) -> (b = B0 \/ b = B1) -> pathbit_seq a b = false -> a <> b.
Proof. intros [-> | ->] [-> | ->]; simpl; congruence. Qed.

Lemma pathbit_seq_refl a : (a = B0 \/ a = B1) -> pathbit_seq a a = true.
Proof. by intros [-> | ->]. Qed.

(** The common prefix of two good paths that differ at or after [d]. *)
Lemma commonPrefix_good pm p d i :
  good_path pm -> good_path p -> (d <= i < 256)%nat -> pm !! i <> p !! i ->
  let n := commonPrefix (drop d pm) (drop d p) in
  (d + n < 256)%nat /\ pm !! (d + n)%nat <> p !! (d + n)%nat
  /\ forall j, (d <= j < d + n)%nat -> pm !! j = p !! j.
Proof.
  intros Hpm Hp Hi Hne. remember (i - d)%nat as g eqn:Hg.
  revert d Hi Hg. induction g as [|g IH]; intros d Hi Hg.
  - assert (d = i) as -> by lia.
    destruct (good_path_drop pm i Hpm) as (a & Ea & Ha & Da); [lia|].
    destruct (good_path_drop p i Hp) as (b & Eb & Hb & Db); [lia|].
    simpl. rewrite Da, Db. unfold commonPrefix. simpl.
    destruct (pathbit_seq a b) eqn:E.
    + apply pathbit_seq_true in E. congruence.
    + rewrite Nat.add_0_r. split; [lia|]. split; [done|]. intros j Hj. lia.
  - destruct (good_path_drop pm d Hpm) as (a & Ea & Ha & Da); [lia|].
    destruct (good_path_drop p d Hp) as (b & Eb & Hb & Db); [lia|].
    simpl. rewrite Da, Db. unfold commonPrefix. simpl.
    destruct (pathbit_seq a b) eqn:E.
    + apply pathbit_seq_true in E. subst b.
      destruct (IH (S d)) as (H1 & H2 & H3); [lia|lia|].
      unfold commonPrefix in *.
      replace (d + S (firstCommon_from (drop (S d) pm) (drop (S d) p)))%nat
        with (S d + firstCommon_from (drop (S d) pm) (drop (S d) p))%nat by lia.
      split; [done|]. split; [done|]. intros j Hj.
      destruct (decide (j = d)) as [->|]; [congruence|]. apply H3. lia.
    + rewrite Nat.add_0_r. split; [lia|]. split.
      * rewrite Ea, Eb. intros [= ->]. by rewrite pathbit_seq_refl in E.
      * intros j Hj. lia.
Qed.

(** [matchingRun] counts the common prefix, when it returns. *)
Lemma matchingRun_commonPrefix a b n :
  matchingRun a b = Some n -> n = commonPrefix a b.
Proof.
  revert b n. induction a as [|x a IH]; intros [|y b] n; simpl.
  - done.
  - by intros [= <-].
  - by intros [= <-].
  - unfold commonPrefix. simpl. destruct (pathbit_seq x y); [|by intros [= <-]].
    destruct (matchingRun a b) as [n'|] eqn:E; [|done].
    simpl. intros [= <-]. f_equal. by apply IH.
Qed.

Lemma matchingRun_good pm p d i :
  good_path pm -> good_path p -> (d <= i < 256)%nat -> pm !! i <> p !! i ->
  matchingRun (drop d pm) (drop d p) = Some (commonPrefix (drop d pm) (drop d p)).
Proof.
  intros Hpm Hp Hi Hne. remember (i - d)%nat as g eqn:Hg.
  revert d Hi Hg. induction g as [|g IH]; intros d Hi Hg;
    destruct (good_path_drop pm d Hpm) as (a & Ea & Ha & Da); try lia;
    destruct (good_path_drop p d Hp) as (b & Eb & Hb & Db); try lia;
    rewrite Da, Db; unfold commonPrefix; simpl;
    destruct (pathbit_seq a b) eqn:E; try done.
  - assert (d = i) as -> by lia. apply pathbit_seq_true in E. congruence.
  - rewrite (IH (S d)) by lia. done.
Qed.

Lemma matchingRun_diff pm p d n :
  good_path pm -> good_path p -> (d <= 256)%nat ->
  matchingRun (drop d pm) (drop d p) = Some n ->
  exists i, (d <= i < 256)%nat /\ pm !! i <> p !! i.
Proof.
  intros Hpm Hp. remember (256 - d)%nat as g eqn:Hg.
  revert d n Hg. induction g as [|g IH]; intros d n Hg Hd.
  - assert (d = 256%nat) as -> by lia.
    destruct Hpm as [Lpm _], Hp as [Lp _].
    rewrite !drop_ge by lia. done.
  - destruct (good_path_drop pm d Hpm) as (a & Ea & Ha & Da); [lia|].
    destruct (good_path_drop p d Hp) as (b & Eb & Hb & Db); [lia|].
    rewrite Da, Db. simpl. destruct (pathbit_seq a b) eqn:E.
    + destruct (matchingRun (drop (S d) pm) (drop (S d) p)) as [n'|] eqn:En; [|done].
      intros _. destruct (IH (S d) n') as (i & Hi & Hne); [lia|lia|done|].
      exists i. split; [lia|done].
    + intros _. exists d. split; [lia|]. rewrite Ea, Eb. intros [= ->].
      by rewrite pathbit_seq_refl in E.
Qed.

Lemma concat_entries_replicate n : concat (entries <$> replicate n Empty) = [].
Proof. induction n as [|n IH]; simpl; auto. Qed.

Section Operations.

Variable big : bool.

Local Abbreviation wf := (wf big).

Lemma wf_count d T :
  wf d T ->
  match length (entries T) with
  | O => T = Empty
  | S O => exists k v, T = Leaf k v
  | _ => exists l r, T = Node l r
  end.
Proof.
  destruct T as [|k v|l r]; simpl; [done|by eauto|].
  intros (_ & _ & _ & _ & Hn). rewrite length_app.
  destruct (length (entries l) + length (entries r))%nat as [|[|n]]; [lia|lia|eauto].
Qed.

(** *** Insertion *)

Lemma entries_chain d p n mk mv k v :
  entries (plug d p (replicate n Empty ++ [Leaf mk mv]) (Leaf k v))
  ≡ₚ [(k, v); (mk, mv)].
Proof.
  rewrite entries_plug, fmap_app, concat_app, concat_entries_replicate. done.
Qed.

Lemma wf_chain d n k v mk mv :
  keyInRange big k = true -> keyInRange big mk = true ->
  (d + n < 256)%nat ->
  keyToPath mk !! (d + n)%nat <> keyToPath k !! (d + n)%nat ->
  (forall j, (d <= j < d + n)%nat -> keyToPath mk !! j = keyToPath k !! j) ->
  wf d (plug d (keyToPath k) (replicate n Empty ++ [Leaf mk mv]) (Leaf k v)).
Proof.
  intros Hk Hmk. pose proof (keyInRange_good_path _ _ Hk) as Hp.
  pose proof (keyInRange_good_path _ _ Hmk) as Hpm.
  revert d. induction n as [|n IH]; intros d Hd Hne Hag.
  - rewrite Nat.add_0_r in *. simpl.
    destruct Hp as [_ Hp]. destruct Hpm as [_ Hpm].
    destruct (Hp d Hd) as [E|E], (Hpm d Hd) as [E'|E']; rewrite E, E' in *; try done; simpl;
      unfold keys; simpl; repeat split; try done;
      intros x ->%list_elem_of_singleton; done.
  - cbn [replicate app plug].
    assert (Hsub : wf (S d) (plug (S d) (keyToPath k) (replicate n Empty ++ [Leaf mk mv]) (Leaf k v))).
    { apply IH; [lia | by replace (S d + n)%nat with (d + S n)%nat by lia |].
      intros j Hj. apply Hag. lia. }
    assert (Hkeys : forall x,
      x ∈ keys (plug (S d) (keyToPath k) (replicate n Empty ++ [Leaf mk mv]) (Leaf k v)) ->
      keyToPath x !! d = keyToPath k !! d).
    { intros x Hx. unfold keys in Hx. rewrite entries_chain in Hx. simpl in Hx.
      apply elem_of_cons in Hx as [->|Hx]; [done|].
      apply list_elem_of_singleton in Hx as ->. apply Hag. lia. }
    assert (Hcnt : length (entries (plug (S d) (keyToPath k)
                     (replicate n Empty ++ [Leaf mk mv]) (Leaf k v))) = 2%nat).
    { by rewrite entries_chain. }
    destruct Hp as [_ Hp]. destruct (Hp d) as [E|E]; [lia| |]; rewrite E in *; simpl;
      unfold keys at 1 2; simpl; rewrite Hcnt; repeat split; try done; try lia;
      by intros x ?%elem_of_nil.
Qed.

Lemma entries_insT d p k v T : entries (insT d p k v T) ≡ₚ (k, v) :: entries T.
Proof.
  revert d. induction T as [|mk mv|l IHl r IHr]; intros d; simpl.
  - done.
  - apply entries_chain.
  - destruct (dir_truthy (p !! d)); simpl.
    + rewrite IHr. by rewrite Permutation_middle.
    + by rewrite IHl.
Qed.

Lemma wf_insT d k v T :
  keyInRange big k = true -> wf d T ->
  (forall mk mv, (locate d (keyToPath k) T).2 = Leaf mk mv ->
     exists i, (d <= i < 256)%nat /\ keyToPath mk !! i <> keyToPath k !! i) ->
  wf d (insT d (keyToPath k) k v T).
Proof.
  intros Hk. pose proof (keyInRange_good_path _ _ Hk) as Hp.
  revert d. induction T as [|mk mv|l IHl r IHr]; intros d Hwf Hdiff.
  - done.
  - simpl in Hwf. destruct (Hdiff mk mv) as (i & Hi & Hne); [done|].
    pose proof (keyInRange_good_path _ _ Hwf) as Hpm.
    destruct (commonPrefix_good _ _ d i Hpm Hp Hi Hne) as (H1 & H2 & H3).
    simpl. by apply wf_chain.
  - pose proof (wf_node_depth _ _ _ _ Hwf) as Hd.
    destruct Hwf as (Hwl & Hwr & Hbl & Hbr & Hn).
    destruct (good_path_drop _ d Hp Hd) as (b & Eb & Hb & _).
    simpl in Hdiff |- *. rewrite Eb in *. destruct Hb as [-> | ->]; simpl in *.
    + assert (Hsub : wf (S d) (insT (S d) (keyToPath k) k v l)).
      { apply IHl; [done|]. intros mk mv Hloc. destruct (Hdiff mk mv) as (i & Hi & Hne).
        - by destruct (locate (S d) (keyToPath k) l).
        - exists i. split; [|done]. destruct (decide (i = d)) as [->|]; [|lia].
          apply locate_entry, entries_keys, Hbl in Hloc. simpl in Hloc.
          rewrite Hloc, Eb in Hne. done. }
      repeat split; try done.
      * intros x Hx. unfold keys in Hx. rewrite entries_insT in Hx. simpl in Hx.
        apply elem_of_cons in Hx as [->|Hx]; [done | by apply Hbl].
      * rewrite entries_insT. simpl. lia.
    + assert (Hsub : wf (S d) (insT (S d) (keyToPath k) k v r)).
      { apply IHr; [done|]. intros mk mv Hloc. destruct (Hdiff mk mv) as (i & Hi & Hne).
        - by destruct (locate (S d) (keyToPath k) r).
        - exists i. split; [|done]. destruct (decide (i = d)) as [->|]; [|lia].
          apply locate_entry, entries_keys, Hbr in Hloc. simpl in Hloc.
          rewrite Hloc, Eb in Hne. done. }
      repeat split; try done.
      * intros x Hx. unfold keys in Hx. rewrite entries_insT in Hx. simpl in Hx.
        apply elem_of_cons in Hx as [->|Hx]; [done | by apply Hbr].
      * rewrite entries_insT. simpl. lia.
Qed.

Lemma insZ_insT d p k v T :
  insZ d p k v (locate d p T).1 (locate d p T).2 = insT d p k v T.
Proof.
  revert d. induction T as [|mk mv|l IHl r IHr]; intros d; simpl.
  - done.
  - by rewrite Nat.add_0_r.
  - destruct (dir_truthy (p !! d)) eqn:E.
    + rewrite <- IHr. destruct (locate (S d) p r) as [ss slot]. simpl.
      unfold insZ. destruct slot; simpl; rewrite ?E; try done.
      by replace (d + S (length ss))%nat with (S d + length ss)%nat by lia.
    + rewrite <- IHl. destruct (locate (S d) p l) as [ss slot]. simpl.
      unfold insZ. destruct slot; simpl; rewrite ?E; try done.
      by replace (d + S (length ss))%nat with (S d + length ss)%nat by lia.
Qed.

(** *** Replacement *)

Lemma keys_updT d p k v T : keys (updT d p k v T) = keys T.
Proof.
  unfold keys. revert d. induction T as [|mk mv|l IHl r IHr]; intros d; simpl.
  - done.
  - by destruct (decide (mk = k)) as [->|].
  - destruct (dir_truthy (p !! d)); simpl; by rewrite !fmap_app, ?IHl, ?IHr.
Qed.

Lemma wf_updT d p k v T : wf d T -> wf d (updT d p k v T).
Proof.
  revert d. induction T as [|mk mv|l IHl r IHr]; intros d; simpl.
  - done.
  - by destruct (decide (mk = k)) as [->|].
  - intros (Hwl & Hwr & Hbl & Hbr & Hn).
    assert (Hlen : forall d T, length (entries (updT d p k v T)) = length (entries T)).
    { intros d' T. rewrite <- !(length_fmap fst). apply (f_equal length), keys_updT. }
    destruct (dir_truthy (p !! d)); simpl; rewrite ?keys_updT, ?Hlen; repeat split; auto.
Qed.

Lemma entries_updT d k v T e :
  wf d T -> k ∈ keys T ->
  e ∈ entries (updT d (keyToPath k) k v T) <-> e = (k, v) \/ (e ∈ entries T /\ e.1 <> k).
Proof.
  revert d. induction T as [|mk mv|l IHl r IHr]; intros d Hwf Hk.
  - by apply elem_of_nil in Hk.
  - unfold keys in Hk. simpl in Hk. apply list_elem_of_singleton in Hk as <-.
    simpl. rewrite decide_True by done. simpl. rewrite !list_elem_of_singleton.
    split; [by left|]. intros [?|[-> ?]]; done.
  - destruct Hwf as (Hwl & Hwr & Hbl & Hbr & Hn).
    unfold keys in Hk. simpl in Hk. rewrite fmap_app in Hk.
    assert (Hnl : forall e', e' ∈ entries l -> keyToPath k !! d = Some B1 -> e'.1 <> k).
    { intros e' He' Eb Heq. apply entries_keys, Hbl in He'. rewrite Heq in He'. congruence. }
    assert (Hnr : forall e', e' ∈ entries r -> keyToPath k !! d = Some B0 -> e'.1 <> k).
    { intros e' He' Eb Heq. apply entries_keys, Hbr in He'. rewrite Heq in He'. congruence. }
    apply elem_of_app in Hk as [Hk|Hk].
    + pose proof (Hbl _ Hk) as Eb. simpl. rewrite Eb. simpl.
      rewrite !elem_of_app, (IHl _ Hwl Hk).
      split; [intros [[?|[? ?]]|?] | intros [?|[[?|?] ?]]]; eauto 6.
    + pose proof (Hbr _ Hk) as Eb. simpl. rewrite Eb. simpl.
      rewrite !elem_of_app, (IHr _ Hwr Hk).
      split; [intros [?|[?|[? ?]]] | intros [?|[[?|?] ?]]]; eauto 6.
Qed.

Lemma plug_updT d p k v v0 T :
  (locate d p T).2 = Leaf k v0 ->
  plug d p (locate d p T).1 (Leaf k v) = updT d p k v T.
Proof.
  revert d. induction T as [|mk mv|l IHl r IHr]; intros d; simpl.
  - done.
  - intros [= -> ->]. by rewrite decide_True.
  - destruct (dir_truthy (p !! d)) eqn:E.
    + specialize (IHr (S d)). destruct (locate (S d) p r) as [ss slot]. simpl in *.
      intros H. by rewrite E, IHr.
    + specialize (IHl (S d)). destruct (locate (S d) p l) as [ss slot]. simpl in *.
      intros H. by rewrite E, IHl.
Qed.

End Operations.

(** * Deletion and canonicity *)

Lemma lastNonEmpty_from_cons n s rs :
  lastNonEmpty_from (S n) (s :: rs)
  = match lastNonEmpty_from n rs with
    | O => if decide (s = Empty) then O else 1%nat
    | S j => S (S j)
    end.
Proof.
  induction n as [|n IH].
  - simpl. destruct s; by simpl.
  - change (lastNonEmpty_from (S (S n)) (s :: rs))
      with (match rs !! n with
            | Some Empty => lastNonEmpty_from (S n) (s :: rs)
            | _ => S (S n)
            end).
    cbn [lastNonEmpty_from]. destruct (rs !! n) as [[| |]|]; try done.
Qed.

Lemma lastNonEmpty_from_le n rs : (lastNonEmpty_from n rs <= n)%nat.
Proof.
  induction n as [|n IH]; simpl; [lia|].
  destruct (rs !! n) as [[| |]|]; lia.
Qed.

Lemma collapse_entries T : entries (collapse T) = entries T.
Proof.
  destruct T as [| |[| |] [| |]]; simpl; try done.
Qed.

Lemma collapse_node_r s l r d p :
  collapse (plug d p [s] (Node l r)) = plug d p [s] (Node l r).
Proof. simpl. destruct (dir_truthy (p !! d)), s; done. Qed.

Lemma plug_nonempty_node d p sibs slot :
  sibs <> [] -> exists l r, plug d p sibs slot = Node l r.
Proof. destruct sibs; [done|]. intros _. simpl. destruct (dir_truthy (p !! d)); eauto. Qed.

(** The siblings-based deletion, one level at a time. *)
Lemma delZ_cons d p s ss :
  delZ d p (s :: ss) = collapse (plug d p [s] (delZ (S d) p ss)).
Proof.
  destruct ss as [|s' ss].
  - unfold delZ. simpl. destruct s; simpl; destruct (dir_truthy (p !! d)); done.
  - unfold delZ. rewrite last_cons_cons.
    destruct (last (s' :: ss)) as [L|] eqn:EL; [|by apply last_None in EL].
    destruct (is_leafT L) eqn:Eleaf.
    + change (removelast (s :: s' :: ss)) with (s :: removelast (s' :: ss)).
      set (rs := removelast (s' :: ss)).
      cbn [length]. rewrite lastNonEmpty_from_cons.
      destruct L as [|k v|]; try done.
      destruct (lastNonEmpty_from (length rs) rs) as [|j] eqn:En.
      * rewrite take_0. cbn [plug]. destruct (decide (s = Empty)) as [->|Hs].
        -- simpl. by destruct (dir_truthy (p !! d)).
        -- simpl. destruct (dir_truthy (p !! d)), s; done.
      * change (take (S (S j)) (s :: rs)) with (s :: take (S j) rs).
        change (plug d p (s :: take (S j) rs) (Leaf k v))
          with (plug d p [s] (plug (S d) p (take (S j) rs) (Leaf k v))).
        destruct (plug_nonempty_node (S d) p (take (S j) rs) (Leaf k v)) as (l & r & ->).
        { pose proof (lastNonEmpty_from_le (length rs) rs) as Hle. rewrite En in Hle.
          destruct rs; [simpl in Hle; lia | done]. }
        by rewrite collapse_node_r.
    + change (plug d p (s :: s' :: ss) Empty)
        with (plug d p [s] (plug (S d) p (s' :: ss) Empty)).
      destruct (plug_nonempty_node (S d) p (s' :: ss) Empty) as (l & r & ->); [done|].
      by rewrite collapse_node_r.
Qed.

Lemma delZ_delT d p k v T :
  (locate d p T).2 = Leaf k v -> delZ d p (locate d p T).1 = delT d p k T.
Proof.
  revert d. induction T as [|mk mv|l IHl r IHr]; intros d; simpl.
  - done.
  - intros [= -> ->]. by rewrite decide_True.
  - destruct (dir_truthy (p !! d)) eqn:E.
    + specialize (IHr (S d)). destruct (locate (S d) p r) as [ss slot]. simpl in *.
      intros H. rewrite delZ_cons, IHr by done. simpl. by rewrite E.
    + specialize (IHl (S d)). destruct (locate (S d) p l) as [ss slot]. simpl in *.
      intros H. rewrite delZ_cons, IHl by done. simpl. by rewrite E.
Qed.

Lemma filter_keep {A} (P : A -> Prop) `{forall x, Decision (P x)} (l : list A) :
  (forall x, x ∈ l -> P x) -> filter P l = l.
Proof.
  induction l as [|a l IH]; intros Hall; [done|].
  rewrite filter_cons_True by (apply Hall, list_elem_of_here).
  f_equal. apply IH. intros x Hx. apply Hall. by apply list_elem_of_further.
Qed.

Lemma filter_key_length (E : list (elem * elem)) k :
  NoDup E.*1 -> (length E <= S (length (filter (fun e => e.1 <> k) E)))%nat.
Proof.
  induction E as [|e E IH]; intros Hnd; [simpl; lia|].
  rewrite fmap_cons in Hnd. apply NoDup_cons in Hnd as [Hnotin Hnd].
  destruct (decide (e.1 = k)) as [Ek|Ek].
  - rewrite filter_cons_False by (intros ?; done).
    rewrite filter_keep; [simpl; lia|].
    intros x Hx Ex. apply Hnotin. rewrite Ek, <- Ex. by apply list_elem_of_fmap_2.
  - rewrite filter_cons_True by done. simpl. specialize (IH Hnd). lia.
Qed.

Section Deletion.

Variable big : bool.

Local Abbreviation wf := (wf big).

Lemma entries_delT d k T :
  good_path (keyToPath k) -> wf d T ->
  entries (delT d (keyToPath k) k T) = filter (fun e => e.1 <> k) (entries T).
Proof.
  intros Hp. revert d. induction T as [|mk mv|l IHl r IHr]; intros d Hwf.
  - done.
  - simpl. destruct (decide (mk = k)) as [->|Hne].
    + by rewrite filter_cons_False by (intros ?; done).
    + by rewrite filter_cons_True by done.
  - pose proof (wf_node_depth _ _ _ _ Hwf) as Hd.
    destruct Hwf as (Hwl & Hwr & Hbl & Hbr & Hn).
    destruct (good_path_drop _ d Hp Hd) as (b & Eb & Hb & _).
    cbn [delT]. rewrite collapse_entries, Eb. cbn [entries]. rewrite filter_app.
    destruct Hb as [-> | ->]; simpl; rewrite ?IHl, ?IHr by done; f_equal.
    + symmetry. apply filter_keep. intros e He Ek.
      apply entries_keys, Hbr in He. rewrite Ek in He. congruence.
    + symmetry. apply filter_keep. intros e He Ek.
      apply entries_keys, Hbl in He. rewrite Ek in He. congruence.
Qed.

Lemma wf_collapse d l r :
  wf (S d) l -> wf (S d) r ->
  (forall k, k ∈ keys l -> keyToPath k !! d = Some B0) ->
  (forall k, k ∈ keys r -> keyToPath k !! d = Some B1) ->
  (1 <= length (entries l) + length (entries r))%nat ->
  wf d (collapse (Node l r)).
Proof.
  intros Hwl Hwr Hbl Hbr Hn.
  pose proof (wf_count _ _ _ Hwl) as Hcl. pose proof (wf_count _ _ _ Hwr) as Hcr.
  destruct l as [|lk lv|ll lr], r as [|rk rv|rl rr]; cbn [collapse];
    try (simpl in Hn; lia); try done;
    (split; [done|]; split; [done|]; split; [done|]; split; [done|]);
    clear Hbl Hbr; simpl in *; rewrite ?length_app in *;
    try (destruct Hwl as (_ & _ & _ & _ & ?)); try (destruct Hwr as (_ & _ & _ & _ & ?));
    lia.
Qed.

Lemma wf_delT d k T :
  good_path (keyToPath k) -> wf d T -> wf d (delT d (keyToPath k) k T).
Proof.
  intros Hp. revert d. induction T as [|mk mv|l IHl r IHr]; intros d Hwf.
  - done.
  - simpl. by destruct (decide (mk = k)).
  - pose proof (wf_node_depth _ _ _ _ Hwf) as Hd.
    pose proof Hwf as (Hwl & Hwr & Hbl & Hbr & Hn).
    pose proof (filter_key_length (entries l) k (wf_NoDup_keys _ _ _ Hwl)) as Hfl.
    pose proof (filter_key_length (entries r) k (wf_NoDup_keys _ _ _ Hwr)) as Hfr.
    cbn [delT]. destruct (dir_truthy (keyToPath k !! d)).
    + apply wf_collapse; auto.
      * intros x Hx. apply Hbr. unfold keys in *. rewrite entries_delT in Hx by done.
        apply list_elem_of_fmap in Hx as (e & -> & He).
        apply list_elem_of_filter in He as [_ He]. by apply list_elem_of_fmap_2.
      * rewrite entries_delT by done. lia.
    + apply wf_collapse; auto.
      * intros x Hx. apply Hbl. unfold keys in *. rewrite entries_delT in Hx by done.
        apply list_elem_of_fmap in Hx as (e & -> & He).
        apply list_elem_of_filter in He as [_ He]. by apply list_elem_of_fmap_2.
      * rewrite entries_delT by done. lia.
Qed.

(** A well-formed tree is determined by its entries. *)
Lemma wf_unique d T1 T2 :
  wf d T1 -> wf d T2 -> (forall e, e ∈ entries T1 <-> e ∈ entries T2) -> T1 = T2.
Proof.
  revert d T2. induction T1 as [|k v|l IHl r IHr]; intros d T2 H1 H2 Heq.
  - pose proof (wf_count _ _ _ H2) as Hc.
    destruct (entries T2) as [|e E] eqn:E2; [by simpl in Hc|].
    exfalso. eapply elem_of_nil, Heq. apply list_elem_of_here.
  - destruct T2 as [|k' v'|l' r'].
    + exfalso. eapply elem_of_nil, Heq. apply list_elem_of_here.
    + assert ((k, v) ∈ entries (Leaf k' v')) as Hin by (apply Heq, list_elem_of_here).
      apply list_elem_of_singleton in Hin. by inversion Hin.
    + exfalso. pose proof (wf_NoDup_keys _ _ _ H2) as Hnd.
      destruct H2 as (_ & _ & _ & _ & Hn). unfold keys in Hnd. simpl in *.
      rewrite <- length_app in Hn.
      destruct (entries l' ++ entries r') as [|a [|b E]]; simpl in Hn; try lia.
      assert (a = (k, v)) as -> by (apply list_elem_of_singleton, Heq, list_elem_of_here).
      assert (b = (k, v)) as ->
        by (apply list_elem_of_singleton, Heq, list_elem_of_further, list_elem_of_here).
      simpl in Hnd. apply NoDup_cons in Hnd as [Hnotin _]. apply Hnotin, list_elem_of_here.
  - destruct T2 as [|k' v'|l' r'].
    + destruct (wf_node_entry _ _ _ _ H1) as [e He]. apply Heq in He.
      by apply elem_of_nil in He.
    + exfalso. pose proof (wf_NoDup_keys _ _ _ H1) as Hnd.
      destruct H1 as (_ & _ & _ & _ & Hn). unfold keys in Hnd. simpl in *.
      rewrite <- length_app in Hn.
      destruct (entries l ++ entries r) as [|a [|b E]]; simpl in Hn; try lia.
      assert (a = (k', v')) as -> by (apply list_elem_of_singleton, Heq, list_elem_of_here).
      assert (b = (k', v')) as ->
        by (apply list_elem_of_singleton, Heq, list_elem_of_further, list_elem_of_here).
      simpl in Hnd. apply NoDup_cons in Hnd as [Hnotin _]. apply Hnotin, list_elem_of_here.
    + destruct H1 as (Hwl & Hwr & Hbl & Hbr & _).
      destruct H2 as (Hwl' & Hwr' & Hbl' & Hbr' & _).
      simpl in Heq. setoid_rewrite elem_of_app in Heq.
      f_equal.
      * apply (IHl (S d)); [done..|]. intros e. split; intros He.
        -- destruct (proj1 (Heq e) (or_introl He)) as [?|Hr]; [done|].
           apply entries_keys in He, Hr. apply Hbl in He. apply Hbr' in Hr. congruence.
        -- destruct (proj2 (Heq e) (or_introl He)) as [?|Hr]; [done|].
           apply entries_keys in He, Hr. apply Hbl' in He. apply Hbr in Hr. congruence.
      * apply (IHr (S d)); [done..|]. intros e. split; intros He.
        -- destruct (proj1 (Heq e) (or_intror He)) as [Hl|?]; [|done].
           apply entries_keys in He, Hl. apply Hbr in He. apply Hbl' in Hl. congruence.
        -- destruct (proj2 (Heq e) (or_intror He)) as [Hl|?]; [|done].
           apply entries_keys in He, Hl. apply Hbr' in He. apply Hbl in Hl. congruence.
Qed.

End Deletion.

(** * The operations of the class on a well-formed tree *)

Lemma removelast_fmap {A B} (f : A -> B) (l : list A) :
  removelast (f <$> l) = f <$> removelast l.
Proof.
  induction l as [|a [|b l] IH]; [done|done|].
  change (f a :: removelast (f <$> b :: l) = f a :: (f <$> removelast (b :: l))).
  by rewrite IH.
Qed.

Lemma elem_of_concat {A} (x : A) (ls : list (list A)) :
  x ∈ concat ls <-> exists l, x ∈ l /\ l ∈ ls.
Proof.
  rewrite list_elem_of_In, in_concat. split.
  - intros (l & H1 & H2). exists l. by rewrite !list_elem_of_In.
  - intros (l & H1 & H2). exists l. by rewrite <- !list_elem_of_In.
Qed.

Lemma deleteOldNodes_guard hash m node p sibs :
  (if (0 <? length sibs)%nat then deleteOldNodes hash m node p sibs else m)
  = deleteOldNodes hash m node p sibs.
Proof. by destruct sibs. Qed.

Lemma addNewNodes_all hash m node p sibs :
  addNewNodes hash m node p sibs (Z.of_nat (length sibs) - 1)
  = addNewNodes_from hash (length sibs) m node p sibs.
Proof.
  unfold addNewNodes. by replace (Z.to_nat (Z.of_nat (length sibs) - 1 + 1)) with (length sibs) by lia.
Qed.

Section Refinement.

Variable hash : list elem -> elem.
Variable big : bool.
Hypothesis hash_inj : forall a b, hash a = hash b -> a = b.
Hypothesis hash_nonzero : forall l, numberNonZero (hash l) = true.

Local Abbreviation hashT := (hashT hash big).
Local Abbreviation stored := (stored hash big).
Local Abbreviation wf := (wf big).
Local Abbreviation response := (response hash big).
Local Abbreviation represents := (represents hash big).

Lemma stored_plug d p sibs slot m :
  stored m (plug d p sibs slot) -> stored m slot /\ forall s, s ∈ sibs -> stored m s.
Proof.
  revert d. induction sibs as [|s0 sibs IH]; intros d; simpl.
  - intros H. split; [done|]. by intros s ?%elem_of_nil.
  - destruct (dir_truthy (p !! d)); simpl; intros (_ & H1 & H2).
    + destruct (IH _ H2) as [Hs Hall]. split; [done|].
      intros s [->|Hs']%elem_of_cons; auto.
    + destruct (IH _ H1) as [Hs Hall]. split; [done|].
      intros s [->|Hs']%elem_of_cons; auto.
Qed.

Lemma getIndex_lastNonEmpty n rs :
  (n <= length rs)%nat ->
  getIndexOfLastNonZeroElement_from n (hashT <$> rs) = Z.of_nat (lastNonEmpty_from n rs) - 1.
Proof.
  induction n as [|n IH]; intros Hn; [done|].
  cbn [getIndexOfLastNonZeroElement_from lastNonEmpty_from].
  rewrite list_lookup_fmap.
  destruct (rs !! n) as [s|] eqn:Es; [|apply lookup_ge_None in Es; lia].
  simpl. rewrite hashT_number by done.
  destruct s; simpl; [apply IH; lia | lia | lia].
Qed.

Lemma isLeaf_stored m T :
  ids_ok hash m -> stored m T -> isLeaf m (hashT T) = is_leafT T.
Proof.
  intros Hids Hst. unfold isLeaf. destruct T as [|k v|l r]; simpl in *.
  - by erewrite ids_ok_zero.
  - rewrite Hst. simpl. apply markOf_truthy.
  - destruct Hst as [-> _]. done.
Qed.

Lemma retrieveEntry_represents t T k :
  represents t T -> good_path (keyToPath k) ->
  retrieveEntry t k
  = Ok (response k (locate 0 (keyToPath k) T).1 (locate 0 (keyToPath k) T).2).
Proof.
  intros (Hb & Hroot & Hst & Hids & Hwf) Hp. unfold retrieveEntry.
  rewrite Hroot.
  rewrite <- (drop_0 (keyToPath k)) at 1.
  erewrite retrieveEntry_loop_locate by done.
  f_equal. simpl. by destruct (response _ _ _).
Qed.

Lemma deleteOldNodes_ids m node p sibs :
  ids_ok hash m -> ids_ok hash (deleteOldNodes hash m node p sibs).
Proof.
  unfold deleteOldNodes. generalize (length sibs) as n. intros n. revert m node.
  induction n as [|n IH]; intros m node Hids; simpl; [done|].
  destruct (sibs !! n); [|done]. by apply IH, ids_ok_delete.
Qed.

Lemma deleteOldNodes_keeps m p ss slot T :
  wf 0 (plug 0 p ss slot) ->
  (forall o, o ∈ pathnodes 0 p ss slot -> ~ subterm o T) ->
  stored m T ->
  stored (deleteOldNodes hash m (hashT slot) p (hashT <$> ss)) T.
Proof.
  intros Hwf Hno. eapply stored_without_path; eauto.
  intros h Hh. rewrite deleteOldNodes_lookup by done. by rewrite decide_False.
Qed.

Lemma deleteOldNodes_keeps_sibling m p ss slot s :
  wf 0 (plug 0 p ss slot) -> s ∈ ss -> stored m s ->
  stored (deleteOldNodes hash m (hashT slot) p (hashT <$> ss)) s.
Proof.
  intros Hwf Hs. apply deleteOldNodes_keeps; [done|].
  intros o Ho. by eapply pathnodes_not_in_siblings.
Qed.

Lemma deleteOldNodes_keeps_leaf m p ss slot k v :
  wf 0 (plug 0 p ss slot) -> stored m (Leaf k v) ->
  stored (deleteOldNodes hash m (hashT slot) p (hashT <$> ss)) (Leaf k v).
Proof.
  intros Hwf. apply deleteOldNodes_keeps; [done|].
  intros o Ho [->|[]]. by apply pathnodes_node in Ho as (l & r & ?).
Qed.

Lemma addNewNodes_plug m p sibs slot :
  stored m slot -> (forall s, s ∈ sibs -> stored m s) -> ids_ok hash m ->
  exists m',
    addNewNodes hash m (hashT slot) p (hashT <$> sibs)
      (Z.of_nat (length (hashT <$> sibs)) - 1)
    = (hashT (plug 0 p sibs slot), m')
    /\ stored m' (plug 0 p sibs slot) /\ ids_ok hash m'.
Proof.
  intros Hslot Hsibs Hids. rewrite addNewNodes_all, length_fmap.
  edestruct (addNewNodes_from_plug hash big) with (n := length sibs) (sibs := sibs)
    as (m' & E & Hst & Hid & _); [done|lia|done| |done|].
  - intros s Hs. apply Hsibs. by rewrite firstn_all in Hs.
  - rewrite firstn_all in *. eauto.
Qed.

(** A key stored at the slot occurs in no sibling. *)
Lemma slot_key_not_in_sibling d p ss k v s :
  wf d (plug d p ss (Leaf k v)) -> s ∈ ss -> ~ subterm (Leaf k v) s.
Proof.
  intros Hwf Hs Hsub. apply wf_NoDup_keys in Hwf. unfold keys in Hwf.
  rewrite entries_plug in Hwf. simpl in Hwf.
  apply NoDup_cons in Hwf as [Hnotin _]. apply Hnotin.
  apply list_elem_of_fmap. exists (k, v). split; [done|].
  apply elem_of_concat. exists (entries s). split.
  - eapply subterm_entries; [done|]. apply list_elem_of_here.
  - by apply list_elem_of_fmap_2.
Qed.

Lemma delete_keeps_sibling m d p ss k v s :
  wf d (plug d p ss (Leaf k v)) -> s ∈ ss -> stored m s ->
  stored (delete (hashT (Leaf k v)) m) s.
Proof.
  intros Hwf Hs. apply stored_agree; [done..|].
  intros s' Hs' Hne. apply lookup_delete_ne. intros E.
  apply hashT_inj in E; [|done..]. subst s'. by eapply slot_key_not_in_sibling.
Qed.

End Refinement.

(** ** [add], [update] and [delete] on a represented tree *)

Section Mutations.

Variable hash : list elem -> elem.
Variable big : bool.
Hypothesis hash_inj : forall a b, hash a = hash b -> a = b.
Hypothesis hash_nonzero : forall l, numberNonZero (hash l) = true.

Local Abbreviation hashT := (hashT hash big).
Local Abbreviation stored := (stored hash big).
Local Abbreviation wf := (wf big).
Local Abbreviation response := (response hash big).
Local Abbreviation represents := (represents hash big).

Lemma finish_spec m1 p sibs k v T' :
  ids_ok hash m1 -> (forall s, s ∈ sibs -> stored m1 s) ->
  plug 0 p sibs (Leaf k v) = T' -> wf 0 T' ->
  exists t',
    (let '(rt, m3) :=
       addNewNodes hash (<[hash [k; v; markOf big] := Triple k v (markOf big)]> m1)
         (hash [k; v; markOf big]) p (hashT <$> sibs)
         (Z.of_nat (length (hashT <$> sibs)) - 1) in
     Done (mkSMT big m3 rt)) = Done t'
    /\ represents t' T'.
Proof.
  intros Hids Hsibs <- Hwf.
  set (m2 := <[hash [k; v; markOf big] := Triple k v (markOf big)]> m1).
  destruct (addNewNodes_plug hash big hash_inj m2 p sibs (Leaf k v)) as (m3 & E & Hst & Hid).
  - apply lookup_insert_eq.
  - intros s Hs. by apply (stored_insert hash big hash_inj m1 (Triple k v (markOf big))), Hsibs.
  - by apply (ids_ok_insert hash m1 (Triple k v (markOf big))).
  - change (hash [k; v; markOf big]) with (hashT (Leaf k v)).
    rewrite E. eexists. split; [reflexivity|]. by repeat split.
Qed.

Lemma add_spec t T k v :
  represents t T -> keyInRange big k = true -> checkParameterType t v = true ->
  match (locate 0 (keyToPath k) T).2 with
  | Leaf mk mv =>
      if decide (mk = k) then add hash t k v = Thrown KeyAlreadyExists t
      else match matchingRun (drop (length (locate 0 (keyToPath k) T).1) (keyToPath mk))
                             (drop (length (locate 0 (keyToPath k) T).1) (keyToPath k)) with
           | None => exists t', add hash t k v = Thrown RangeError t'
           | Some _ => exists t', add hash t k v = Done t'
                        /\ represents t' (insT 0 (keyToPath k) k v T)
           end
  | _ => exists t', add hash t k v = Done t' /\ represents t' (insT 0 (keyToPath k) k v T)
  end.
Proof.
  intros Hrep Hk Hv. pose proof Hrep as (Hb & Hroot & Hst & Hids & Hwf).
  pose proof (keyInRange_good_path _ _ Hk) as Hp.
  unfold add. rewrite keyInRange_checkParameterType by (by rewrite Hb).
  rewrite Hv. cbn [negb].
  erewrite retrieveEntry_represents by done.
  pose proof (plug_locate 0 (keyToPath k) T) as HT.
  pose proof (locate_slot 0 (keyToPath k) T) as Hslot.
  pose proof (insZ_insT 0 (keyToPath k) k v T) as Hins.
  pose proof (wf_insT big 0 k v T Hk Hwf) as Hwf'.
  pose proof (fun mk mv => locate_agree big 0 (keyToPath k) T mk mv) as Hagree.
  destruct (locate 0 (keyToPath k) T) as [ss slot] eqn:El. cbn [fst snd] in *.
  unfold zeroNode, entryMark. rewrite Hb. fold (zeroOf big) (markOf big).
  rewrite <- HT in Hst, Hwf.
  destruct (stored_plug hash big 0 _ _ _ _ Hst) as [Hstslot Hstsibs].
  destruct slot as [|mk mv|l r]; [| |by destruct (Hslot l r)].
  - unfold response. cbn [entry matchingEntry siblings].
    change ([k] !! 1%nat) with (@None elem). cbv beta iota zeta.
    rewrite deleteOldNodes_guard.
    apply finish_spec.
    + by apply deleteOldNodes_ids.
    + intros s Hs. change (zeroOf big) with (hashT Empty).
      apply deleteOldNodes_keeps_sibling; auto.
    + exact Hins.
    + apply Hwf'. intros mk mv [=].
  - unfold response. destruct (decide (mk = k)) as [->|Hne].
    + done.
    + cbn [entry matchingEntry siblings].
      change ([k] !! 1%nat) with (@None elem). cbv beta iota zeta.
      change ([mk; mv; markOf big] !! 0%nat) with (Some mk). cbv beta iota zeta.
      rewrite deleteOldNodes_guard, length_fmap.
      destruct (matchingRun _ _) as [n|] eqn:Erun; [|by eexists].
      pose proof (matchingRun_commonPrefix _ _ _ Erun) as En.
      replace ((hashT <$> ss) ++ replicate n (zeroOf big) ++ [hash [mk; mv; markOf big]])
        with (hashT <$> (ss ++ replicate n Empty ++ [Leaf mk mv]))
        by (by rewrite !fmap_app, fmap_replicate).
      change (hash [mk; mv; markOf big]) with (hashT (Leaf mk mv)).
      apply finish_spec.
      * by apply deleteOldNodes_ids.
      * intros s [Hs|[Hs|Hs]%elem_of_app]%elem_of_app.
        -- apply deleteOldNodes_keeps_sibling; auto.
        -- apply elem_of_replicate in Hs as [-> _]. done.
        -- apply list_elem_of_singleton in Hs as ->.
           by apply deleteOldNodes_keeps_leaf.
      * rewrite <- Hins. unfold insZ. simpl. by rewrite En.
      * apply Hwf'. intros mk' mv' [= <- <-].
        assert (Hmk : keyInRange big mk = true).
        { eapply wf_keys_inrange; [exact Hwf|]. unfold keys. rewrite entries_plug.
          simpl. apply list_elem_of_here. }
        destruct (matchingRun_diff (keyToPath mk) (keyToPath k) (length ss) n)
          as (i & Hi & Hdiff); [by eapply keyInRange_good_path|done| |done|].
        { pose proof (locate_length big 0 (keyToPath k) (plug 0 (keyToPath k) ss (Leaf mk mv)) Hwf) as Hl.
          rewrite HT, El in Hl. simpl in Hl. lia. }
        exists i. split; [lia|done].
Qed.

Lemma update_spec t T k v :
  represents t T -> keyInRange big k = true -> checkParameterType t v = true ->
  match (locate 0 (keyToPath k) T).2 with
  | Leaf mk mv =>
      if decide (mk = k)
      then exists t', update hash t k v = Done t'
                      /\ represents t' (updT 0 (keyToPath k) k v T)
      else update hash t k v = Thrown KeyNotFound t
  | _ => update hash t k v = Thrown KeyNotFound t
  end.
Proof.
  intros Hrep Hk Hv. pose proof Hrep as (Hb & Hroot & Hst & Hids & Hwf).
  pose proof (keyInRange_good_path _ _ Hk) as Hp.
  unfold update. rewrite keyInRange_checkParameterType by (by rewrite Hb).
  rewrite Hv. cbn [negb].
  erewrite retrieveEntry_represents by done.
  pose proof (plug_locate 0 (keyToPath k) T) as HT.
  pose proof (locate_slot 0 (keyToPath k) T) as Hslot.
  pose proof (fun v0 => plug_updT 0 (keyToPath k) k v v0 T) as Hupd.
  pose proof (wf_updT big 0 (keyToPath k) k v T Hwf) as Hwf'.
  destruct (locate 0 (keyToPath k) T) as [ss slot] eqn:El. cbn [fst snd] in *.
  unfold zeroNode, entryMark. rewrite Hb. fold (zeroOf big) (markOf big).
  rewrite <- HT in Hst, Hwf.
  destruct (stored_plug hash big 0 _ _ _ _ Hst) as [Hstslot Hstsibs].
  destruct slot as [|mk mv|l r]; [done| |by destruct (Hslot l r)].
  unfold response. destruct (decide (mk = k)) as [->|Hne]; [|done].
  cbn [entry matchingEntry siblings].
  change ([k; mv; markOf big] !! 1%nat) with (Some mv). cbv beta iota zeta.
  change (hash [k; mv; markOf big]) with (hashT (Leaf k mv)).
  apply finish_spec.
  - by apply deleteOldNodes_ids, ids_ok_delete.
  - intros s Hs. apply deleteOldNodes_keeps_sibling; auto.
    eapply delete_keeps_sibling; eauto.
  - by eapply Hupd.
  - done.
Qed.

Lemma delete_spec t T k :
  represents t T -> keyInRange big k = true ->
  match (locate 0 (keyToPath k) T).2 with
  | Leaf mk mv =>
      if decide (mk = k)
      then exists t', SMT_delete hash t k = Done t'
                      /\ represents t' (delT 0 (keyToPath k) k T)
      else SMT_delete hash t k = Thrown KeyNotFound t
  | _ => SMT_delete hash t k = Thrown KeyNotFound t
  end.
Proof.
  intros Hrep Hk. pose proof Hrep as (Hb & Hroot & Hst & Hids & Hwf).
  pose proof (keyInRange_good_path _ _ Hk) as Hp.
  unfold SMT_delete. rewrite keyInRange_checkParameterType by (by rewrite Hb).
  cbn [negb].
  erewrite retrieveEntry_represents by done.
  pose proof (plug_locate 0 (keyToPath k) T) as HT.
  pose proof (locate_slot 0 (keyToPath k) T) as Hslot.
  pose proof (fun v0 => delZ_delT 0 (keyToPath k) k v0 T) as Hdel.
  pose proof (wf_delT big 0 k T Hp Hwf) as Hwf'.
  destruct (locate 0 (keyToPath k) T) as [ss slot] eqn:El. cbn [fst snd] in *.
  unfold zeroNode, entryMark. rewrite Hb. fold (zeroOf big) (markOf big).
  rewrite <- HT in Hst, Hwf.
  destruct (stored_plug hash big 0 _ _ _ _ Hst) as [Hstslot Hstsibs].
  destruct slot as [|mk mv|l r]; [done| |by destruct (Hslot l r)].
  unfold response. destruct (decide (mk = k)) as [->|Hne]; [|done].
  cbn [entry matchingEntry siblings].
  change ([k; mv; markOf big] !! 1%nat) with (Some mv). cbv beta iota zeta.
  change (hash [k; mv; markOf big]) with (hashT (Leaf k mv)).
  specialize (Hdel mv eq_refl). rewrite <- Hdel in *. clear Hdel.
  set (m1 := delete (hashT (Leaf k mv)) (nodes t)).
  set (m2 := deleteOldNodes hash m1 (hashT (Leaf k mv)) (keyToPath k) (hashT <$> ss)).
  assert (Hids2 : ids_ok hash m2) by (by apply deleteOldNodes_ids, ids_ok_delete).
  assert (Hst2 : forall s, s ∈ ss -> stored m2 s).
  { intros s Hs. apply deleteOldNodes_keeps_sibling; auto.
    eapply delete_keeps_sibling; eauto. }
  rewrite fmap_last. unfold delZ in *.
  destruct (last ss) as [L|] eqn:EL; simpl.
  - apply last_Some in EL as [rs ->].
    assert (HL : stored m2 L) by (apply Hst2, elem_of_app; right; apply list_elem_of_here).
    rewrite (isLeaf_stored hash big hash_nonzero m2 L Hids2 HL).
    rewrite removelast_last in Hwf'.
    destruct (is_leafT L) eqn:Eleaf; simpl.
    + rewrite removelast_fmap, removelast_last.
      unfold getIndexOfLastNonZeroElement. rewrite length_fmap.
      rewrite (getIndex_lastNonEmpty hash big hash_nonzero) by lia.
      unfold addNewNodes.
      replace (Z.to_nat (Z.of_nat (lastNonEmpty_from (length rs) rs) - 1 + 1))
        with (lastNonEmpty_from (length rs) rs) by lia.
      destruct (addNewNodes_from_plug hash big hash_inj
                  (lastNonEmpty_from (length rs) rs) m2 (keyToPath k) rs L)
        as (m3 & E & Hst3 & Hid3 & _); [apply lastNonEmpty_from_le|done| |done|].
      { intros s Hs%elem_of_take. apply Hst2, elem_of_app. left.
        destruct Hs as (i & Hs & _). by eapply list_elem_of_lookup_2. }
      rewrite E. eexists. split; [reflexivity|]. by repeat split.
    + change (zeroOf big) with (hashT Empty).
      destruct (addNewNodes_plug hash big hash_inj m2 (keyToPath k) (rs ++ [L]) Empty)
        as (m3 & E & Hst3 & Hid3); [done|done|done|].
      rewrite E. eexists. split; [reflexivity|]. by repeat split.
  - eexists. split; [reflexivity|]. repeat split; try done.
    by apply ids_ok_delete.
Qed.

Lemma retrieveEntry_loop_found t k path T acc r x :
  bigNumbers t = big -> stored (nodes t) T ->
  retrieveEntry_loop t k path (hashT T) acc = Ok r -> entry r !! 1%nat = Some x ->
  (k, x) ∈ entries T.
Proof.
  intros Hb. assert (Hz : zeroNode t = zeroOf big) by (unfold zeroNode; by rewrite Hb).
  revert path acc. induction T as [|k' v'|l IHl r' IHr]; intros path acc Hst;
    rewrite retrieveEntry_loop_unfold, Hz.
  - simpl. rewrite decide_True by done. by intros [= <-].
  - simpl in Hst. change (hashT (Leaf k' v')) with (hash [k'; v'; markOf big]).
    rewrite decide_False by (by apply hash_not_zero).
    rewrite Hst. simpl. rewrite markOf_truthy.
    destruct (decide (k' = k)) as [->|]; intros [= <-]; simpl; [|done].
    intros [= <-]. apply list_elem_of_here.
  - destruct Hst as (Hn & Hsl & Hsr).
    rewrite decide_False by (by apply hash_not_zero).
    rewrite Hn. simpl has_mark. cbv iota. simpl child0. simpl child1.
    destruct path as [|[| |] path]; try done; intros Hr Hx; simpl; apply elem_of_app.
    + left. by eapply IHl.
    + right. by eapply IHr.
Qed.

Lemma retrieveEntry_found t T k r x :
  represents t T -> retrieveEntry t k = Ok r -> entry r !! 1%nat = Some x ->
  (k, x) ∈ entries T.
Proof.
  intros (Hb & Hroot & Hst & _). unfold retrieveEntry. rewrite Hroot.
  by apply retrieveEntry_loop_found.
Qed.

End Mutations.

(** * Reachable trees *)

Lemma list_diff (p q : list pathbit) :
  length p = length q -> p <> q ->
  exists i, (i < length p)%nat /\ p !! i <> q !! i.
Proof.
  revert q. induction p as [|a p IH]; intros [|b q] Lq Hne; simpl in *; try lia.
  - by destruct Hne.
  - destruct (decide (a = b)) as [->|Hab].
    + destruct (IH q) as (i & Hi & Hd); [lia|congruence|].
      exists (S i). split; [lia|done].
    + exists 0%nat. split; [lia|]. simpl. congruence.
Qed.

Lemma good_path_diff p q :
  good_path p -> good_path q -> p <> q ->
  exists i, (i < 256)%nat /\ p !! i <> q !! i.
Proof.
  intros [Lp _] [Lq _] Hne. rewrite <- Lp. apply list_diff; congruence.
Qed.

Lemma checkParameterType_big t t' x :
  bigNumbers t = bigNumbers t' -> checkParameterType t x = checkParameterType t' x.
Proof. unfold checkParameterType. by intros ->. Qed.

Section Reachability.

Variable hash : list elem -> elem.
Variable big : bool.
Hypothesis hash_inj : forall a b, hash a = hash b -> a = b.
Hypothesis hash_nonzero : forall l, numberNonZero (hash l) = true.

Local Abbreviation hashT := (hashT hash big).
Local Abbreviation wf := (wf big).
Local Abbreviation represents := (represents hash big).
Local Abbreviation reachable := (reachable hash big).

Lemma represents_empty t : new_SMT hash big = Ok t -> represents t Empty.
Proof.
  unfold new_SMT. intros H.
  assert (t = mkSMT big ∅ (zeroOf big)) as ->.
  { destruct big; [destruct (hash _)|destruct (checkHex _)]; by inversion H. }
  repeat split; done.
Qed.

Lemma add_Done t T k v t' :
  represents t T -> keyInRange big k = true -> add hash t k v = Done t' ->
  represents t' (insT 0 (keyToPath k) k v T) /\ k ∉ keys T.
Proof.
  intros Hrep Hk Hadd. pose proof Hrep as (Hb & _ & _ & _ & Hwf).
  assert (Hv : checkParameterType t v = true).
  { unfold add in Hadd. rewrite keyInRange_checkParameterType in Hadd by (by rewrite Hb).
    by destruct (checkParameterType t v). }
  pose proof (add_spec hash big hash_inj hash_nonzero t T k v Hrep Hk Hv) as Hs.
  split.
  - destruct ((locate 0 (keyToPath k) T).2) as [|mk mv|].
    + destruct Hs as (t'' & E & Hr). congruence.
    + destruct (decide (mk = k)); [congruence|].
      destruct (matchingRun _ _); [|destruct Hs as [t'' E]; congruence].
      destruct Hs as (t'' & E & Hr). congruence.
    + destruct Hs as (t'' & E & Hr). congruence.
  - intros (e & Ek & He)%list_elem_of_fmap. destruct e as [k' v0]. simpl in Ek. subst k'.
    rewrite (locate_found big 0 T k v0 Hwf He) in Hs.
    rewrite decide_True in Hs by done. congruence.
Qed.

Lemma add_total t T k v :
  represents t T -> keyInRange big k = true -> checkParameterType t v = true ->
  (forall x, x ∈ keys T -> keyToPath x <> keyToPath k) ->
  exists t', add hash t k v = Done t' /\ represents t' (insT 0 (keyToPath k) k v T).
Proof.
  intros Hrep Hk Hv Hfresh. pose proof Hrep as (Hb & _ & _ & _ & Hwf).
  pose proof (keyInRange_good_path _ _ Hk) as Hp.
  pose proof (add_spec hash big hash_inj hash_nonzero t T k v Hrep Hk Hv) as Hs.
  pose proof (fun mk mv => locate_agree big 0 (keyToPath k) T mk mv) as Hagree.
  pose proof (fun mk mv => locate_entry 0 (keyToPath k) T mk mv) as Hentry.
  pose proof (locate_length big 0 (keyToPath k) T Hwf) as Hlen.
  destruct (locate 0 (keyToPath k) T) as [ss [|mk mv|]]; simpl in *; [done| |done].
  specialize (Hentry mk mv eq_refl). apply entries_keys in Hentry. simpl in Hentry.
  pose proof (Hfresh mk Hentry) as Hne.
  pose proof (wf_keys_good big 0 T mk Hwf Hentry) as Hpm.
  destruct (decide (mk = k)) as [->|_]; [done|].
  destruct (good_path_diff _ _ Hpm Hp Hne) as (i & Hi & Hd).
  rewrite (matchingRun_good (keyToPath mk) (keyToPath k) (length ss) i) in Hs; try done.
  split; [|done].
  destruct (decide (length ss <= i)%nat); [done|]. exfalso. apply Hd.
  apply (Hagree mk mv i Hp Hwf eq_refl). lia.
Qed.

Lemma update_Done t T k v t' :
  represents t T -> update hash t k v = Done t' ->
  k ∈ keys T /\ represents t' (updT 0 (keyToPath k) k v T).
Proof.
  intros Hrep Hupd. pose proof Hrep as (Hb & _ & _ & _ & Hwf).
  assert (Hin : k ∈ keys T /\ checkParameterType t v = true) .
  { unfold update in Hupd.
    destruct (checkParameterType t k); [|done].
    destruct (checkParameterType t v); [|done]. simpl in Hupd.
    destruct (retrieveEntry t k) as [r|] eqn:Er; [|done].
    destruct (entry r !! 1%nat) as [x|] eqn:Ex; [|done].
    split; [|done].
    apply (entries_keys _ (k, x)).
    eapply retrieveEntry_found; eauto. }
  destruct Hin as [Hin Hv]. split; [done|].
  pose proof (wf_keys_inrange big 0 T k Hwf Hin) as Hk.
  pose proof (update_spec hash big hash_inj hash_nonzero t T k v Hrep Hk Hv) as Hs.
  apply list_elem_of_fmap in Hin as ([k' v0] & Ek & He). simpl in Ek. subst k'.
  rewrite (locate_found big 0 T k v0 Hwf He), decide_True in Hs by done.
  destruct Hs as (t'' & E & Hr). congruence.
Qed.

Lemma delete_total t T k v :
  represents t T -> (k, v) ∈ entries T ->
  exists t', SMT_delete hash t k = Done t' /\ represents t' (delT 0 (keyToPath k) k T).
Proof.
  intros Hrep He. pose proof Hrep as (Hb & _ & _ & _ & Hwf).
  pose proof (wf_keys_inrange big 0 T k Hwf (entries_keys _ _ He)) as Hk.
  pose proof (delete_spec hash big hash_inj hash_nonzero t T k Hrep Hk) as Hs.
  by rewrite (locate_found big 0 T k v Hwf He), decide_True in Hs by done.
Qed.

Lemma delete_Done t T k t' :
  represents t T -> SMT_delete hash t k = Done t' ->
  k ∈ keys T /\ represents t' (delT 0 (keyToPath k) k T).
Proof.
  intros Hrep Hdel. pose proof Hrep as (Hb & _ & _ & _ & Hwf).
  assert (Hin : k ∈ keys T).
  { unfold SMT_delete in Hdel.
    destruct (checkParameterType t k); [|done]. simpl in Hdel.
    destruct (retrieveEntry t k) as [r|] eqn:Er; [|done].
    destruct (entry r !! 1%nat) as [x|] eqn:Ex; [|done].
    apply (entries_keys _ (k, x)).
    eapply retrieveEntry_found; eauto. }
  split; [done|].
  apply list_elem_of_fmap in Hin as ([k' v0] & Ek & He). simpl in Ek. subst k'.
  destruct (delete_total t T k v0 Hrep He) as (t'' & E & Hr). congruence.
Qed.

(** Every reachable tree object holds a well-formed tree whose entries are
    those the calls have left. *)
Lemma reachable_represents t E :
  reachable t E ->
  exists T, represents t T /\ forall e, e ∈ entries T <-> e ∈ E.
Proof.
  induction 1 as [t Hnew|t E k v t' Hreach IH Hk Hadd|t E k v t' Hreach IH Hupd
                  |t E k t' Hreach IH Hdel].
  - exists Empty. split; [by apply represents_empty|done].
  - destruct IH as (T & Hrep & HE).
    destruct (add_Done t T k v t' Hrep Hk Hadd) as [Hrep' _].
    eexists. split; [exact Hrep'|]. intros e.
    rewrite entries_insT, !elem_of_cons, HE. done.
  - destruct IH as (T & Hrep & HE).
    destruct (update_Done t T k v t' Hrep Hupd) as [Hin Hrep'].
    eexists. split; [exact Hrep'|]. intros e.
    destruct Hrep as (_ & _ & _ & _ & Hwf).
    rewrite (entries_updT big 0 k v T e Hwf Hin), elem_of_cons, list_elem_of_filter, HE.
    tauto.
  - destruct IH as (T & Hrep & HE).
    destruct (delete_Done t T k t' Hrep Hdel) as [Hin Hrep'].
    eexists. split; [exact Hrep'|]. intros e.
    destruct Hrep as (_ & _ & _ & _ & Hwf).
    rewrite (entries_delT big 0 k T) by (try done; by eapply wf_keys_good).
    rewrite !list_elem_of_filter, HE. done.
Qed.

End Reachability.

(** * Lookups and proofs on a represented tree *)

Lemma firstCommon_from_le a b :
  (firstCommon_from a b <= length a)%nat /\ (firstCommon_from a b <= length b)%nat.
Proof.
  revert b. induction a as [|x a IH]; intros [|y b]; simpl; try lia.
  destruct (pathbit_seq x y); simpl; [|lia]. destruct (IH b). lia.
Qed.

Lemma getFirstCommonElements_length p q :
  length (getFirstCommonElements p q) = commonPrefix p q.
Proof.
  unfold getFirstCommonElements, commonPrefix. rewrite length_take.
  destruct (firstCommon_from_le p q). destruct (length p <? length q)%nat; lia.
Qed.

Lemma sharedBits_commonPrefix p q : sharedBits p q = commonPrefix p q.
Proof.
  unfold commonPrefix. revert q.
  induction p as [|a p IH]; intros [|b q]; simpl; try done; try by destruct a.
  destruct a, b; simpl; try done; by rewrite IH.
Qed.

Lemma commonPrefix_agree p q n :
  (forall i, (i < n)%nat -> p !! i = q !! i /\ (p !! i = Some B0 \/ p !! i = Some B1)) ->
  (n <= commonPrefix p q)%nat.
Proof.
  revert p q. induction n as [|n IH]; intros p q H; [lia|].
  destruct (H 0%nat) as [E Hb]; [lia|].
  destruct p as [|a p]; [by destruct Hb|]. destruct q as [|b q]; [done|].
  simpl in E, Hb. injection E as <-.
  unfold commonPrefix. simpl. rewrite pathbit_seq_refl by (destruct Hb; left + right; congruence).
  apply le_n_S, IH. intros i Hi. apply (H (S i)). lia.
Qed.

Lemma plug_path_ext d p q sibs slot :
  (forall i, (d <= i < d + length sibs)%nat -> p !! i = q !! i) ->
  plug d p sibs slot = plug d q sibs slot.
Proof.
  revert d. induction sibs as [|s sibs IH]; intros d H; simpl in *; [done|].
  rewrite (H d) by lia. rewrite IH; [done|]. intros i Hi. apply H. lia.
Qed.

Lemma calculateRoot_from_fold hash n node path sibs :
  (n <= length sibs)%nat ->
  calculateRoot_from hash n node path sibs
  = foldr (fun '(i, s) acc =>
             hash (match path !! i with
                   | Some B1 => [s; acc]
                   | _ => [acc; s]
                   end))
          node (zip (seq 0 n) (take n sibs)).
Proof.
  revert node. induction n as [|i IH]; intros node Hn; [done|].
  cbn [calculateRoot_from].
  destruct (sibs !! i) as [s|] eqn:Es; [|apply lookup_ge_None in Es; lia].
  rewrite IH by lia. rewrite seq_S, (take_S_r _ _ _ Es). simpl.
  rewrite zip_with_app; [|rewrite length_seq, length_take; lia].
  rewrite foldr_app. simpl. f_equal. unfold level.
  by destruct (path !! i) as [[| |]|].
Qed.

Lemma calculateRoot_foldSiblings hash node path sibs :
  calculateRoot hash node path sibs = foldSiblings hash node path sibs.
Proof.
  unfold calculateRoot, foldSiblings. rewrite calculateRoot_from_fold by lia.
  by rewrite firstn_all.
Qed.

Lemma hashW_inj a b : hashW a = hashW b -> a = b.
Proof. unfold hashW. intros [= E]. by apply (inj encode). Qed.

Lemma hashW_nonzero l : numberNonZero (hashW l) = true.
Proof. done. Qed.

Section Lookups.

Variable hash : list elem -> elem.
Variable big : bool.
Hypothesis hash_inj : forall a b, hash a = hash b -> a = b.
Hypothesis hash_nonzero : forall l, numberNonZero (hash l) = true.

Local Abbreviation hashT := (hashT hash big).
Local Abbreviation wf := (wf big).
Local Abbreviation represents := (represents hash big).
Local Abbreviation reachable := (reachable hash big).

Lemma get_present t T k v :
  represents t T -> (k, v) ∈ entries T -> get t k = Ok (Some v).
Proof.
  intros Hrep He. pose proof Hrep as (Hb & _ & _ & _ & Hwf).
  pose proof (wf_keys_inrange big 0 T k Hwf (entries_keys _ _ He)) as Hk.
  unfold get. rewrite keyInRange_checkParameterType by (by rewrite Hb). simpl.
  erewrite retrieveEntry_represents; [|done..|by eapply keyInRange_good_path].
  rewrite (locate_found big 0 T k v Hwf He). unfold response.
  by rewrite decide_True.
Qed.

Lemma get_absent t T k :
  represents t T -> keyInRange big k = true -> k ∉ keys T -> get t k = Ok None.
Proof.
  intros Hrep Hk Hnot. pose proof Hrep as (Hb & _ & _ & _ & Hwf).
  unfold get. rewrite keyInRange_checkParameterType by (by rewrite Hb). simpl.
  erewrite retrieveEntry_represents; [|done..|by eapply keyInRange_good_path].
  pose proof (fun mk mv => locate_entry 0 (keyToPath k) T mk mv) as Hentry.
  unfold response. destruct (locate 0 (keyToPath k) T) as [ss [|mk mv|]]; simpl in *; try done.
  destruct (decide (mk = k)) as [->|]; [|done].
  exfalso. apply Hnot. apply (entries_keys _ (k, mv)). by apply Hentry.
Qed.

(** The proof [createProof] returns for a stored key. *)
Lemma createProof_present t T k v :
  represents t T -> (k, v) ∈ entries T ->
  exists p, createProof t k = Ok p /\ membership p = truthy v
            /\ verifyProof hash t p = Ok true.
Proof.
  intros Hrep He. pose proof Hrep as (Hb & Hroot & _ & _ & Hwf).
  pose proof (wf_keys_inrange big 0 T k Hwf (entries_keys _ _ He)) as Hk.
  unfold createProof. rewrite keyInRange_checkParameterType by (by rewrite Hb). simpl.
  erewrite retrieveEntry_represents; [|done..|by eapply keyInRange_good_path].
  pose proof (plug_locate 0 (keyToPath k) T) as HT.
  rewrite (locate_found big 0 T k v Hwf He) in *. unfold response.
  rewrite decide_True by done. simpl entry. simpl matchingEntry. simpl siblings.
  eexists. split; [reflexivity|]. split; [done|].
  unfold verifyProof. simpl.
  change (hash [k; v; markOf big]) with (hashT (Leaf k v)).
  rewrite calculateRoot_plug, HT, Hroot. by rewrite bool_decide_eq_true_2.
Qed.

(** The proof [createProof] returns for a key of the domain that is not
    stored. *)
Lemma createProof_absent t T k :
  represents t T -> keyInRange big k = true -> k ∉ keys T ->
  exists p, createProof t k = Ok p /\ membership p = false
            /\ verifyProof hash t p = Ok true
            /\ forall me mkey, proof_matchingEntry p = Some me -> me !! 0%nat = Some mkey ->
                 (length (proof_siblings p) <= commonPrefix (keyToPath k) (keyToPath mkey))%nat.
Proof.
  intros Hrep Hk Hnot. pose proof Hrep as (Hb & Hroot & _ & _ & Hwf).
  pose proof (keyInRange_good_path _ _ Hk) as Hp.
  unfold createProof. rewrite keyInRange_checkParameterType by (by rewrite Hb). simpl.
  erewrite retrieveEntry_represents by done.
  pose proof (plug_locate 0 (keyToPath k) T) as HT.
  pose proof (locate_slot 0 (keyToPath k) T) as Hslot.
  pose proof (fun mk mv => locate_entry 0 (keyToPath k) T mk mv) as Hentry.
  pose proof (fun mk mv i => locate_agree big 0 (keyToPath k) T mk mv i Hp Hwf) as Hagree.
  pose proof (locate_length big 0 (keyToPath k) T Hwf) as Hlen.
  unfold response.
  destruct (locate 0 (keyToPath k) T) as [ss [|mk mv|l r]]; simpl in *;
    [| |by destruct (Hslot l r)].
  - eexists. split; [reflexivity|]. split; [done|]. split; [|done].
    unfold verifyProof. simpl. unfold zeroNode. rewrite Hb.
    change (if big then Big 0 else Str "0") with (hashT Empty).
    rewrite calculateRoot_plug, HT, Hroot. by rewrite bool_decide_eq_true_2.
  - destruct (decide (mk = k)) as [->|Hne].
    { exfalso. apply Hnot. apply (entries_keys _ (k, mv)). by apply Hentry. }
    assert (Hcommon : (length ss <= commonPrefix (keyToPath k) (keyToPath mk))%nat).
    { apply commonPrefix_agree. intros i Hi. split.
      - symmetry. apply (Hagree mk mv i eq_refl). lia.
      - destruct Hp as [_ Hp]. apply Hp. lia. }
    eexists. split; [reflexivity|]. split; [done|]. simpl. split.
    + unfold verifyProof. simpl.
      change (hash [mk; mv; markOf big]) with (hashT (Leaf mk mv)).
      rewrite calculateRoot_plug.
      rewrite (plug_path_ext 0 (keyToPath mk) (keyToPath k)), HT, Hroot.
      * rewrite decide_True by done. f_equal.
        rewrite getFirstCommonElements_length, length_fmap. by apply Nat.leb_le.
      * intros i Hi. apply (Hagree mk mv i eq_refl). lia.
    + intros me mkey [= <-] [= <-]. by rewrite length_fmap.
Qed.

(** However the key is formed, the walk passes at most as many siblings as
    the tree is deep. *)
Lemma retrieveEntry_loop_depth t k path d T acc r :
  bigNumbers t = big -> stored hash big (nodes t) T -> wf d T ->
  retrieveEntry_loop t k path (hashT T) acc = Ok r ->
  (length (siblings r) <= length acc + (256 - d))%nat.
Proof.
  intros Hb. assert (Hz : zeroNode t = zeroOf big) by (unfold zeroNode; by rewrite Hb).
  revert path d acc. induction T as [|k' v'|l IHl r' IHr]; intros path d acc Hst Hwf;
    rewrite retrieveEntry_loop_unfold, Hz.
  - simpl. rewrite decide_True by done. intros [= <-]. simpl. lia.
  - simpl in Hst. change (hashT (Leaf k' v')) with (hash [k'; v'; markOf big]).
    rewrite decide_False by (by eapply hash_not_zero).
    rewrite Hst. simpl. rewrite markOf_truthy.
    destruct (decide (k' = k)); intros [= <-]; simpl; lia.
  - destruct Hst as (Hn & Hsl & Hsr).
    rewrite decide_False by (by eapply hash_not_zero).
    rewrite Hn. simpl has_mark. cbv iota. simpl child0. simpl child1.
    pose proof (wf_node_depth big _ _ _ Hwf) as Hd.
    destruct Hwf as (Hwl & Hwr & _).
    destruct path as [|[| |] path]; try done; intros Hr.
    + apply (IHl _ (S d)) in Hr; [|done..]. rewrite length_app in Hr. simpl in Hr. lia.
    + apply (IHr _ (S d)) in Hr; [|done..]. rewrite length_app in Hr. simpl in Hr. lia.
Qed.

Lemma retrieveEntry_depth t T k r :
  represents t T -> retrieveEntry t k = Ok r -> (length (siblings r) <= 256)%nat.
Proof.
  intros (Hb & Hroot & Hst & _ & Hwf). unfold retrieveEntry. rewrite Hroot.
  intros Hr. eapply retrieveEntry_loop_depth in Hr; [|done..]. simpl in Hr. lia.
Qed.

(** The walk of [retrieveEntry] on a represented tree. *)
Lemma retrieveEntry_bounded t T k :
  represents t T -> keyInRange big k = true ->
  exists r, retrieveEntry t k = Ok r /\ (length (siblings r) <= 256)%nat.
Proof.
  intros Hrep Hk. pose proof Hrep as (_ & _ & _ & _ & Hwf).
  erewrite retrieveEntry_represents; [|done..|by eapply keyInRange_good_path].
  eexists. split; [reflexivity|].
  pose proof (locate_length big 0 (keyToPath k) T Hwf) as Hlen.
  unfold response. destruct (locate 0 (keyToPath k) T) as [ss [|mk mv|]]; simpl in *;
    try destruct (decide (mk = k)); simpl; rewrite length_fmap; lia.
Qed.

End Lookups.

(** * Properties of the public operations *)

Lemma NoDup_fmap_weaken {A B C} (f : A -> B) (g : A -> C) (l : list A) :
  (forall x y, x ∈ l -> y ∈ l -> g x = g y -> f x = f y) ->
  NoDup (f <$> l) -> NoDup (g <$> l).
Proof.
  induction l as [|a l IH]; intros Hfg; simpl; [constructor|].
  rewrite !NoDup_cons. intros [Hnotin Hnd]. split.
  - intros (y & Ey & Hy)%list_elem_of_fmap. apply Hnotin.
    apply list_elem_of_fmap. exists y. split; [|done].
    apply Hfg; [apply list_elem_of_here | by apply list_elem_of_further | done].
  - apply IH; [|done]. intros x y Hx Hy. apply Hfg; by apply list_elem_of_further.
Qed.

Section Claims.

Variable hash : list elem -> elem.
Variable big : bool.
Hypothesis hash_inj : forall a b, hash a = hash b -> a = b.
Hypothesis hash_nonzero : forall l, numberNonZero (hash l) = true.

Local Abbreviation represents := (represents hash big).
Local Abbreviation reachable := (reachable hash big).

Lemma addAll_cons t k v l :
  addAll hash t ((k, v) :: l)
  = match add hash t k v with
    | Done t' => addAll hash t' l
    | o => o
    end.
Proof.
  unfold addAll. simpl. destruct (add hash t k v) as [t'|e t']; [done|].
  induction l; simpl; auto.
Qed.

Lemma addAll_represents l : forall t T,
  represents t T ->
  Forall (fun kv => keyInRange big kv.1 = true /\ checkParameterType t kv.2 = true) l ->
  NoDup (keyToPath <$> l.*1) ->
  (forall kv x, kv ∈ l -> x ∈ keys T -> keyToPath x <> keyToPath kv.1) ->
  exists t' T', addAll hash t l = Done t' /\ represents t' T'
                /\ forall e, e ∈ entries T' <-> e ∈ l \/ e ∈ entries T.
Proof.
  induction l as [|[k v] l IH]; intros t T Hrep Hall Hnd Hfresh.
  - exists t, T. split; [done|]. split; [done|]. intros e. rewrite elem_of_nil. tauto.
  - apply Forall_cons in Hall as [[Hk Hv] Hall]. simpl in Hk, Hv.
    rewrite !fmap_cons in Hnd. apply NoDup_cons in Hnd as [Hnotin Hnd]. simpl in Hnotin.
    destruct (add_total hash big hash_inj hash_nonzero t T k v Hrep Hk Hv)
      as (t1 & Hadd & Hrep1).
    { intros x Hx. apply (Hfresh (k, v)); [apply list_elem_of_here | done]. }
    destruct (IH t1 _ Hrep1) as (t' & T' & Hall' & Hrep' & HE); [|done| |].
    + eapply Forall_impl; [exact Hall|]. intros kv [H1 H2]. split; [done|].
      rewrite <- H2. apply checkParameterType_big.
      destruct Hrep as [-> _], Hrep1 as [-> _]. done.
    + intros kv x Hkv Hx. unfold keys in Hx. rewrite entries_insT in Hx.
      simpl in Hx. apply elem_of_cons in Hx as [->|Hx].
      * intros E. apply Hnotin. rewrite E. apply list_elem_of_fmap_2.
        by apply list_elem_of_fmap_2.
      * apply Hfresh; [by apply list_elem_of_further | done].
    + exists t', T'. rewrite addAll_cons, Hadd. split; [done|]. split; [done|].
      intros e. rewrite HE, entries_insT, !elem_of_cons. tauto.
Qed.

(** C1: on a reachable tree, when [add(key, value)] returns for a key of the
    domain, [get(key)] on the resulting tree returns [value].  The hash
    function is injective and never numerically zero. *)
Theorem add_then_get t E key value t' :
  reachable t E -> keyInRange big key = true ->
  add hash t key value = Done t' ->
  get t' key = Ok (Some value).
Proof.
  intros Hreach Hk Hadd.
  destruct (reachable_represents hash big hash_inj hash_nonzero t E Hreach) as (T & Hrep & _).
  destruct (add_Done hash big hash_inj hash_nonzero t T key value t' Hrep Hk Hadd) as [Hrep' _].
  eapply get_present; [done|exact Hrep'|].
  rewrite entries_insT. apply list_elem_of_here.
Qed.

(** For a key the calls have left in the tree with value [v], [createProof]
    returns a proof that [verifyProof] accepts; its [membership] field is
    the truthiness of [v]. *)
Lemma createProof_added t E key value :
  reachable t E -> (key, value) ∈ E ->
  exists p, createProof t key = Ok p /\ membership p = truthy value
            /\ proof_root p = root t /\ verifyProof hash t p = Ok true.
Proof.
  intros Hreach He.
  destruct (reachable_represents hash big hash_inj hash_nonzero t E Hreach) as (T & Hrep & HE).
  apply HE in He.
  destruct (createProof_present hash big hash_nonzero t T key value Hrep He)
    as (p & Hp & Hm & Hv).
  exists p. repeat split; try done.
  unfold createProof in Hp. destruct (negb _); [done|].
  destruct (retrieveEntry t key); [|done]. by inversion Hp.
Qed.

(** C3: for a key of the domain that the calls have not left in a reachable
    tree, [createProof] returns a proof with [membership = false] that
    [verifyProof] accepts against the current root; when the proof carries a
    matching entry, it has at most as many siblings as the key's path and
    the matching key's path have leading elements in common.  The hash
    function is injective and never numerically zero. *)
Theorem createProof_never_added t E key :
  reachable t E -> keyInRange big key = true -> key ∉ E.*1 ->
  exists p, createProof t key = Ok p /\ membership p = false
            /\ proof_root p = root t
            /\ verifyProof hash t p = Ok true
            /\ forall me mkey, proof_matchingEntry p = Some me -> me !! 0%nat = Some mkey ->
                 (length (proof_siblings p)
                  <= sharedBits (keyToPath key) (keyToPath mkey))%nat.
Proof.
  intros Hreach Hk Hnot.
  destruct (reachable_represents hash big hash_inj hash_nonzero t E Hreach) as (T & Hrep & HE).
  destruct (createProof_absent hash big hash_nonzero t T key Hrep Hk)
    as (p & Hp & Hm & Hv & Hs).
  { intros (e & -> & He)%list_elem_of_fmap. apply Hnot. apply list_elem_of_fmap.
    exists e. split; [done|]. by apply HE. }
  exists p. repeat split; try done.
  - unfold createProof in Hp. destruct (negb _); [done|].
    destruct (retrieveEntry t key); [|done]. by inversion Hp.
  - intros me mkey Hme Hmk. rewrite sharedBits_commonPrefix. by eapply Hs.
Qed.

(** X26: on a reachable tree, for a key of the domain: when [add(k, v)]
    returns, [delete(k)] on the resulting tree returns and the root is again
    the root before the [add]; and [add(k, v)] does return when the value
    is of the configured mode and no key left in the tree denotes the same
    number.  The hash function is injective and never numerically zero. *)
Theorem add_delete_restores_root t E key value :
  reachable t E -> keyInRange big key = true ->
  (forall t1, add hash t key value = Done t1 ->
     exists t2, SMT_delete hash t1 key = Done t2 /\ root t2 = root t)
  /\ (checkParameterType t value = true ->
      (forall x, x ∈ E.*1 -> keyValue x <> keyValue key) ->
      exists t1, add hash t key value = Done t1).
Proof.
  intros Hreach Hk.
  destruct (reachable_represents hash big hash_inj hash_nonzero t E Hreach) as (T & Hrep & HE).
  split.
  - intros t1 Hadd.
    destruct (add_Done hash big hash_inj hash_nonzero t T key value t1 Hrep Hk Hadd)
      as [Hrep1 Hnot].
    destruct (delete_total hash big hash_inj hash_nonzero t1 _ key value Hrep1)
      as (t2 & Hdel & Hrep2).
    { rewrite entries_insT. apply list_elem_of_here. }
    exists t2. split; [done|].
    destruct Hrep as (_ & -> & _ & _ & Hwf). destruct Hrep2 as (_ & -> & _ & _ & Hwf2).
    f_equal. apply (wf_unique big 0); [done..|].
    intros e. destruct Hrep1 as (_ & _ & _ & _ & Hwf1).
    rewrite (entries_delT big 0) by (try done; by eapply keyInRange_good_path).
    rewrite list_elem_of_filter, entries_insT, elem_of_cons. split.
    + intros [Hne [->|He]]; done.
    + intros He. split; [|by right]. intros <-. apply Hnot. by apply entries_keys.
  - intros Hv Hfresh.
    destruct (add_total hash big hash_inj hash_nonzero t T key value Hrep Hk Hv)
      as (t1 & Hadd & _); [|by exists t1].
    intros x Hx Epath. pose proof Hrep as (_ & _ & _ & _ & Hwf).
    apply (Hfresh x).
    + apply list_elem_of_fmap in Hx as (e & -> & He). apply list_elem_of_fmap.
      exists e. split; [done|]. by apply HE.
    + eapply keyToPath_value; [|exact Hk|exact Epath]. by eapply wf_keys_inrange.
Qed.

(** X27: inserting pairs whose keys are in the domain and denote pairwise
    distinct numbers, with values of the configured mode, into a new tree
    returns for every order of the pairs, and two orders give the same
    root.  The hash function is injective and never numerically zero. *)
Theorem insertion_order_independent t0 l1 l2 :
  new_SMT hash big = Ok t0 -> l1 ≡ₚ l2 ->
  Forall (fun kv => keyInRange big kv.1 = true /\ checkParameterType t0 kv.2 = true) l1 ->
  NoDup (keyValue <$> l1.*1) ->
  exists t1 t2, addAll hash t0 l1 = Done t1 /\ addAll hash t0 l2 = Done t2
                /\ root t1 = root t2.
Proof.
  intros Hnew Hperm Hall Hnd.
  pose proof (represents_empty hash big t0 Hnew) as Hrep.
  assert (Hpaths : forall l, l ≡ₚ l1 -> NoDup (keyToPath <$> l.*1)).
  { intros l Hl. rewrite Hl. rewrite <- list_fmap_compose in Hnd.
    rewrite <- list_fmap_compose.
    eapply NoDup_fmap_weaken; [|exact Hnd]. intros x y Hx Hy E. simpl in *.
    rewrite Forall_forall in Hall.
    eapply keyToPath_value; [apply Hall, Hx | apply Hall, Hy | done]. }
  destruct (addAll_represents l1 t0 Empty Hrep Hall) as (t1 & T1 & H1 & Hrep1 & HE1).
  { by apply Hpaths. }
  { by intros kv x _ ?%elem_of_nil. }
  destruct (addAll_represents l2 t0 Empty Hrep) as (t2 & T2 & H2 & Hrep2 & HE2).
  { by rewrite <- Hperm. }
  { by apply Hpaths. }
  { by intros kv x _ ?%elem_of_nil. }
  exists t1, t2. split; [done|]. split; [done|].
  destruct Hrep1 as (_ & -> & _ & _ & Hwf1). destruct Hrep2 as (_ & -> & _ & _ & Hwf2).
  f_equal. apply (wf_unique big 0); [done..|].
  intros e. rewrite HE1, HE2, Hperm. done.
Qed.

(** C9: [retrieveEntry] is a total function (its loop is a recursion on the
    path).  On a reachable tree, whatever the key, a walk that returns has
    made at most 256 descents (each descent pushes one sibling), and for
    every key of the domain the walk returns. *)
Theorem retrieveEntry_terminates_bounded t E key :
  reachable t E ->
  (forall r, retrieveEntry t key = Ok r -> (length (siblings r) <= 256)%nat)
  /\ (keyInRange big key = true -> exists r, retrieveEntry t key = Ok r).
Proof.
  intros Hreach.
  destruct (reachable_represents hash big hash_inj hash_nonzero t E Hreach) as (T & Hrep & _).
  split.
  - intros r Hr. by eapply retrieveEntry_depth.
  - intros Hk. destruct (retrieveEntry_bounded hash big hash_nonzero t T key Hrep Hk)
      as (r & Hr & _). by exists r.
Qed.

End Claims.

Section ProofService.

Variable hash : list elem -> elem.

(** C4: for a proof carrying a matching entry (with the keys of both
    entries present), [verifyProof] returns, and returns [true] exactly when
    folding [hash(matchingEntry)] through the siblings along the matching
    entry's path gives the proof's root and the target key's path shares at
    least [siblings.length] leading elements with the matching key's path. *)
Theorem verifyProof_matching_entry t p me mkey key :
  proof_matchingEntry p = Some me -> me !! 0%nat = Some mkey ->
  proof_entry p !! 0%nat = Some key ->
  exists b, verifyProof hash t p = Ok b /\
    (b = true <->
     foldSiblings hash (hash me) (keyToPath mkey) (proof_siblings p) = proof_root p
     /\ (length (proof_siblings p) <= sharedBits (keyToPath key) (keyToPath mkey))%nat).
Proof.
  intros Hme Hmk Hk. unfold verifyProof. rewrite Hme, Hmk, calculateRoot_foldSiblings.
  rewrite sharedBits_commonPrefix.
  destruct (decide (foldSiblings hash (hash me) (keyToPath mkey) (proof_siblings p)
                    = proof_root p)) as [E|Hne].
  - rewrite Hk, getFirstCommonElements_length. eexists. split; [reflexivity|].
    rewrite Nat.leb_le. tauto.
  - exists false. split; [done|]. split; [done|]. by intros [? _].
Qed.

(** C10: [verifyProof] does not depend on the [membership] field of the
    proof. *)
Theorem verifyProof_ignores_membership t p b :
  verifyProof hash t (with_membership b p) = verifyProof hash t p.
Proof. reflexivity. Qed.

(** C7: when [add], [update] or [delete] throws [InvalidParameterType],
    [KeyAlreadyExists] or [KeyNotFound], the tree object (root and node
    table) at the throw is the one before the call. *)
Theorem failed_mutation_leaves_tree t key value e t' :
  add hash t key value = Thrown e t' \/ update hash t key value = Thrown e t'
  \/ SMT_delete hash t key = Thrown e t' ->
  e = InvalidParameterType \/ e = KeyAlreadyExists \/ e = KeyNotFound ->
  t' = t.
Proof.
  intros H He.
  assert (Hnt : e <> TypeError) by (destruct He as [->|[->| ->]]; done).
  destruct H as [H|[H|H]].
  - unfold add in H.
    destruct (checkParameterType t key); simpl in H; [|by inversion H].
    destruct (checkParameterType t value); simpl in H; [|by inversion H].
    destruct (retrieveEntry t key) as [r|e0]; [|by inversion H].
    destruct (entry r !! 1%nat); [by inversion H|].
    destruct (matchingEntry r) as [me|].
    + destruct (me !! 0%nat); [|inversion H; congruence].
      destruct (matchingRun _ _); [|inversion H; subst; by destruct He as [?|[?|?]]].
      by destruct (addNewNodes _ _ _ _ _ _).
    + by destruct (addNewNodes _ _ _ _ _ _).
  - unfold update in H.
    destruct (checkParameterType t key); simpl in H; [|by inversion H].
    destruct (checkParameterType t value); simpl in H; [|by inversion H].
    destruct (retrieveEntry t key) as [r|e0]; [|by inversion H].
    destruct (entry r !! 1%nat); [|by inversion H].
    by destruct (addNewNodes _ _ _ _ _ _).
  - unfold SMT_delete in H.
    destruct (checkParameterType t key); simpl in H; [|by inversion H].
    destruct (retrieveEntry t key) as [r|e0]; [|by inversion H].
    destruct (entry r !! 1%nat); [|by inversion H].
    destruct (last (siblings r)); [|done].
    destruct (negb _); by destruct (addNewNodes _ _ _ _ _ _).
Qed.

End ProofService.

(** C8: for a key of the domain (a string of 1 to 64 hexadecimal digits, or
    a non-negative bigint below 2^256), [keyToPath] returns 256 directions, the one at
    index [i] being bit [i] of the number the key denotes: the binary form
    padded with zeros on the most-significant side and reversed. *)
Theorem keyToPath_spec big key :
  keyInRange big key = true ->
  length (keyToPath key) = 256%nat /\
  forall i : nat, (i < 256)%nat ->
    keyToPath key !! i = Some (bit_of (Z.testbit (keyValue key) (Z.of_nat i))).
Proof. apply keyToPath_spec_aux. Qed.

(** C2, at the entry (1, 0) in big-number mode: the key has been added and
    [get] returns its value, [verifyProof] accepts the proof of
    [createProof], but the proof's [membership] field is [false], because
    [!!entry[1]] is [false] for the value [0n]. *)
Theorem createProof_membership_zero_value :
  add hashW tree0 (Big 1) (Big 0) = Done treeZ
  /\ get treeZ (Big 1) = Ok (Some (Big 0))
  /\ exists p, createProof treeZ (Big 1) = Ok p
               /\ membership p = false
               /\ verifyProof hashW treeZ p = Ok true.
Proof.
  split; [by vm_compute|]. split; [by vm_compute|].
  eexists. split; [by vm_compute|]. split; by vm_compute.
Qed.

(** ** The properties at concrete inputs *)

Lemma reachable_tree0 : reachable hashW true tree0 [].
Proof. apply reach_new. reflexivity. Defined.

Lemma reachable_tree1 : reachable hashW true tree1 [(Big 1, Big 10)].
Proof.
  apply (reach_add hashW true tree0 [] (Big 1) (Big 10) tree1);
    [exact reachable_tree0 | reflexivity | by vm_compute].
Defined.

Lemma add_then_get_witness :
  add hashW tree0 (Big 1) (Big 10) = Done tree1
  /\ get tree1 (Big 1) = Ok (Some (Big 10)).
Proof.
  assert (H : add hashW tree0 (Big 1) (Big 10) = Done tree1) by (by vm_compute).
  split; [exact H|].
  exact (add_then_get hashW true hashW_inj hashW_nonzero tree0 [] (Big 1) (Big 10) tree1
           reachable_tree0 eq_refl H).
Defined.

Lemma createProof_never_added_witness :
  exists p, createProof tree1 (Big 3) = Ok p /\ membership p = false
            /\ proof_root p = root tree1
            /\ verifyProof hashW tree1 p = Ok true
            /\ forall me mkey, proof_matchingEntry p = Some me -> me !! 0%nat = Some mkey ->
                 (length (proof_siblings p)
                  <= sharedBits (keyToPath (Big 3)) (keyToPath mkey))%nat.
Proof.
  apply (createProof_never_added hashW true hashW_inj hashW_nonzero tree1
           [(Big 1, Big 10)] (Big 3) reachable_tree1 eq_refl).
  simpl. intros H%list_elem_of_singleton. discriminate H.
Defined.

Lemma verifyProof_matching_entry_witness :
  exists b,
    verifyProof hashW tree1
      (mkMerkleProof [Big 3] (Some [Big 1; Big 10; Big 1]) [] (leafW 1 10) false) = Ok b /\
    (b = true <->
     foldSiblings hashW (hashW [Big 1; Big 10; Big 1]) (keyToPath (Big 1)) [] = leafW 1 10
     /\ (0 <= sharedBits (keyToPath (Big 3)) (keyToPath (Big 1)))%nat).
Proof.
  exact (verifyProof_matching_entry hashW tree1
           (mkMerkleProof [Big 3] (Some [Big 1; Big 10; Big 1]) [] (leafW 1 10) false)
           [Big 1; Big 10; Big 1] (Big 1) (Big 3) eq_refl eq_refl eq_refl).
Defined.

Lemma add_delete_restores_root_witness :
  exists t1 t2, add hashW tree1 (Big 2) (Big 20) = Done t1
                /\ SMT_delete hashW t1 (Big 2) = Done t2 /\ root t2 = root tree1.
Proof.
  destruct (add_delete_restores_root hashW true hashW_inj hashW_nonzero tree1
              [(Big 1, Big 10)] (Big 2) (Big 20) reachable_tree1 eq_refl) as [Hback Hadd].
  destruct Hadd as [t1 H1]; [reflexivity | |].
  { simpl. intros x Hx%list_elem_of_singleton. subst x. discriminate. }
  destruct (Hback t1 H1) as (t2 & H2 & Hroot).
  exists t1, t2. by repeat split.
Defined.

Lemma insertion_order_independent_witness :
  exists t1 t2,
    addAll hashW tree0 [(Big 1, Big 10); (Big 2, Big 20)] = Done t1
    /\ addAll hashW tree0 [(Big 2, Big 20); (Big 1, Big 10)] = Done t2
    /\ root t1 = root t2.
Proof.
  apply (insertion_order_independent hashW true hashW_inj hashW_nonzero tree0).
  - reflexivity.
  - apply perm_swap.
  - repeat constructor.
  - simpl. apply NoDup_cons. split; [|apply NoDup_singleton].
    intros H%list_elem_of_singleton. discriminate H.
Defined.

Lemma failed_mutation_leaves_tree_witness :
  add hashW tree1 (Big 1) (Big 7) = Thrown KeyAlreadyExists tree1 /\ tree1 = tree1.
Proof.
  assert (H : add hashW tree1 (Big 1) (Big 7) = Thrown KeyAlreadyExists tree1)
    by (by vm_compute).
  split; [exact H|].
  exact (failed_mutation_leaves_tree hashW tree1 (Big 1) (Big 7) KeyAlreadyExists tree1
           (or_introl H) (or_intror (or_introl eq_refl))).
Defined.

Lemma keyToPath_spec_witness :
  length (keyToPath (Big 5)) = 256%nat /\
  forall i : nat, (i < 256)%nat ->
    keyToPath (Big 5) !! i = Some (bit_of (Z.testbit (keyValue (Big 5)) (Z.of_nat i))).
Proof. exact (keyToPath_spec true (Big 5) eq_refl). Defined.

Lemma retrieveEntry_terminates_bounded_witness :
  exists r, retrieveEntry tree1 (Big 3) = Ok r /\ (length (siblings r) <= 256)%nat.
Proof.
  destruct (retrieveEntry_terminates_bounded hashW true hashW_inj hashW_nonzero tree1
              [(Big 1, Big 10)] (Big 3) reachable_tree1) as [Hbound Hret].
  destruct (Hret eq_refl) as [r Hr]. exists r. split; [exact Hr | exact (Hbound r Hr)].
Defined.

(** The keys 1 and 9 part at index 3: the tree holds the two leaves and
    four internal nodes, the root is the fold of the new leaf through three
    zero siblings and the old leaf, and deleting 9 gives back the single
    leaf as root. *)
Example two_keys_parting_at_index_3 :
  exists t2 t3,
    add hashW tree1 (Big 9) (Big 11) = Done t2
    /\ size (nodes t2) = 6%nat
    /\ root t2 = foldSiblings hashW (leafW 9 11) (keyToPath (Big 9))
                   [Big 0; Big 0; Big 0; leafW 1 10]
    /\ SMT_delete hashW t2 (Big 9) = Done t3
    /\ t3 = tree1.
Proof.
  do 2 eexists. split; [by vm_compute|]. split; [by vm_compute|].
  split; [by vm_compute|]. split; by vm_compute.
Qed.

(** ** Hexadecimal mode *)

Lemma pos_bits_nonempty p : pos_bits p <> [].
Proof. by destruct p. Qed.

Lemma pos_bits_inj p q : pos_bits p = pos_bits q -> p = q.
Proof.
  revert q. induction p as [p IH|p IH|]; intros [q|q|]; simpl; intros E;
    try discriminate E; try reflexivity; injection E as E.
  - f_equal. by apply IH.
  - by apply pos_bits_nonempty in E.
  - f_equal. by apply IH.
  - symmetry in E. by apply pos_bits_nonempty in E.
Qed.

Lemma bit_char_inj a b : bit_char a = bit_char b -> a = b.
Proof. by destruct a, b. Qed.

Lemma hashX_inj a b : hashX a = hashX b -> a = b.
Proof.
  unfold hashX. intros [= E].
  apply (f_equal list_ascii_of_string) in E.
  rewrite !list_ascii_of_string_of_list_ascii in E.
  apply (inj encode), pos_bits_inj.
  revert E. generalize (pos_bits (encode a)) (pos_bits (encode b)).
  induction l as [|x l IH]; intros [|y l']; simpl; intros E;
    try discriminate E; try reflexivity; injection E as E1 E2.
  f_equal; [by apply bit_char_inj | by apply IH].
Qed.

Lemma drop_while_bit_chars (l : list bool) (cs : list ascii) :
  drop_while is_space (map bit_char l ++ "1"%char :: cs)
  = map bit_char l ++ "1"%char :: cs.
Proof. destruct l as [|[] l]; done. Qed.

Lemma hashX_nonzero l : numberNonZero (hashX l) = true.
Proof.
  unfold hashX, numberNonZero, hexNumberIsZero.
  rewrite list_ascii_of_string_of_list_ascii.
  change (rev ("1"%char :: map bit_char (pos_bits (encode l))))
    with (rev (map bit_char (pos_bits (encode l))) ++ ["1"%char]).
  rewrite <- map_rev, drop_while_bit_chars, rev_app_distr. done.
Qed.

Lemma reachable_treeX1 : reachable hashX false treeX1 [(Str "f", Str "1")].
Proof.
  apply (reach_add hashX false treeX0 [] (Str "f") (Str "1") treeX1);
    [apply reach_new; by vm_compute | reflexivity | by vm_compute].
Qed.

(** The assumptions on the hash function are met in hexadecimal mode too:
    the tree holding ("f", "1") is reachable, and the proof of its key
    verifies. *)
Example createProof_hexadecimal :
  exists p, createProof treeX1 (Str "f") = Ok p /\ membership p = true
            /\ proof_root p = root treeX1 /\ verifyProof hashX treeX1 p = Ok true.
Proof.
  exact (createProof_added hashX false hashX_inj hashX_nonzero treeX1
           [(Str "f", Str "1")] (Str "f") (Str "1") reachable_treeX1
           (list_elem_of_here _ _)).
Qed.

(** Two strings that denote one number are one key of the data model, and
    the class does not identify them: with "f" stored, [get("0f")] returns
    [undefined], and [add("0f", ..)] compares the two equal paths beyond
    their end until [push] throws. *)
Example same_number_other_string :
  keyValue (Str "0f") = keyValue (Str "f")
  /\ get treeX1 (Str "0f") = Ok None
  /\ add hashX treeX1 (Str "0f") (Str "2") = Thrown RangeError treeX1.
Proof. split; [done|]. split; by vm_compute. Qed.

Lemma reachable_treeX2 :
  reachable hashX false treeX2 [(Str "e", Str "1"); (Str "f", Str "1")].
Proof.
  destruct (reachable_represents hashX false hashX_inj hashX_nonzero _ _ reachable_treeX1)
    as (T & Hrep & HE).
  destruct (add_total hashX false hashX_inj hashX_nonzero treeX1 T (Str "e") (Str "1")
              Hrep eq_refl eq_refl) as (t' & Hadd & _).
  { intros x Hx Ep. apply list_elem_of_fmap in Hx as ([k v] & -> & He).
    apply HE, list_elem_of_singleton in He. injection He as -> ->.
    apply (keyToPath_value false) in Ep; [|reflexivity..]. vm_compute in Ep. discriminate Ep. }
  unfold treeX2. rewrite Hadd.
  exact (reach_add hashX false treeX1 _ (Str "e") (Str "1") t' reachable_treeX1 eq_refl Hadd).
Qed.

(** C5: [add(k, v)] followed by [delete(k)] does not restore the tree for
    every key that is not present.  In hexadecimal mode the reachable tree
    holding "f" and "e" does not hold the key "0f" ([get] returns
    [undefined]), and "0f" is a key of the domain; [add("0f", "2")] walks to
    the leaf of "f", deletes the node of the path, and throws a [RangeError]
    in the loop that compares the two equal paths.  The root field is the
    old one, but the table no longer holds the root node: [delete("0f")]
    then throws a [TypeError], and so does [get("f")]. *)
Theorem add_delete_same_number_key :
  reachable hashX false treeX2 [(Str "e", Str "1"); (Str "f", Str "1")]
  /\ keyInRange false (Str "0f") = true
  /\ get treeX2 (Str "0f") = Ok None
  /\ get treeX2 (Str "f") = Ok (Some (Str "1"))
  /\ nodes treeX2 !! root treeX2 <> None
  /\ exists t',
       add hashX treeX2 (Str "0f") (Str "2") = Thrown RangeError t'
       /\ root t' = root treeX2
       /\ nodes t' !! root t' = None
       /\ SMT_delete hashX t' (Str "0f") = Thrown TypeError t'
       /\ get t' (Str "f") = Err TypeError.
Proof.
  split; [exact reachable_treeX2|]. split; [reflexivity|].
  split; [vm_compute; reflexivity|]. split; [vm_compute; reflexivity|].
  split; [vm_compute; discriminate|].
  assert (H : match add hashX treeX2 (Str "0f") (Str "2") with
              | Thrown RangeError t' =>
                  root t' = root treeX2
                  /\ nodes t' !! root t' = None
                  /\ SMT_delete hashX t' (Str "0f") = Thrown TypeError t'
                  /\ get t' (Str "f") = Err TypeError
              | _ => False
              end)
    by (vm_compute; repeat split; reflexivity).
  destruct (add hashX treeX2 (Str "0f") (Str "2")) as [t'|e t']; [destruct H|].
  destruct e; try exact (False_ind _ H). exists t'. split; [reflexivity|exact H].
Qed.

(** C6: the order of insertion matters for distinct keys that denote the
    same number.  In hexadecimal mode "f" and "0f" are two distinct keys of
    the domain; inserting ("f", "1") and ("0f", "2") into a new tree, the
    second [add] throws a [RangeError] in either order, and the roots the
    two orders leave are different: each is the leaf of the pair inserted
    first. *)
Theorem insertion_order_same_number_keys :
  new_SMT hashX false = Ok treeX0
  /\ keyInRange false (Str "f") = true /\ keyInRange false (Str "0f") = true
  /\ Str "f" <> Str "0f"
  /\ exists tA tB,
       addAll hashX treeX0 [(Str "f", Str "1"); (Str "0f", Str "2")] = Thrown RangeError tA
       /\ addAll hashX treeX0 [(Str "0f", Str "2"); (Str "f", Str "1")] = Thrown RangeError tB
       /\ root tA = hashX [Str "f"; Str "1"; Str "1"]
       /\ root tB = hashX [Str "0f"; Str "2"; Str "1"]
       /\ root tA <> root tB.
Proof.
  split; [vm_compute; reflexivity|]. split; [reflexivity|]. split; [reflexivity|].
  split; [discriminate|].
  assert (H : match addAll hashX treeX0 [(Str "f", Str "1"); (Str "0f", Str "2")],
                    addAll hashX treeX0 [(Str "0f", Str "2"); (Str "f", Str "1")] with
              | Thrown RangeError tA, Thrown RangeError tB =>
                  root tA = hashX [Str "f"; Str "1"; Str "1"]
                  /\ root tB = hashX [Str "0f"; Str "2"; Str "1"]
                  /\ bool_decide (root tA = root tB) = false
              | _, _ => False
              end)
    by (vm_compute; repeat split; reflexivity).
  destruct (addAll hashX treeX0 [(Str "f", Str "1"); (Str "0f", Str "2")]) as [tA|eA tA];
    [destruct H|].
  destruct (addAll hashX treeX0 [(Str "0f", Str "2"); (Str "f", Str "1")]) as [tB|eB tB];
    [by destruct eA|].
  destruct eA; try exact (False_ind _ H). destruct eB; try exact (False_ind _ H).
  destruct H as (HA & HB & Hne). exists tA, tB.
  repeat (split; [done|]). by apply bool_decide_eq_false in Hne.
Qed.

(** * The node table holds the nodes of the tree and nothing else *)

Lemma subterm_leaf s k v : subterm s (Leaf k v) -> s = Leaf k v.
Proof. simpl. by intros [->|[]]. Qed.

Lemma subterm_empty s : subterm s Empty -> s = Empty.
Proof. simpl. by intros [->|[]]. Qed.

Lemma subterm_plug_slot d p sibs slot s :
  subterm s slot -> subterm s (plug d p sibs slot).
Proof.
  revert d. induction sibs as [|x sibs IH]; intros d H; simpl; [done|].
  destruct (dir_truthy (p !! d)); simpl; right; [right|left]; by apply IH.
Qed.

Lemma subterm_plug_sibling d p sibs slot s x :
  x ∈ sibs -> subterm s x -> subterm s (plug d p sibs slot).
Proof.
  revert d. induction sibs as [|y sibs IH]; intros d Hx H; simpl.
  - by apply elem_of_nil in Hx.
  - apply elem_of_cons in Hx as [->|Hx].
    + destruct (dir_truthy (p !! d)); simpl; right; [left|right]; done.
    + destruct (dir_truthy (p !! d)); simpl; right; [right|left]; by apply IH.
Qed.

Lemma subterm_plug_pathnode d p sibs slot o :
  o ∈ pathnodes d p sibs slot -> subterm o (plug d p sibs slot).
Proof.
  revert d. induction sibs as [|y sibs IH]; intros d Ho.
  - by apply elem_of_nil in Ho.
  - cbn [pathnodes] in Ho. apply elem_of_cons in Ho as [->|Ho].
    + apply subterm_refl.
    + simpl. destruct (dir_truthy (p !! d)); simpl; right; [right|left]; by apply IH.
Qed.

Lemma subterm_plug_inv d p sibs slot s :
  subterm s (plug d p sibs slot) ->
  s ∈ pathnodes d p sibs slot \/ (exists x, x ∈ sibs /\ subterm s x) \/ subterm s slot.
Proof.
  revert d. induction sibs as [|y sibs IH]; intros d H.
  - by right; right.
  - cbn [pathnodes plug] in *.
    assert (Hrec : forall u, subterm s (plug (S d) p sibs slot) ->
              s ∈ u :: pathnodes (S d) p sibs slot
              \/ (exists x, x ∈ y :: sibs /\ subterm s x) \/ subterm s slot).
    { intros u Hu. destruct (IH _ Hu) as [Hp|[(x & Hx & Hs)|Hs]].
      - left. by apply list_elem_of_further.
      - right. left. exists x. split; [by apply list_elem_of_further|done].
      - by right; right. }
    assert (Hy : subterm s y -> exists x, x ∈ y :: sibs /\ subterm s x).
    { intros Hs. exists y. split; [apply list_elem_of_here|done]. }
    destruct (dir_truthy (p !! d)); simpl in H; destruct H as [->|[H|H]]; auto;
      left; apply list_elem_of_here.
Qed.

(** Trees beyond the last non-empty one are empty. *)
Lemma lastNonEmpty_from_empty n rs i x :
  (lastNonEmpty_from n rs <= i < n)%nat -> rs !! i = Some x -> x = Empty.
Proof.
  induction n as [|n IH]; intros Hi Hx; [lia|].
  cbn [lastNonEmpty_from] in Hi.
  destruct (decide (i = n)) as [->|Hne].
  - rewrite Hx in Hi. destruct x; [done|lia|lia].
  - apply IH; [|done]. destruct (rs !! n) as [[| |]|]; lia.
Qed.

Section ExactTable.

Variable hash : list elem -> elem.
Variable big : bool.
Hypothesis hash_inj : forall a b, hash a = hash b -> a = b.
Hypothesis hash_nonzero : forall l, numberNonZero (hash l) = true.

Local Abbreviation hashT := (hashT hash big).
Local Abbreviation stored := (stored hash big).
Local Abbreviation wf := (wf big).
Local Abbreviation response := (response hash big).
Local Abbreviation represents := (represents hash big).
Local Abbreviation within := (within hash big).
Local Abbreviation no_garbage := (no_garbage hash big).

Lemma within_mono m (P Q : tree -> Prop) :
  within m P -> (forall s, s <> Empty -> P s -> Q s) -> within m Q.
Proof.
  intros H HPQ h c Hh. destruct (H h c Hh) as (s & Hs & Hne & E).
  exists s. auto.
Qed.

Lemma within_delete m P x :
  within m P -> within (delete (hashT x) m) (fun s => P s /\ s <> x).
Proof.
  intros H h c Hh. apply lookup_delete_Some in Hh as [Hne Hh].
  destruct (H h c Hh) as (s & Hs & Hne' & E). exists s. repeat split; try done.
  intros ->. done.
Qed.

Lemma within_insert m P x c :
  x <> Empty -> within m P -> within (<[hashT x := c]> m) (fun s => P s \/ s = x).
Proof.
  intros Hx H h c' Hh. apply lookup_insert_Some in Hh as [[<- _]|[Hne Hh]].
  - exists x. auto.
  - destruct (H h c' Hh) as (s & Hs & Hne' & E). exists s. auto.
Qed.

Lemma within_deleteOldNodes m P p ss slot :
  within m P ->
  within (deleteOldNodes hash m (hashT slot) p (hashT <$> ss))
         (fun s => P s /\ s ∉ pathnodes 0 p ss slot).
Proof.
  intros H h c Hh. rewrite deleteOldNodes_lookup in Hh by done.
  case_decide as Hin; [done|].
  destruct (H h c Hh) as (s & Hs & Hne & E). exists s. repeat split; try done.
  intros Hp. apply Hin. rewrite <- E. by apply list_elem_of_fmap_2.
Qed.

Lemma within_addNewNodes_from n m P p sibs slot :
  (n <= length sibs)%nat -> within m P ->
  within (addNewNodes_from hash n m (hashT slot) p (hashT <$> sibs)).2
         (fun s => P s \/ s ∈ pathnodes 0 p (take n sibs) slot).
Proof.
  revert m P slot. induction n as [|i IH]; intros m P slot Hn H.
  - simpl. eapply within_mono; [exact H|]. auto.
  - cbn [addNewNodes_from].
    destruct (sibs !! i) as [s|] eqn:Es; [|apply lookup_ge_None in Es; lia].
    rewrite list_lookup_fmap, Es. simpl.
    rewrite level_plug.
    assert (Hnode : plug i p [s] slot <> Empty).
    { simpl. by destruct (dir_truthy (p !! i)). }
    pose proof (within_insert m P (plug i p [s] slot)
                  (level p i (hashT slot) (hashT s)) Hnode H) as H'.
    eapply within_mono; [exact (IH _ _ (plug i p [s] slot) ltac:(lia) H')|].
    intros o Ho [[HP| ->]|Hin]; cbv beta.
    + by left.
    + right. rewrite (take_S_snoc _ _ _ Es), pathnodes_app, length_take_le by lia.
      apply elem_of_app. right. simpl. destruct (dir_truthy (p !! i)); apply list_elem_of_here.
    + right. rewrite (take_S_snoc _ _ _ Es), pathnodes_app, length_take_le by lia.
      apply elem_of_app. by left.
Qed.

Lemma within_addNewNodes m P p sibs slot :
  within m P ->
  within (addNewNodes hash m (hashT slot) p (hashT <$> sibs)
            (Z.of_nat (length (hashT <$> sibs)) - 1)).2
         (fun s => P s \/ s ∈ pathnodes 0 p sibs slot).
Proof.
  intros H. rewrite addNewNodes_all, length_fmap.
  eapply within_mono; [apply within_addNewNodes_from; [lia|exact H]|].
  intros s _. by rewrite firstn_all.
Qed.

Lemma finish_exact m1 p sibs k v t' :
  within m1 (fun s => exists x, x ∈ sibs /\ subterm s x) ->
  (let '(rt, m3) :=
     addNewNodes hash (<[hash [k; v; markOf big] := Triple k v (markOf big)]> m1)
       (hash [k; v; markOf big]) p (hashT <$> sibs)
       (Z.of_nat (length (hashT <$> sibs)) - 1) in
   Done (mkSMT big m3 rt)) = Done t' ->
  no_garbage (nodes t') (plug 0 p sibs (Leaf k v)).
Proof.
  intros H.
  change (hash [k; v; markOf big]) with (hashT (Leaf k v)).
  pose proof (within_addNewNodes _ _ p sibs (Leaf k v)
                (within_insert m1 _ (Leaf k v) (Triple k v (markOf big)) ltac:(done) H)) as H'.
  destruct (addNewNodes _ _ _ _ _ _) as [rt m3]. intros [= <-]. simpl in *.
  eapply within_mono; [exact H'|]. cbv beta.
  intros s _ [[(x & Hx & Hs)| ->]|Hs].
  - by eapply subterm_plug_sibling.
  - apply subterm_plug_slot. by left.
  - by apply subterm_plug_pathnode.
Qed.

(** What [deleteOldNodes] leaves of an exact table: the nodes of the
    siblings and of the slot. *)
Lemma cleared_exact m P p ss slot :
  within m (fun s => subterm s (plug 0 p ss slot) /\ P s) ->
  within (deleteOldNodes hash m (hashT slot) p (hashT <$> ss))
         (fun s => ((exists x, x ∈ ss /\ subterm s x) \/ subterm s slot) /\ P s).
Proof.
  intros H. eapply within_mono; [by apply within_deleteOldNodes|]. cbv beta.
  intros s _ [[Hs HP] Hnp]. split; [|done].
  destruct (subterm_plug_inv _ _ _ _ _ Hs) as [?|[?|?]]; [done|by left|by right].
Qed.

Lemma add_exact t T k v t' :
  represents t T -> no_garbage (nodes t) T -> keyInRange big k = true ->
  add hash t k v = Done t' ->
  no_garbage (nodes t') (insT 0 (keyToPath k) k v T).
Proof.
  intros Hrep Hng Hk. pose proof Hrep as (Hb & Hroot & Hst & Hids & Hwf).
  pose proof (keyInRange_good_path _ _ Hk) as Hp.
  unfold add. rewrite keyInRange_checkParameterType by (by rewrite Hb).
  destruct (checkParameterType t v); [|done]. cbn [negb].
  erewrite retrieveEntry_represents by done.
  pose proof (plug_locate 0 (keyToPath k) T) as HT.
  pose proof (locate_slot 0 (keyToPath k) T) as Hslot.
  pose proof (insZ_insT 0 (keyToPath k) k v T) as Hins.
  destruct (locate 0 (keyToPath k) T) as [ss slot] eqn:El. cbn [fst snd] in *.
  unfold zeroNode, entryMark. rewrite Hb. fold (zeroOf big) (markOf big).
  rewrite <- HT in Hng.
  assert (Hng' : within (nodes t) (fun s => subterm s (plug 0 (keyToPath k) ss slot) /\ True)).
  { eapply within_mono; [exact Hng|]. by intros s _ Hs. }
  rewrite <- Hins. clear Hins.
  destruct slot as [|mk mv|l r]; [| |by destruct (Hslot l r)].
  - unfold response. cbn [entry matchingEntry siblings].
    change ([k] !! 1%nat) with (@None elem). cbv beta iota zeta.
    rewrite deleteOldNodes_guard.
    change (zeroOf big) with (hashT Empty).
    apply finish_exact.
    eapply within_mono; [apply (cleared_exact _ _ _ _ _ Hng')|]. cbv beta.
    intros s Hne [[Hs|Hs] _]; [done|]. by apply subterm_empty in Hs.
  - unfold response. destruct (decide (mk = k)) as [->|Hne]; [done|].
    cbn [entry matchingEntry siblings].
    change ([k] !! 1%nat) with (@None elem). cbv beta iota zeta.
    change ([mk; mv; markOf big] !! 0%nat) with (Some mk). cbv beta iota zeta.
    rewrite deleteOldNodes_guard, length_fmap.
    destruct (matchingRun _ _) as [n|] eqn:Erun; [|done].
    pose proof (matchingRun_commonPrefix _ _ _ Erun) as En.
    replace ((hashT <$> ss) ++ replicate n (zeroOf big) ++ [hash [mk; mv; markOf big]])
      with (hashT <$> (ss ++ replicate n Empty ++ [Leaf mk mv]))
      by (by rewrite !fmap_app, fmap_replicate).
    change (hash [mk; mv; markOf big]) with (hashT (Leaf mk mv)).
    intros Hfin. unfold insZ. simpl. rewrite <- En.
    revert Hfin. apply finish_exact.
    eapply within_mono; [apply (cleared_exact _ _ _ _ _ Hng')|]. cbv beta.
    intros s Hnes [[(x & Hx & Hs)|Hs] _].
    + exists x. split; [|done]. apply elem_of_app. by left.
    + exists (Leaf mk mv). split; [|done].
      apply elem_of_app. right. apply elem_of_app. right. apply list_elem_of_here.
Qed.

Lemma update_exact t T k v t' :
  represents t T -> no_garbage (nodes t) T ->
  update hash t k v = Done t' ->
  no_garbage (nodes t') (updT 0 (keyToPath k) k v T).
Proof.
  intros Hrep Hng Hupd. pose proof Hrep as (Hb & Hroot & Hst & Hids & Hwf).
  destruct (update_Done hash big hash_inj hash_nonzero t T k v t' Hrep Hupd) as [Hin _].
  pose proof (wf_keys_inrange big 0 T k Hwf Hin) as Hk.
  pose proof (keyInRange_good_path _ _ Hk) as Hp.
  apply list_elem_of_fmap in Hin as ([k' v0] & Ek & He). simpl in Ek. subst k'.
  revert Hupd.
  unfold update. rewrite keyInRange_checkParameterType by (by rewrite Hb).
  destruct (checkParameterType t v); [|done]. cbn [negb].
  erewrite retrieveEntry_represents by done.
  pose proof (plug_locate 0 (keyToPath k) T) as HT.
  pose proof (plug_updT 0 (keyToPath k) k v v0 T) as Hupd.
  pose proof (locate_found big 0 T k v0 Hwf He) as Hloc.
  destruct (locate 0 (keyToPath k) T) as [ss slot] eqn:El. cbn [fst snd] in *.
  subst slot. specialize (Hupd eq_refl).
  unfold zeroNode, entryMark. rewrite Hb. fold (zeroOf big) (markOf big).
  rewrite <- HT in Hng, Hwf. rewrite <- Hupd. clear Hupd.
  unfold response. rewrite decide_True by done.
  cbn [entry matchingEntry siblings].
  change ([k; v0; markOf big] !! 1%nat) with (Some v0). cbv beta iota zeta.
  change (hash [k; v0; markOf big]) with (hashT (Leaf k v0)).
  apply finish_exact.
  eapply within_mono; [apply cleared_exact, within_delete, Hng|]. cbv beta.
  intros s Hne [[Hs|Hs] Hnl]; [done|]. by apply subterm_leaf in Hs.
Qed.

Lemma delete_exact t T k t' :
  represents t T -> no_garbage (nodes t) T ->
  SMT_delete hash t k = Done t' ->
  no_garbage (nodes t') (delT 0 (keyToPath k) k T).
Proof.
  intros Hrep Hng Hdel. pose proof Hrep as (Hb & Hroot & Hst & Hids & Hwf).
  destruct (delete_Done hash big hash_inj hash_nonzero t T k t' Hrep Hdel) as [Hin _].
  pose proof (wf_keys_inrange big 0 T k Hwf Hin) as Hk.
  pose proof (keyInRange_good_path _ _ Hk) as Hp.
  apply list_elem_of_fmap in Hin as ([k' v0] & Ek & He). simpl in Ek. subst k'.
  revert Hdel.
  unfold SMT_delete. rewrite keyInRange_checkParameterType by (by rewrite Hb).
  cbn [negb].
  erewrite retrieveEntry_represents by done.
  pose proof (plug_locate 0 (keyToPath k) T) as HT.
  pose proof (delZ_delT 0 (keyToPath k) k v0 T) as Hd.
  pose proof (locate_found big 0 T k v0 Hwf He) as Hloc.
  destruct (locate 0 (keyToPath k) T) as [ss slot] eqn:El. cbn [fst snd] in *.
  subst slot. specialize (Hd eq_refl).
  unfold zeroNode, entryMark. rewrite Hb. fold (zeroOf big) (markOf big).
  rewrite <- HT in Hng, Hwf, Hst. rewrite <- Hd. clear Hd.
  destruct (stored_plug hash big 0 _ _ _ _ Hst) as [Hstslot Hstsibs].
  unfold response. rewrite decide_True by done.
  cbn [entry matchingEntry siblings].
  change ([k; v0; markOf big] !! 1%nat) with (Some v0). cbv beta iota zeta.
  change (hash [k; v0; markOf big]) with (hashT (Leaf k v0)).
  set (m1 := delete (hashT (Leaf k v0)) (nodes t)).
  set (m2 := deleteOldNodes hash m1 (hashT (Leaf k v0)) (keyToPath k) (hashT <$> ss)).
  assert (Hm1 : within m1 (fun s => subterm s (plug 0 (keyToPath k) ss (Leaf k v0))
                                     /\ s <> Leaf k v0))
    by (by apply within_delete).
  assert (Hm2 : within m2 (fun s => exists x, x ∈ ss /\ subterm s x)).
  { eapply within_mono; [apply cleared_exact, Hm1|]. cbv beta.
    intros s Hne [[Hs|Hs] Hnl]; [done|]. by apply subterm_leaf in Hs. }
  assert (Hids2 : ids_ok hash m2)
    by (by apply (deleteOldNodes_ids hash), ids_ok_delete).
  assert (Hst2 : forall s, s ∈ ss -> stored m2 s).
  { intros s Hs. apply deleteOldNodes_keeps_sibling; auto.
    eapply delete_keeps_sibling; eauto. }
  rewrite fmap_last. unfold delZ.
  destruct (last ss) as [L|] eqn:EL; simpl.
  - apply last_Some in EL as [rs ->].
    assert (HL : stored m2 L) by (apply Hst2, elem_of_app; right; apply list_elem_of_here).
    rewrite (isLeaf_stored hash big hash_nonzero m2 L Hids2 HL).
    rewrite removelast_last.
    destruct (is_leafT L) eqn:Eleaf; simpl.
    + rewrite removelast_fmap, removelast_last.
      unfold getIndexOfLastNonZeroElement. rewrite length_fmap.
      rewrite (getIndex_lastNonEmpty hash big hash_nonzero) by lia.
      unfold addNewNodes.
      replace (Z.to_nat (Z.of_nat (lastNonEmpty_from (length rs) rs) - 1 + 1))
        with (lastNonEmpty_from (length rs) rs) by lia.
      pose proof (within_addNewNodes_from (lastNonEmpty_from (length rs) rs) m2 _
                    (keyToPath k) rs L (lastNonEmpty_from_le _ _) Hm2) as H3.
      destruct (addNewNodes_from _ _ _ _ _ _) as [rt m3]. intros [= <-]. simpl in *.
      eapply within_mono; [exact H3|]. cbv beta.
      intros s Hne [(x & Hx & Hs)|Hs]; [|by apply subterm_plug_pathnode].
      apply elem_of_app in Hx as [Hx|Hx%list_elem_of_singleton];
        [|subst x; by apply subterm_plug_slot].
      apply list_elem_of_lookup in Hx as (i & Hi).
      destruct (decide (i < lastNonEmpty_from (length rs) rs)%nat) as [Hlt|Hge].
      * eapply subterm_plug_sibling; [|exact Hs].
        apply (list_elem_of_lookup_2 _ i). by rewrite lookup_take_lt.
      * pose proof (lookup_lt_Some _ _ _ Hi).
        assert (x = Empty) as -> by (apply (lastNonEmpty_from_empty (length rs) rs i); [lia|exact Hi]).
        by apply subterm_empty in Hs.
    + change (zeroOf big) with (hashT Empty).
      pose proof (within_addNewNodes m2 _ (keyToPath k) (rs ++ [L]) Empty Hm2) as H3.
      destruct (addNewNodes _ _ _ _ _ _) as [rt m3]. intros [= <-]. simpl in *.
      eapply within_mono; [exact H3|]. cbv beta.
      intros s Hne [(x & Hx & Hs)|Hs]; [|by apply subterm_plug_pathnode].
      by eapply subterm_plug_sibling.
  - intros [= <-]. simpl. apply last_None in EL. subst ss.
    intros h c Hh. destruct (Hm1 h c Hh) as (s & [Hs Hnl] & _). simpl in Hs.
    by apply subterm_leaf in Hs.
Qed.

Lemma stored_subterm m s T : stored m T -> subterm s T -> stored m s.
Proof.
  induction T as [|k v|l IHl r IHr]; intros Hst [->|H]; try done.
  destruct Hst as (_ & Hl & Hr). destruct H; auto.
Qed.

Lemma stored_lookup_eq m m' s :
  stored m s -> stored m' s -> s <> Empty -> m !! hashT s = m' !! hashT s.
Proof.
  destruct s as [|k v|l r]; [done| |].
  - simpl. by intros -> ->.
  - simpl. by intros (-> & _) (-> & _).
Qed.

(** An exact table is determined by the tree. *)
Lemma exact_table m m' T :
  stored m T -> no_garbage m T -> stored m' T -> no_garbage m' T -> m = m'.
Proof.
  intros Hst Hng Hst' Hng'. apply map_eq. intros h.
  destruct (m !! h) as [c|] eqn:E.
  - destruct (Hng h c E) as (s & Hs & Hne & <-).
    rewrite <- E. symmetry. apply stored_lookup_eq; try done; by eapply stored_subterm.
  - destruct (m' !! h) as [c|] eqn:E'; [|done].
    destruct (Hng' h c E') as (s & Hs & Hne & <-).
    rewrite <- E, <- E'. apply stored_lookup_eq; try done; by eapply stored_subterm.
Qed.

Local Abbreviation reachable := (reachable hash big).

(** A reachable tree object holds a well-formed tree, its table nothing but
    the nodes of that tree. *)
Lemma reachable_exact t E :
  reachable t E ->
  exists T, represents t T /\ no_garbage (nodes t) T
            /\ forall e, e ∈ entries T <-> e ∈ E.
Proof.
  induction 1 as [t Hnew|t E k v t' Hreach IH Hk Hadd|t E k v t' Hreach IH Hupd
                  |t E k t' Hreach IH Hdel].
  - exists Empty. split; [by apply represents_empty|]. split; [|done].
    assert (t = mkSMT big ∅ (zeroOf big)) as ->.
    { unfold new_SMT in Hnew.
      destruct big; [destruct (hash _)|destruct (checkHex _)]; by inversion Hnew. }
    intros h c Hh. simpl in Hh. by rewrite lookup_empty in Hh.
  - destruct IH as (T & Hrep & Hng & HE).
    destruct (add_Done hash big hash_inj hash_nonzero t T k v t' Hrep Hk Hadd) as [Hrep' _].
    eexists. split; [exact Hrep'|]. split; [by eapply add_exact|]. intros e.
    rewrite entries_insT, !elem_of_cons, HE. done.
  - destruct IH as (T & Hrep & Hng & HE).
    destruct (update_Done hash big hash_inj hash_nonzero t T k v t' Hrep Hupd) as [Hin Hrep'].
    eexists. split; [exact Hrep'|]. split; [by eapply update_exact|]. intros e.
    destruct Hrep as (_ & _ & _ & _ & Hwf).
    rewrite (entries_updT big 0 k v T e Hwf Hin), elem_of_cons, list_elem_of_filter, HE.
    tauto.
  - destruct IH as (T & Hrep & Hng & HE).
    destruct (delete_Done hash big hash_inj hash_nonzero t T k t' Hrep Hdel) as [Hin Hrep'].
    eexists. split; [exact Hrep'|]. split; [by eapply delete_exact|]. intros e.
    destruct Hrep as (_ & _ & _ & _ & Hwf).
    rewrite (entries_delT big 0 k T) by (try done; by eapply wf_keys_good).
    rewrite !list_elem_of_filter, HE. done.
Qed.

(** Two tree objects holding the same tree exactly are the same object. *)
Lemma represents_exact_eq t1 t2 T :
  represents t1 T -> no_garbage (nodes t1) T ->
  represents t2 T -> no_garbage (nodes t2) T -> t1 = t2.
Proof.
  intros (Hb1 & Hr1 & Hs1 & _) Hn1 (Hb2 & Hr2 & Hs2 & _) Hn2.
  destruct t1 as [b1 m1 r1], t2 as [b2 m2 r2]. simpl in *.
  f_equal; [congruence| |congruence]. by eapply exact_table.
Qed.

End ExactTable.

(** * What an accepted proof says about the tree *)

Lemma commonPrefix_lookup p q i : (i < commonPrefix p q)%nat -> p !! i = q !! i.
Proof.
  unfold commonPrefix. revert q i.
  induction p as [|a p IH]; intros [|b q] i; simpl; try lia.
  destruct a, b; simpl; try lia; destruct i as [|i]; try done; intros Hi;
    simpl; apply IH; lia.
Qed.

Lemma locate_plug d p ss slot :
  (forall l r, slot <> Node l r) -> locate d p (plug d p ss slot) = (ss, slot).
Proof.
  intros Hslot. revert d. induction ss as [|s ss IH]; intros d; simpl.
  - destruct slot as [| |l r]; try done. by destruct (Hslot l r).
  - destruct (dir_truthy (p !! d)) eqn:Ed; simpl; by rewrite Ed, IH.
Qed.

Section Soundness.

Variable hash : list elem -> elem.
Variable big : bool.
Hypothesis hash_inj : forall a b, hash a = hash b -> a = b.
Hypothesis hash_nonzero : forall l, numberNonZero (hash l) = true.

Local Abbreviation hashT := (hashT hash big).
Local Abbreviation stored := (stored hash big).
Local Abbreviation wf := (wf big).
Local Abbreviation represents := (represents hash big).
Local Abbreviation reachable := (reachable hash big).

(** A tree whose identifier is obtained by folding a node through siblings
    has those siblings along the path, above a subtree with that node as
    identifier. *)
Lemma fold_plug_inv d node p sibs T :
  foldr (fun '(i, s) acc =>
           hash (match p !! i with
                 | Some B1 => [s; acc]
                 | _ => [acc; s]
                 end))
        node (zip (seq d (length sibs)) sibs) = hashT T ->
  exists ss Tb, T = plug d p ss Tb /\ hashT <$> ss = sibs /\ hashT Tb = node.
Proof.
  revert d T. induction sibs as [|s sibs IH]; intros d T E.
  - exists [], T. done.
  - cbn [length seq zip zip_with foldr] in E.
    set (acc := foldr _ node _) in E.
    destruct T as [|k v|l r]; simpl in E.
    + by apply (hash_not_zero hash big hash_nonzero) in E.
    + apply hash_inj in E. by destruct (p !! d) as [[| |]|].
    + apply hash_inj in E.
      assert (Hdir : (dir_truthy (p !! d) = true /\ s = hashT l /\ acc = hashT r)
                     \/ (dir_truthy (p !! d) = false /\ acc = hashT l /\ s = hashT r)).
      { destruct (p !! d) as [[| |]|]; simpl; inversion E; auto. }
      destruct Hdir as [(Hd & Hs & Ha)|(Hd & Ha & Hs)];
        destruct (IH _ _ Ha) as (ss & Tb & HT & Hss & HTb).
      * exists (l :: ss), Tb. rewrite fmap_cons. cbn [plug]. rewrite Hd, <- HT, Hss, Hs. done.
      * exists (r :: ss), Tb. rewrite fmap_cons. cbn [plug]. rewrite Hd, <- HT, Hss, Hs. done.
Qed.

Lemma calculateRoot_inv node p sibs T :
  calculateRoot hash node p sibs = hashT T ->
  exists ss Tb, T = plug 0 p ss Tb /\ hashT <$> ss = sibs /\ hashT Tb = node.
Proof.
  rewrite calculateRoot_foldSiblings. unfold foldSiblings. apply fold_plug_inv.
Qed.

Lemma hashT_triple T k v x : hashT T = hash [k; v; x] -> T = Leaf k v /\ x = markOf big.
Proof.
  destruct T as [|k' v'|l r]; simpl; intros E.
  - symmetry in E. by apply (hash_not_zero hash big hash_nonzero) in E.
  - apply hash_inj in E. by inversion E.
  - apply hash_inj in E. by inversion E.
Qed.

Lemma get_Some_entries t T k v :
  represents t T -> get t k = Ok (Some v) <-> (k, v) ∈ entries T.
Proof.
  intros Hrep. split.
  - unfold get. destruct (negb _); [done|].
    destruct (retrieveEntry t k) as [r|] eqn:Er; [|done]. intros [= Hv].
    eapply (retrieveEntry_found hash big); eauto.
  - by eapply (get_present hash big).
Qed.

Lemma update_total t T k v v0 :
  represents t T -> (k, v0) ∈ entries T -> checkParameterType t v = true ->
  exists t', update hash t k v = Done t' /\ represents t' (updT 0 (keyToPath k) k v T).
Proof.
  intros Hrep He Hv. pose proof Hrep as (Hb & _ & _ & _ & Hwf).
  pose proof (wf_keys_inrange big 0 T k Hwf (entries_keys _ _ He)) as Hk.
  pose proof (update_spec hash big hash_inj hash_nonzero t T k v Hrep Hk Hv) as Hs.
  by rewrite (locate_found big 0 T k v0 Hwf He), decide_True in Hs by done.
Qed.

(** The slot a key of the domain that is not stored walks to. *)
Lemma locate_missing T k :
  wf 0 T -> k ∉ keys T ->
  match (locate 0 (keyToPath k) T).2 with
  | Leaf mk mv => mk <> k
  | _ => True
  end.
Proof.
  intros Hwf Hnot.
  pose proof (fun mk mv => locate_entry 0 (keyToPath k) T mk mv) as Hentry.
  destruct ((locate 0 (keyToPath k) T).2) as [|mk mv|]; try done.
  intros ->. apply Hnot. apply (entries_keys _ (k, mv)). by apply Hentry.
Qed.

Lemma keys_entries_iff (E1 E2 : list (elem * elem)) k :
  (forall e, e ∈ E1 <-> e ∈ E2) -> k ∈ E1.*1 <-> k ∈ E2.*1.
Proof.
  intros H. rewrite !list_elem_of_fmap. split; intros (e & -> & He); exists e;
    (split; [done|]); by apply H.
Qed.

End Soundness.

(** * Further properties of the operations

    As before, the properties of reachable trees are proved for a hash
    function that is injective and never numerically zero. *)

Lemma getIndexOfLastNonZeroElement_from_spec n (array : list elem) :
  (n <= length array)%nat ->
  let r := getIndexOfLastNonZeroElement_from n array in
  -1 <= r < Z.of_nat n
  /\ (0 <= r -> exists x, array !! Z.to_nat r = Some x /\ numberNonZero x = true)
  /\ (forall (i : nat) x, r < Z.of_nat i -> (i < n)%nat -> array !! i = Some x ->
        numberNonZero x = false).
Proof.
  induction n as [|n IH]; intros Hn; cbn zeta.
  - simpl. split; [lia|]. split; [lia|]. intros i x _ Hi. lia.
  - cbn [getIndexOfLastNonZeroElement_from].
    destruct (array !! n) as [x|] eqn:Ex; [|apply lookup_ge_None in Ex; lia].
    destruct (numberNonZero x) eqn:Enz.
    + split; [lia|]. split.
      * intros _. exists x. by rewrite Nat2Z.id.
      * intros i y Hi Hlt. lia.
    + destruct IH as (Hr & Hnz & Hz); [lia|]. split; [lia|]. split; [done|].
      intros i y Hi Hlt Hy. destruct (decide (i = n)) as [->|Hne].
      * congruence.
      * apply (Hz i y); [done|lia|done].
Qed.

Lemma firstCommon_from_take a1 a2 :
  take (firstCommon_from a1 a2) a1 = take (firstCommon_from a1 a2) a2.
Proof.
  revert a2. induction a1 as [|x a1 IH]; intros [|y a2]; simpl; try done.
  destruct x, y; simpl; try done; by rewrite IH.
Qed.

Lemma firstCommon_from_stop a1 a2 x y :
  a1 !! firstCommon_from a1 a2 = Some x -> a2 !! firstCommon_from a1 a2 = Some y ->
  pathbit_seq x y = false.
Proof.
  revert a2. induction a1 as [|a a1 IH]; intros [|b a2]; simpl; try done.
  destruct (pathbit_seq a b) eqn:Eab; simpl.
  - apply IH.
  - intros [= <-] [= <-]. done.
Qed.

Lemma entries_same_value big T k v v' :
  wf big 0 T -> (k, v) ∈ entries T -> (k, v') ∈ entries T -> v = v'.
Proof.
  intros Hwf H1 H2.
  pose proof (locate_found big 0 T k v Hwf H1) as E1.
  pose proof (locate_found big 0 T k v' Hwf H2) as E2.
  congruence.
Qed.

Lemma pos_bits_long p : 2 ^ 256 <= Z.pos p -> (256 < length (pos_bits p))%nat.
Proof.
  intros H. pose proof (lsb_value_bound (pos_bits p)) as Hb.
  rewrite pos_bits_value in Hb.
  destruct (decide (256 < length (pos_bits p))%nat) as [|Hle]; [done|].
  exfalso. assert (2 ^ Z.of_nat (length (pos_bits p)) <= 2 ^ 256)
    by (apply Z.pow_le_mono_r; lia). lia.
Qed.

Lemma reachable_tree2 : reachable hashW true tree2 [(Big 2, Big 20); (Big 1, Big 10)].
Proof.
  apply (reach_add hashW true tree1 [(Big 1, Big 10)] (Big 2) (Big 20) tree2);
    [exact reachable_tree1 | reflexivity | by vm_compute].
Defined.

Lemma entries_subterm T k v : (k, v) ∈ entries T -> subterm (Leaf k v) T.
Proof.
  induction T as [|k' v'|l IHl r IHr]; simpl.
  - by intros ?%elem_of_nil.
  - intros [= -> ->]%list_elem_of_singleton. by left.
  - intros [H|H]%elem_of_app; right; [left; by apply IHl | right; by apply IHr].
Qed.

(** On two equal paths of zeros and ones the loop of [add] does not stop. *)
Lemma matchingRun_same l :
  (forall x, x ∈ l -> x = B0 \/ x = B1) -> matchingRun l l = None.
Proof.
  induction l as [|a l IH]; intros H; [done|]. simpl.
  rewrite pathbit_seq_refl by (apply H, list_elem_of_here).
  rewrite IH; [done|]. intros x Hx. by apply H, list_elem_of_further.
Qed.

Lemma good_path_elements p d x :
  good_path p -> x ∈ drop d p -> x = B0 \/ x = B1.
Proof.
  intros [Hl Hp] (i & Hi)%list_elem_of_lookup. rewrite lookup_drop in Hi.
  pose proof (lookup_lt_Some _ _ _ Hi) as Hlt.
  destruct (Hp (d + i)%nat) as [E|E]; [lia| |]; rewrite E in Hi; injection Hi as <-; auto.
Qed.

(** In a well-formed tree two stored keys with the same path are the same
    key. *)
Lemma wf_path_inj big T x vx k vk :
  wf big 0 T -> (x, vx) ∈ entries T -> (k, vk) ∈ entries T ->
  keyToPath x = keyToPath k -> x = k.
Proof.
  intros Hwf Hx Hk E.
  pose proof (locate_found big 0 T x vx Hwf Hx) as E1.
  pose proof (locate_found big 0 T k vk Hwf Hk) as E2.
  rewrite E in E1. congruence.
Qed.

Section Extras.

Variable hash : list elem -> elem.
Variable big : bool.
Hypothesis hash_inj : forall a b, hash a = hash b -> a = b.
Hypothesis hash_nonzero : forall l, numberNonZero (hash l) = true.

Local Abbreviation hashT := (hashT hash big).
Local Abbreviation wf := (wf big).
Local Abbreviation represents := (represents hash big).
Local Abbreviation reachable := (reachable hash big).
Local Abbreviation no_garbage := (no_garbage hash big).

(** X1: on a reachable tree [get] reads the entries the calls have left:
    [get(key)] returns [v] exactly when the tree holds [(key, v)], and for a
    key of the domain it returns [undefined] exactly when the tree holds no
    entry for that key.  The hash function is injective and never
    numerically zero. *)
Theorem get_reads_entries t E key :
  reachable t E ->
  (forall v, get t key = Ok (Some v) <-> (key, v) ∈ E)
  /\ (keyInRange big key = true -> (get t key = Ok None <-> key ∉ E.*1)).
Proof.
  intros Hreach.
  destruct (reachable_represents hash big hash_inj hash_nonzero t E Hreach) as (T & Hrep & HE).
  split.
  - intros v. rewrite <- HE. by apply (get_Some_entries hash big hash_nonzero).
  - intros Hk. split.
    + intros Hget (e & -> & He)%list_elem_of_fmap. destruct e as [k v]. apply HE in He.
      eapply (get_present hash big) in He; [|done..]. simpl in Hget. congruence.
    + intros Hnot. eapply (get_absent hash big); try done.
      intros Hin. apply Hnot. revert Hin. unfold keys. by apply keys_entries_iff.
Qed.

(** X2: on a reachable tree, [update(key, value)] of a stored key with a
    value of the configured mode returns; afterwards [get(key)] returns the
    new value and [get] of every other key returns what it returned before. *)
Theorem update_then_get t E key v0 value :
  reachable t E -> (key, v0) ∈ E -> checkParameterType t value = true ->
  exists t', update hash t key value = Done t'
    /\ get t' key = Ok (Some value)
    /\ forall k v, k <> key -> (get t' k = Ok (Some v) <-> get t k = Ok (Some v)).
Proof.
  intros Hreach He Hv.
  destruct (reachable_represents hash big hash_inj hash_nonzero t E Hreach) as (T & Hrep & HE).
  apply HE in He. pose proof Hrep as (_ & _ & _ & _ & Hwf).
  destruct (update_total hash big hash_inj hash_nonzero t T key value v0 Hrep He Hv)
    as (t' & Hupd & Hrep').
  pose proof (entries_keys _ _ He) as Hin. simpl in Hin.
  exists t'. split; [done|]. split.
  - apply (get_Some_entries hash big hash_nonzero t' _ key value Hrep').
    apply (entries_updT big 0 key value T _ Hwf Hin). by left.
  - intros k v Hne.
    rewrite (get_Some_entries hash big hash_nonzero t' _ k v Hrep').
    rewrite (get_Some_entries hash big hash_nonzero t _ k v Hrep).
    rewrite (entries_updT big 0 key value T _ Hwf Hin). simpl. split.
    + intros [[= -> _]|[H _]]; done.
    + intros H. by right.
Qed.

(** X3: on a reachable tree, [delete(key)] of a stored key returns;
    afterwards [get(key)] returns [undefined] and [get] of every other key
    returns what it returned before. *)
Theorem delete_then_get t E key v0 :
  reachable t E -> (key, v0) ∈ E ->
  exists t', SMT_delete hash t key = Done t'
    /\ get t' key = Ok None
    /\ forall k v, k <> key -> (get t' k = Ok (Some v) <-> get t k = Ok (Some v)).
Proof.
  intros Hreach He.
  destruct (reachable_represents hash big hash_inj hash_nonzero t E Hreach) as (T & Hrep & HE).
  apply HE in He. pose proof Hrep as (_ & _ & _ & _ & Hwf).
  destruct (delete_total hash big hash_inj hash_nonzero t T key v0 Hrep He)
    as (t' & Hdel & Hrep').
  pose proof (entries_keys _ _ He) as Hin. simpl in Hin.
  pose proof (wf_keys_inrange big 0 T key Hwf Hin) as Hk.
  pose proof (wf_keys_good big 0 T key Hwf Hin) as Hp.
  exists t'. split; [done|]. split.
  - eapply (get_absent hash big); try done.
    unfold keys. rewrite (entries_delT big 0 key T) by done.
    intros (e & E1 & He')%list_elem_of_fmap. apply list_elem_of_filter in He' as [Hne _].
    by apply Hne.
  - intros k v Hne.
    rewrite (get_Some_entries hash big hash_nonzero t' _ k v Hrep').
    rewrite (get_Some_entries hash big hash_nonzero t _ k v Hrep).
    rewrite (entries_delT big 0 key T) by done.
    rewrite list_elem_of_filter. simpl. tauto.
Qed.

(** X4: on a reachable tree, [add] of a key the tree holds, with a value of
    the configured mode, throws [KeyAlreadyExists] and leaves the tree as
    it is. *)
Theorem add_stored_key_throws t E key v0 value :
  reachable t E -> (key, v0) ∈ E -> checkParameterType t value = true ->
  add hash t key value = Thrown KeyAlreadyExists t.
Proof.
  intros Hreach He Hv.
  destruct (reachable_represents hash big hash_inj hash_nonzero t E Hreach) as (T & Hrep & HE).
  apply HE in He. pose proof Hrep as (_ & _ & _ & _ & Hwf).
  pose proof (wf_keys_inrange big 0 T key Hwf (entries_keys _ _ He)) as Hk.
  pose proof (add_spec hash big hash_inj hash_nonzero t T key value Hrep Hk Hv) as Hs.
  by rewrite (locate_found big 0 T key v0 Hwf He), decide_True in Hs by done.
Qed.

(** X5: on a reachable tree, for a key of the domain the tree does not
    hold, [delete] throws [KeyNotFound], and so does [update] with a value
    of the configured mode; the tree is left as it is. *)
Theorem missing_key_throws t E key :
  reachable t E -> keyInRange big key = true -> key ∉ E.*1 ->
  SMT_delete hash t key = Thrown KeyNotFound t
  /\ forall value, checkParameterType t value = true ->
       update hash t key value = Thrown KeyNotFound t.
Proof.
  intros Hreach Hk Hnot.
  destruct (reachable_represents hash big hash_inj hash_nonzero t E Hreach) as (T & Hrep & HE).
  pose proof Hrep as (_ & _ & _ & _ & Hwf).
  assert (Hnot' : key ∉ keys T).
  { intros Hin. apply Hnot. revert Hin. unfold keys. by apply keys_entries_iff. }
  pose proof (locate_missing big T key Hwf Hnot') as Hm.
  split.
  - pose proof (delete_spec hash big hash_inj hash_nonzero t T key Hrep Hk) as Hs.
    destruct ((locate 0 (keyToPath key) T).2) as [|mk mv|]; try done.
    by rewrite decide_False in Hs.
  - intros value Hv.
    pose proof (update_spec hash big hash_inj hash_nonzero t T key value Hrep Hk Hv) as Hs.
    destruct ((locate 0 (keyToPath key) T).2) as [|mk mv|]; try done.
    by rewrite decide_False in Hs.
Qed.

(** X6: the tree object is determined by the entries it holds: two trees
    reached by any sequences of calls that leave the same entries have the
    same root and the same node table. *)
Theorem entries_determine_tree t1 E1 t2 E2 :
  reachable t1 E1 -> reachable t2 E2 -> (forall e, e ∈ E1 <-> e ∈ E2) -> t1 = t2.
Proof.
  intros H1 H2 Heq.
  destruct (reachable_exact hash big hash_inj hash_nonzero t1 E1 H1) as (T1 & Hrep1 & Hng1 & HE1).
  destruct (reachable_exact hash big hash_inj hash_nonzero t2 E2 H2) as (T2 & Hrep2 & Hng2 & HE2).
  assert (T1 = T2) as ->.
  { pose proof Hrep1 as (_ & _ & _ & _ & Hwf1). pose proof Hrep2 as (_ & _ & _ & _ & Hwf2).
    apply (wf_unique big 0); try done. intros e. by rewrite HE1, HE2. }
  by eapply (represents_exact_eq hash big).
Qed.

(** X7: when the calls have left no entry, the node table is empty and the
    root is the zero node: deleting every entry leaves nothing behind. *)
Theorem emptied_tree_is_new t E :
  reachable t E -> (forall e, e ∉ E) -> nodes t = ∅ /\ root t = zeroNode t.
Proof.
  intros Hreach Hnone.
  destruct (reachable_exact hash big hash_inj hash_nonzero t E Hreach) as (T & Hrep & Hng & HE).
  pose proof Hrep as (Hb & Hroot & _ & _ & Hwf).
  assert (T = Empty) as ->.
  { pose proof (wf_count big 0 T Hwf) as Hc.
    destruct (entries T) as [|e l] eqn:Ee; [done|].
    exfalso. apply (Hnone e), HE. apply list_elem_of_here. }
  split.
  - apply map_empty. intros h. destruct (nodes t !! h) as [c|] eqn:Eh; [|done].
    destruct (Hng h c Eh) as (s & Hs & Hne & _). by apply subterm_empty in Hs.
  - unfold zeroNode. by rewrite Hroot, Hb.
Qed.

(** X8: the root binds the entries: two reachable trees with the same root
    hold the same entries. *)
Theorem equal_roots_same_entries t1 E1 t2 E2 :
  reachable t1 E1 -> reachable t2 E2 -> root t1 = root t2 ->
  forall e, e ∈ E1 <-> e ∈ E2.
Proof.
  intros H1 H2 Hroot e.
  destruct (reachable_represents hash big hash_inj hash_nonzero t1 E1 H1) as (T1 & Hrep1 & HE1).
  destruct (reachable_represents hash big hash_inj hash_nonzero t2 E2 H2) as (T2 & Hrep2 & HE2).
  destruct Hrep1 as (_ & Hr1 & _). destruct Hrep2 as (_ & Hr2 & _).
  assert (T1 = T2) as ->
    by (apply (hashT_inj hash big hash_inj hash_nonzero); congruence).
  by rewrite <- HE1, <- HE2.
Qed.

(** X9: on a reachable tree, [update(key, value)] of a stored key leaves
    the root as it was exactly when the value is the stored one. *)
Theorem update_same_root_iff t E key v0 value t' :
  reachable t E -> (key, v0) ∈ E -> update hash t key value = Done t' ->
  (root t' = root t <-> value = v0).
Proof.
  intros Hreach He Hupd.
  destruct (reachable_represents hash big hash_inj hash_nonzero t E Hreach) as (T & Hrep & HE).
  apply HE in He. pose proof Hrep as (_ & Hroot & _ & _ & Hwf).
  destruct (update_Done hash big hash_inj hash_nonzero t T key value t' Hrep Hupd)
    as [Hin (_ & Hroot' & _)].
  rewrite Hroot, Hroot'. split.
  - intros E'. apply (hashT_inj hash big hash_inj hash_nonzero) in E'.
    apply (entries_same_value big T key); [done| |done].
    rewrite <- E'. apply (entries_updT big 0 key value T _ Hwf Hin). by left.
  - intros ->. f_equal.
    rewrite <- (plug_updT 0 (keyToPath key) key v0 v0 T)
      by (by apply (locate_found big)).
    rewrite <- (locate_found big 0 T key v0 Hwf He). apply plug_locate.
Qed.

(** X10: membership proofs are sound.  When [verifyProof] accepts a proof
    without matching entry whose entry has the three elements
    [[key, value, x]] and whose root is the root of a reachable tree, the
    tree holds [(key, value)] and [x] is the entry mark. *)
Theorem verifyProof_membership_sound t E p key value x :
  reachable t E ->
  proof_matchingEntry p = None -> proof_entry p = [key; value; x] ->
  proof_root p = root t -> verifyProof hash t p = Ok true ->
  (key, value) ∈ E /\ x = entryMark t.
Proof.
  intros Hreach Hme Hen Hroot.
  destruct (reachable_represents hash big hash_inj hash_nonzero t E Hreach) as (T & Hrep & HE).
  destruct Hrep as (Hb & HrT & _).
  unfold verifyProof. rewrite Hme, Hen. simpl. intros [= Hv].
  apply bool_decide_eq_true in Hv. rewrite Hroot, HrT in Hv.
  destruct (calculateRoot_inv hash big hash_inj hash_nonzero _ _ _ _ Hv)
    as (ss & Tb & -> & _ & HTb).
  apply (hashT_triple hash big hash_inj hash_nonzero) in HTb as [-> ->].
  split.
  - apply HE. rewrite entries_plug. apply elem_of_app. left. apply list_elem_of_here.
  - unfold entryMark. by rewrite Hb.
Qed.

(** X11: non-membership proofs are sound.  When [verifyProof] accepts a
    proof for the entry [[key]] whose root is the root of a reachable tree,
    and whose matching entry, if any, has three elements and another key,
    the tree holds no entry for [key]. *)
Theorem verifyProof_non_membership_sound t E p key :
  reachable t E ->
  proof_entry p = [key] -> proof_root p = root t ->
  (forall me, proof_matchingEntry p = Some me ->
     exists mk mv x, me = [mk; mv; x] /\ mk <> key) ->
  verifyProof hash t p = Ok true ->
  key ∉ E.*1.
Proof.
  intros Hreach Hen Hroot Hme.
  destruct (reachable_represents hash big hash_inj hash_nonzero t E Hreach) as (T & Hrep & HE).
  destruct Hrep as (Hb & HrT & _ & _ & Hwf).
  unfold verifyProof. rewrite Hen.
  destruct (proof_matchingEntry p) as [me|].
  - destruct (Hme me eq_refl) as (mk & mv & x & -> & Hne). simpl.
    case_decide as Hrt; [|done]. intros [= Hlen]. apply Nat.leb_le in Hlen.
    rewrite getFirstCommonElements_length in Hlen.
    rewrite Hroot, HrT in Hrt.
    destruct (calculateRoot_inv hash big hash_inj hash_nonzero _ _ _ _ Hrt)
      as (ss & Tb & HT & Hss & HTb).
    apply (hashT_triple hash big hash_inj hash_nonzero) in HTb as [-> _].
    rewrite <- Hss, length_fmap in Hlen.
    rewrite (plug_path_ext 0 (keyToPath mk) (keyToPath key)) in HT.
    2:{ intros i Hi. symmetry. apply commonPrefix_lookup. lia. }
    intros (e & -> & He)%list_elem_of_fmap. destruct e as [k v]. apply HE in He.
    simpl in *. pose proof (locate_found big 0 T k v Hwf He) as Hloc.
    rewrite HT, locate_plug in Hloc by done. simpl in Hloc. congruence.
  - simpl. intros [= Hv]. apply bool_decide_eq_true in Hv.
    rewrite Hroot, HrT in Hv.
    destruct (calculateRoot_inv hash big hash_inj hash_nonzero _ _ _ _ Hv)
      as (ss & Tb & HT & _ & HTb).
    assert (Tb = Empty) as ->.
    { apply (hashT_zero hash big hash_nonzero). rewrite HTb. unfold zeroNode. by rewrite Hb. }
    intros (e & -> & He)%list_elem_of_fmap. destruct e as [k v]. apply HE in He.
    simpl in *. pose proof (locate_found big 0 T k v Hwf He) as Hloc.
    rewrite HT, locate_plug in Hloc by done. simpl in Hloc. congruence.
Qed.

(** X12: [verifyProof] does not compare the key of the matching entry with
    the key of the entry: for a key the tree holds, the proof that names
    the key's own stored entry as matching entry, with the siblings
    [createProof] returns, is accepted although it has the form of a
    non-membership proof. *)
Theorem verifyProof_same_key_matching_entry t E key value :
  reachable t E -> (key, value) ∈ E ->
  exists p, createProof t key = Ok p
    /\ proof_entry p = [key; value; entryMark t]
    /\ verifyProof hash t
         (mkMerkleProof [key] (Some (proof_entry p)) (proof_siblings p) (root t) false)
       = Ok true.
Proof.
  intros Hreach He.
  destruct (reachable_represents hash big hash_inj hash_nonzero t E Hreach) as (T & Hrep & HE).
  apply HE in He. pose proof Hrep as (Hb & Hroot & _ & _ & Hwf).
  pose proof (wf_keys_inrange big 0 T key Hwf (entries_keys _ _ He)) as Hk.
  pose proof (keyInRange_good_path _ _ Hk) as Hp.
  unfold createProof. rewrite keyInRange_checkParameterType by (by rewrite Hb). simpl.
  erewrite (retrieveEntry_represents hash big) by done.
  pose proof (plug_locate 0 (keyToPath key) T) as HT.
  pose proof (locate_length big 0 (keyToPath key) T Hwf) as Hlen.
  rewrite (locate_found big 0 T key value Hwf He) in *. unfold response.
  rewrite decide_True by done. simpl entry. simpl matchingEntry. simpl siblings.
  eexists. split; [reflexivity|]. unfold entryMark. rewrite Hb. fold (markOf big).
  split; [done|].
  unfold verifyProof. simpl.
  change (hash [key; value; markOf big]) with (hashT (Leaf key value)).
  rewrite (calculateRoot_plug hash big), HT, Hroot. rewrite decide_True by done.
  f_equal. rewrite getFirstCommonElements_length, length_fmap. apply Nat.leb_le.
  apply commonPrefix_agree. intros i Hi. split; [done|].
  destruct Hp as [_ Hp]. apply Hp. lia.
Qed.

(** X13: [verifyProof] does not check that an entry or a matching entry is
    a marked triple.  In a reachable tree holding two entries or more, the
    root is an internal node, and the pair of its two children is accepted
    as the entry of a membership proof without siblings, and as the
    matching entry of a non-membership proof for any key whatever. *)
Theorem verifyProof_accepts_root_children t E k1 v1 k2 v2 :
  reachable t E -> (k1, v1) ∈ E -> (k2, v2) ∈ E -> k1 <> k2 ->
  exists a b, nodes t !! root t = Some (Pair a b)
    /\ verifyProof hash t (mkMerkleProof [a; b] None [] (root t) true) = Ok true
    /\ forall key,
         verifyProof hash t (mkMerkleProof [key] (Some [a; b]) [] (root t) false) = Ok true.
Proof.
  intros Hreach He1 He2 Hne.
  destruct (reachable_represents hash big hash_inj hash_nonzero t E Hreach) as (T & Hrep & HE).
  apply HE in He1, He2. destruct Hrep as (Hb & Hroot & Hst & _ & Hwf).
  destruct T as [|k v|l r].
  - by apply elem_of_nil in He1.
  - apply list_elem_of_singleton in He1, He2. congruence.
  - destruct Hst as (Hn & _). exists (hashT l), (hashT r).
    rewrite Hroot. split; [done|]. unfold verifyProof. simpl.
    unfold calculateRoot. simpl. split.
    + by rewrite bool_decide_eq_true_2.
    + intros key. by rewrite decide_True.
Qed.

(** X14: the shape of the proofs [createProof] returns on a reachable tree
    for a key of the domain.  The proof carries the root of the tree; for a
    stored key the entry is the marked triple of the key and its value and
    there is no matching entry; for any other key the entry is the key
    alone, and the matching entry, if there is one, is the marked triple of
    a stored entry with another key. *)
Theorem createProof_shape t E key p :
  reachable t E -> keyInRange big key = true -> createProof t key = Ok p ->
  proof_root p = root t
  /\ ((exists v, (key, v) ∈ E /\ proof_entry p = [key; v; entryMark t]
                 /\ proof_matchingEntry p = None)
      \/ ((key ∉ E.*1) /\ proof_entry p = [key]
          /\ forall me, proof_matchingEntry p = Some me ->
               exists mk mv, me = [mk; mv; entryMark t] /\ (mk, mv) ∈ E /\ mk <> key)).
Proof.
  intros Hreach Hk.
  destruct (reachable_represents hash big hash_inj hash_nonzero t E Hreach) as (T & Hrep & HE).
  pose proof Hrep as (Hb & Hroot & _ & _ & Hwf).
  pose proof (keyInRange_good_path _ _ Hk) as Hp.
  unfold createProof. rewrite keyInRange_checkParameterType by (by rewrite Hb). simpl.
  erewrite (retrieveEntry_represents hash big) by done.
  pose proof (fun mk mv => locate_entry 0 (keyToPath key) T mk mv) as Hentry.
  pose proof (locate_slot 0 (keyToPath key) T) as Hslot.
  assert (Hfound : forall v, (key, v) ∈ E -> (locate 0 (keyToPath key) T).2 = Leaf key v).
  { intros v Hv. apply (locate_found big); [done|]. by apply HE. }
  assert (Habsent : (forall v, (locate 0 (keyToPath key) T).2 <> Leaf key v) -> key ∉ E.*1).
  { intros Hno (e & -> & He)%list_elem_of_fmap. destruct e as [k v].
    by apply (Hno v), Hfound. }
  unfold entryMark. rewrite Hb. fold (markOf big). unfold response.
  destruct ((locate 0 (keyToPath key) T).2) as [|mk mv|l r]; [| |by destruct (Hslot l r)].
  - intros [= <-]. simpl. split; [done|]. right. split; [by apply Habsent|]. done.
  - destruct (decide (mk = key)) as [->|Hne]; intros [= <-]; simpl; (split; [done|]).
    + left. exists mv. split; [|done]. apply HE. by apply Hentry.
    + right. split; [apply Habsent; congruence|]. split; [done|].
      intros me [= <-]. exists mk, mv. split; [done|]. split; [|done].
      apply HE. by apply Hentry.
Qed.

(** X15: [addNewNodes] over all the siblings returns the root that
    [calculateRoot] computes from the same node, path and siblings,
    whatever the table holds. *)
Theorem addNewNodes_returns_calculateRoot m node path sibs :
  (addNewNodes hash m node path sibs (Z.of_nat (length sibs) - 1)).1
  = calculateRoot hash node path sibs.
Proof.
  rewrite addNewNodes_all. unfold calculateRoot.
  generalize (length sibs) as n. intros n. revert m node.
  induction n as [|n IH]; intros m node; [done|].
  cbn [addNewNodes_from calculateRoot_from].
  destruct (sibs !! n); [|done]. apply IH.
Qed.

(** X16: the node table of a reachable tree is addressed by content, and
    its marked triples are the entries: every identifier is the hash of the
    array stored under it, and the table holds the triple
    [[key, value, entryMark]] under its hash exactly when the tree holds
    [(key, value)]. *)
Theorem table_holds_the_entries t E :
  reachable t E ->
  (forall h c, nodes t !! h = Some c -> hash (array_of c) = h)
  /\ (forall k v, nodes t !! hash [k; v; entryMark t] = Some (Triple k v (entryMark t))
                  <-> (k, v) ∈ E).
Proof.
  intros Hreach.
  destruct (reachable_exact hash big hash_inj hash_nonzero t E Hreach) as (T & Hrep & Hng & HE).
  destruct Hrep as (Hb & _ & Hst & Hids & _).
  split; [exact Hids|]. intros k v. unfold entryMark. rewrite Hb. fold (markOf big).
  rewrite <- HE. split.
  - intros Hl. destruct (Hng _ _ Hl) as (s & Hs & _ & E').
    apply (hashT_triple hash big hash_inj hash_nonzero) in E' as [-> _].
    eapply subterm_entries; [exact Hs|]. apply list_elem_of_here.
  - intros He. apply entries_subterm in He.
    exact (stored_subterm hash big _ _ _ Hst He).
Qed.

(** X17: on a reachable tree, when [add(key, value)] returns for a key of
    the domain, [get] of every other key returns what it returned before. *)
Theorem add_keeps_other_entries t E key value t' :
  reachable t E -> keyInRange big key = true -> add hash t key value = Done t' ->
  forall k v, k <> key -> (get t' k = Ok (Some v) <-> get t k = Ok (Some v)).
Proof.
  intros Hreach Hk Hadd k v Hne.
  destruct (reachable_represents hash big hash_inj hash_nonzero t E Hreach) as (T & Hrep & HE).
  destruct (add_Done hash big hash_inj hash_nonzero t T key value t' Hrep Hk Hadd) as [Hrep' _].
  rewrite (get_Some_entries hash big hash_nonzero t' _ k v Hrep').
  rewrite (get_Some_entries hash big hash_nonzero t _ k v Hrep).
  rewrite entries_insT, elem_of_cons. split; [|by right].
  intros [[= -> _]|H]; done.
Qed.

(** X18: [add] tells keys apart as values, the walk tells them apart by
    their paths.  On a reachable tree holding the key [mk], [add] of
    another key of the domain that denotes the same number (in hexadecimal
    mode: the same digits behind other leading zeros, or in the other
    letter case) does not return a tree: the loop that lengthens the
    siblings compares the two equal paths beyond their end. *)
Theorem add_same_number_never_returns t E key mk mv value :
  reachable t E -> (mk, mv) ∈ E ->
  keyInRange big key = true -> key <> mk -> keyValue key = keyValue mk ->
  forall t', add hash t key value <> Done t'.
Proof.
  intros Hreach He Hk Hne Hval t'.
  destruct (reachable_represents hash big hash_inj hash_nonzero t E Hreach) as (T & Hrep & HE).
  apply HE in He. pose proof Hrep as (Hb & _ & _ & _ & Hwf).
  pose proof (wf_keys_inrange big 0 T mk Hwf (entries_keys _ _ He)) as Hmk.
  pose proof (keyInRange_good_path _ _ Hk) as Hp.
  assert (Epath : keyToPath key = keyToPath mk).
  { destruct (keyToPath_spec_aux big key Hk) as [Hl1 Hb1].
    destruct (keyToPath_spec_aux big mk Hmk) as [Hl2 Hb2].
    apply list_eq. intros i. destruct (decide (i < 256)%nat) as [Hlt|Hge].
    - by rewrite Hb1, Hb2, Hval by done.
    - rewrite !lookup_ge_None_2; [done|lia|lia]. }
  destruct (checkParameterType t value) eqn:Hv.
  - pose proof (add_spec hash big hash_inj hash_nonzero t T key value Hrep Hk Hv) as Hs.
    rewrite Epath in Hs.
    rewrite (locate_found big 0 T mk mv Hwf He) in Hs.
    rewrite decide_False in Hs by congruence.
    rewrite matchingRun_same in Hs; [destruct Hs as [t'' ->]; done|].
    intros x Hx. eapply good_path_elements; [|exact Hx]. by rewrite <- Epath.
  - unfold add. rewrite Hv. by destruct (negb (checkParameterType t key)).
Qed.

(** X19: on a reachable tree, [add(key, value)] followed by [delete(key)]
    gives back the tree object as it was, root and node table. *)
Theorem add_delete_restores_tree t E key value t1 t2 :
  reachable t E -> keyInRange big key = true ->
  add hash t key value = Done t1 -> SMT_delete hash t1 key = Done t2 ->
  t2 = t.
Proof.
  intros Hreach Hk Hadd Hdel.
  pose proof (reach_delete hash big _ _ _ _ (reach_add hash big _ _ _ _ _ Hreach Hk Hadd) Hdel)
    as Hreach2.
  destruct (reachable_exact hash big hash_inj hash_nonzero t E Hreach) as (T & Hrep & Hng & HE).
  destruct (reachable_exact hash big hash_inj hash_nonzero t2 _ Hreach2)
    as (T2 & Hrep2 & Hng2 & HE2).
  destruct (add_Done hash big hash_inj hash_nonzero t T key value t1 Hrep Hk Hadd) as [_ Hfresh].
  assert (T2 = T) as ->.
  { pose proof Hrep as (_ & _ & _ & _ & Hwf). pose proof Hrep2 as (_ & _ & _ & _ & Hwf2).
    apply (wf_unique big 0); try done. intros e.
    rewrite HE2, HE, list_elem_of_filter, elem_of_cons. split.
    - intros [Hn [->|H]]; done.
    - intros H. split; [|by right]. intros <-. apply Hfresh.
      apply entries_keys. by apply HE. }
  by eapply (represents_exact_eq hash big).
Qed.

(** X20: [update] is [delete] followed by [add]: on a reachable tree, when
    [update(key, value)] returns, [delete(key)] and then [add(key, value)]
    return too and give the same tree object, root and node table. *)
Theorem update_is_delete_then_add t E key value t' :
  reachable t E -> update hash t key value = Done t' ->
  exists t1, SMT_delete hash t key = Done t1 /\ add hash t1 key value = Done t'.
Proof.
  intros Hreach Hupd.
  destruct (reachable_represents hash big hash_inj hash_nonzero t E Hreach) as (T & Hrep & HE).
  pose proof Hrep as (Hb & _ & _ & _ & Hwf).
  destruct (update_Done hash big hash_inj hash_nonzero t T key value t' Hrep Hupd) as [Hin _].
  assert (Hv : checkParameterType t value = true).
  { unfold update in Hupd. destruct (checkParameterType t key); [|done].
    by destruct (checkParameterType t value). }
  pose proof (wf_keys_inrange big 0 T key Hwf Hin) as Hk.
  pose proof (wf_keys_good big 0 T key Hwf Hin) as Hp.
  apply list_elem_of_fmap in Hin as ([k' v0] & Ek & He). simpl in Ek. subst k'.
  destruct (delete_total hash big hash_inj hash_nonzero t T key v0 Hrep He)
    as (t1 & Hdel & Hrep1).
  destruct (add_total hash big hash_inj hash_nonzero t1 _ key value Hrep1 Hk)
    as (t2 & Hadd & Hrep2).
  { destruct Hrep1 as (Hb1 & _).
    rewrite (checkParameterType_big t1 t) by congruence. done. }
  { intros x (e & -> & Hx)%list_elem_of_fmap Epath. destruct e as [x vx]. simpl in *.
    rewrite (entries_delT big 0 key T) in Hx by done.
    apply list_elem_of_filter in Hx as [Hne Hx]. simpl in Hne.
    apply Hne. by eapply (wf_path_inj big T). }
  exists t1. split; [done|]. rewrite Hadd. f_equal.
  pose proof (reach_update hash big _ _ _ _ _ Hreach Hupd) as R'.
  pose proof (reach_add hash big _ _ _ _ _ (reach_delete hash big _ _ _ _ Hreach Hdel) Hk Hadd)
    as R2.
  destruct (reachable_exact hash big hash_inj hash_nonzero _ _ R') as (T' & Hr' & Hn' & HE').
  destruct (reachable_exact hash big hash_inj hash_nonzero _ _ R2) as (T2 & Hr2 & Hn2 & HE2).
  assert (T2 = T') as ->.
  { pose proof Hr' as (_ & _ & _ & _ & Hw'). pose proof Hr2 as (_ & _ & _ & _ & Hw2).
    apply (wf_unique big 0); try done. intros e. by rewrite HE', HE2. }
  by eapply (represents_exact_eq hash big).
Qed.

(** X21: a reachable tree holding the single entry [(key, value)] has the
    hash of the marked triple [[key, value, entryMark]] as root, and its
    node table holds that triple and nothing else. *)
Theorem single_entry_tree t E key value :
  reachable t E -> (forall e, e ∈ E <-> e = (key, value)) ->
  root t = hash [key; value; entryMark t]
  /\ nodes t = {[ root t := Triple key value (entryMark t) ]}.
Proof.
  intros Hreach Hone.
  destruct (reachable_exact hash big hash_inj hash_nonzero t E Hreach) as (T & Hrep & Hng & HE).
  destruct Hrep as (Hb & Hroot & Hst & _ & Hwf).
  assert (T = Leaf key value) as ->.
  { destruct T as [|k v|l r].
    - exfalso. eapply elem_of_nil, HE, Hone. reflexivity.
    - assert ((k, v) = (key, value)) as [= -> ->]; [|done].
      apply Hone, HE. apply list_elem_of_here.
    - exfalso.
      assert (Hall : forall e, e ∈ entries (Node l r) -> e = (key, value))
        by (intros e He; by apply Hone, HE).
      pose proof (wf_NoDup_keys big 0 _ Hwf) as Hnd.
      destruct Hwf as (_ & _ & _ & _ & Hlen). rewrite <- length_app in Hlen.
      unfold keys in Hnd. simpl in Hall, Hnd.
      destruct (entries l ++ entries r) as [|e1 [|e2 rest]]; simpl in Hlen; try lia.
      rewrite (Hall e1), (Hall e2) in Hnd
        by (repeat first [apply list_elem_of_here | apply list_elem_of_further]).
      simpl in Hnd. apply NoDup_cons in Hnd as [Hnot _]. apply Hnot, list_elem_of_here. }
  unfold entryMark. rewrite Hb. fold (markOf big). rewrite Hroot. simpl hashT.
  split; [done|]. apply map_eq. intros h.
  destruct (decide (h = hash [key; value; markOf big])) as [->|Hne].
  - rewrite lookup_singleton_eq. exact Hst.
  - rewrite lookup_singleton_ne by done.
    destruct (nodes t !! h) as [c|] eqn:Eh; [|done].
    destruct (Hng h c Eh) as (s & Hs & _ & E'). apply subterm_leaf in Hs. subst s.
    by destruct Hne.
Qed.

End Extras.

(** X22: [getIndexOfLastNonZeroElement] returns an index of the array or
    -1; the element at a returned index is not zero, and every element after
    it is zero (all elements, when -1 is returned). *)
Theorem getIndexOfLastNonZeroElement_spec (array : list elem) :
  -1 <= getIndexOfLastNonZeroElement array < Z.of_nat (length array)
  /\ (0 <= getIndexOfLastNonZeroElement array ->
        exists x, array !! Z.to_nat (getIndexOfLastNonZeroElement array) = Some x
                  /\ numberNonZero x = true)
  /\ (forall (i : nat) x, getIndexOfLastNonZeroElement array < Z.of_nat i ->
        array !! i = Some x -> numberNonZero x = false).
Proof.
  destruct (getIndexOfLastNonZeroElement_from_spec (length array) array) as (H1 & H2 & H3);
    [lia|].
  split; [exact H1|]. split; [exact H2|].
  intros i x Hi Hx. apply (H3 i x Hi); [|done]. by eapply lookup_lt_Some.
Qed.

(** X23: [getFirstCommonElements] returns a prefix of both arrays, and it
    stops at the first index where the two elements differ under [!==]:
    when both arrays have an element at the index after the prefix, the two
    are different. *)
Theorem getFirstCommonElements_spec (array1 array2 : list pathbit) :
  getFirstCommonElements array1 array2 `prefix_of` array1
  /\ getFirstCommonElements array1 array2 `prefix_of` array2
  /\ forall x y,
       array1 !! length (getFirstCommonElements array1 array2) = Some x ->
       array2 !! length (getFirstCommonElements array1 array2) = Some y ->
       pathbit_seq x y = false.
Proof.
  assert (Hc : getFirstCommonElements array1 array2
               = take (firstCommon_from array1 array2) array1
               /\ getFirstCommonElements array1 array2
                  = take (firstCommon_from array1 array2) array2).
  { unfold getFirstCommonElements. pose proof (firstCommon_from_take array1 array2).
    destruct (length array1 <? length array2)%nat; split; congruence. }
  destruct Hc as [Hc1 Hc2]. split; [|split].
  - rewrite Hc1. eexists. symmetry. apply take_drop.
  - rewrite Hc2. eexists. symmetry. apply take_drop.
  - rewrite getFirstCommonElements_length. unfold commonPrefix.
    apply firstCommon_from_stop.
Qed.

(** X24: two keys of the documented domain, in either mode, have the same
    path exactly when they denote the same number; so a hexadecimal string
    and the bigint of the same value walk the same way. *)
Theorem keyToPath_same_iff_same_number b1 b2 k1 k2 :
  keyInRange b1 k1 = true -> keyInRange b2 k2 = true ->
  (keyToPath k1 = keyToPath k2 <-> keyValue k1 = keyValue k2).
Proof.
  intros Hk1 Hk2.
  destruct (keyToPath_spec_aux b1 k1 Hk1) as [Hl1 Hb1].
  destruct (keyToPath_spec_aux b2 k2 Hk2) as [Hl2 Hb2].
  pose proof (keyValue_range b1 k1 Hk1) as Hr1.
  pose proof (keyValue_range b2 k2 Hk2) as Hr2.
  split.
  - intros E. apply Z.bits_inj'. intros n Hn.
    destruct (decide (n < 256)) as [Hlt|Hge].
    + specialize (Hb1 (Z.to_nat n)). specialize (Hb2 (Z.to_nat n)).
      rewrite Z2Nat.id in Hb1, Hb2 by lia. rewrite E, Hb2 in Hb1 by lia.
      assert (Some (bit_of (Z.testbit (keyValue k2) n))
              = Some (bit_of (Z.testbit (keyValue k1) n))) as Hs by (apply Hb1; lia).
      destruct (Z.testbit (keyValue k1) n), (Z.testbit (keyValue k2) n); simpl in Hs; congruence.
    + rewrite !Z.bits_above_log2; try lia.
      * destruct (decide (keyValue k2 = 0)) as [->|]; [simpl; lia|].
        apply Z.log2_lt_pow2; [lia|]. eapply Z.lt_le_trans; [apply Hr2|].
        apply Z.pow_le_mono_r; lia.
      * destruct (decide (keyValue k1 = 0)) as [->|]; [simpl; lia|].
        apply Z.log2_lt_pow2; [lia|]. eapply Z.lt_le_trans; [apply Hr1|].
        apply Z.pow_le_mono_r; lia.
  - intros E. apply list_eq. intros i.
    destruct (decide (i < 256)%nat) as [Hlt|Hge].
    + by rewrite Hb1, Hb2, E by done.
    + rewrite !lookup_ge_None_2; [done|lia|lia].
Qed.

(** X25: bigints beyond the documented domain are not rejected and their
    paths are not cut to 256 directions: in big-number mode a bigint of
    2^256 or more passes [checkParameterType], and [keyToPath] gives it a
    path longer than 256. *)
Theorem keyToPath_oversized_bigint t z :
  bigNumbers t = true -> 2 ^ 256 <= z ->
  checkParameterType t (Big z) = true /\ (256 < length (keyToPath (Big z)))%nat.
Proof.
  intros Hb Hz. split; [unfold checkParameterType; by rewrite Hb|].
  destruct z as [|p|p]; [lia| |lia].
  pose proof (pos_bits_long p Hz) as Hlen.
  unfold keyToPath, padStart0. cbn [Z_toString2 N_toString2].
  rewrite length_map, length_rev, chars_app, length_app, !list_ascii_of_string_of_list_ascii.
  rewrite length_map, length_rev. lia.
Qed.

(** ** The further properties at concrete inputs *)

Lemma reachable_treeZ : reachable hashW true treeZ [(Big 1, Big 0)].
Proof.
  apply (reach_add hashW true tree0 [] (Big 1) (Big 0) treeZ);
    [exact reachable_tree0 | reflexivity | by vm_compute].
Defined.

Lemma get_reads_entries_witness :
  (forall v, get tree1 (Big 1) = Ok (Some v) <-> (Big 1, v) ∈ [(Big 1, Big 10)])
  /\ (keyInRange true (Big 1) = true ->
      (get tree1 (Big 1) = Ok None <-> Big 1 ∉ [(Big 1, Big 10)].*1)).
Proof.
  exact (get_reads_entries hashW true hashW_inj hashW_nonzero tree1 [(Big 1, Big 10)]
           (Big 1) reachable_tree1).
Defined.

Lemma update_then_get_witness :
  exists t', update hashW tree1 (Big 1) (Big 11) = Done t'
    /\ get t' (Big 1) = Ok (Some (Big 11))
    /\ forall k v, k <> Big 1 -> (get t' k = Ok (Some v) <-> get tree1 k = Ok (Some v)).
Proof.
  exact (update_then_get hashW true hashW_inj hashW_nonzero tree1 [(Big 1, Big 10)]
           (Big 1) (Big 10) (Big 11) reachable_tree1 (list_elem_of_here _ _) eq_refl).
Defined.

Lemma delete_then_get_witness :
  exists t', SMT_delete hashW tree1 (Big 1) = Done t'
    /\ get t' (Big 1) = Ok None
    /\ forall k v, k <> Big 1 -> (get t' k = Ok (Some v) <-> get tree1 k = Ok (Some v)).
Proof.
  exact (delete_then_get hashW true hashW_inj hashW_nonzero tree1 [(Big 1, Big 10)]
           (Big 1) (Big 10) reachable_tree1 (list_elem_of_here _ _)).
Defined.

Lemma add_stored_key_throws_witness :
  add hashW tree1 (Big 1) (Big 7) = Thrown KeyAlreadyExists tree1.
Proof.
  exact (add_stored_key_throws hashW true hashW_inj hashW_nonzero tree1 [(Big 1, Big 10)]
           (Big 1) (Big 10) (Big 7) reachable_tree1 (list_elem_of_here _ _) eq_refl).
Defined.

Lemma missing_key_throws_witness :
  SMT_delete hashW tree1 (Big 3) = Thrown KeyNotFound tree1
  /\ forall value, checkParameterType tree1 value = true ->
       update hashW tree1 (Big 3) value = Thrown KeyNotFound tree1.
Proof.
  apply (missing_key_throws hashW true hashW_inj hashW_nonzero tree1 [(Big 1, Big 10)]
           (Big 3) reachable_tree1 eq_refl).
  simpl. intros H%list_elem_of_singleton. discriminate H.
Defined.

Lemma entries_determine_tree_witness :
  update hashW treeZ (Big 1) (Big 10) = Done tree1 /\ tree1 = tree1.
Proof.
  assert (H : update hashW treeZ (Big 1) (Big 10) = Done tree1) by (by vm_compute).
  split; [exact H|].
  apply (entries_determine_tree hashW true hashW_inj hashW_nonzero
           tree1 [(Big 1, Big 10)]
           tree1 ((Big 1, Big 10) :: filter (fun e => e.1 <> Big 1) [(Big 1, Big 0)])).
  - exact reachable_tree1.
  - exact (reach_update hashW true treeZ _ (Big 1) (Big 10) tree1 reachable_treeZ H).
  - intros e. reflexivity.
Defined.

Lemma emptied_tree_is_new_witness :
  SMT_delete hashW tree1 (Big 1) = Done tree0
  /\ nodes tree0 = ∅ /\ root tree0 = zeroNode tree0.
Proof.
  assert (H : SMT_delete hashW tree1 (Big 1) = Done tree0) by (by vm_compute).
  split; [exact H|].
  apply (emptied_tree_is_new hashW true hashW_inj hashW_nonzero tree0
           (filter (fun e => e.1 <> Big 1) [(Big 1, Big 10)])).
  - exact (reach_delete hashW true tree1 _ (Big 1) tree0 reachable_tree1 H).
  - intros e He. vm_compute in He. by apply elem_of_nil in He.
Defined.

Lemma equal_roots_same_entries_witness :
  update hashW treeZ (Big 1) (Big 10) = Done tree1
  /\ ((Big 1, Big 10) ∈ [(Big 1, Big 10)]
      <-> (Big 1, Big 10) ∈ (Big 1, Big 10) :: filter (fun e => e.1 <> Big 1) [(Big 1, Big 0)]).
Proof.
  assert (H : update hashW treeZ (Big 1) (Big 10) = Done tree1) by (by vm_compute).
  split; [exact H|].
  exact (equal_roots_same_entries hashW true hashW_inj hashW_nonzero
           tree1 [(Big 1, Big 10)]
           tree1 ((Big 1, Big 10) :: filter (fun e => e.1 <> Big 1) [(Big 1, Big 0)])
           reachable_tree1
           (reach_update hashW true treeZ _ (Big 1) (Big 10) tree1 reachable_treeZ H)
           eq_refl (Big 1, Big 10)).
Defined.

Lemma update_same_root_iff_witness :
  exists t', update hashW tree1 (Big 1) (Big 11) = Done t'
             /\ (root t' = root tree1 <-> Big 11 = Big 10).
Proof.
  destruct (update hashW tree1 (Big 1) (Big 11)) as [t'|e t'] eqn:H;
    [|by vm_compute in H].
  exists t'. split; [reflexivity|].
  exact (update_same_root_iff hashW true hashW_inj hashW_nonzero tree1 [(Big 1, Big 10)]
           (Big 1) (Big 10) (Big 11) t' reachable_tree1 (list_elem_of_here _ _) H).
Defined.

Lemma verifyProof_membership_sound_witness :
  (Big 1, Big 10) ∈ [(Big 1, Big 10)] /\ Big 1 = entryMark tree1.
Proof.
  apply (verifyProof_membership_sound hashW true hashW_inj hashW_nonzero tree1
           [(Big 1, Big 10)]
           (mkMerkleProof [Big 1; Big 10; Big 1] None [] (leafW 1 10) true)
           (Big 1) (Big 10) (Big 1) reachable_tree1 eq_refl eq_refl eq_refl).
  by vm_compute.
Defined.

Lemma verifyProof_non_membership_sound_witness :
  verifyProof hashW tree1
    (mkMerkleProof [Big 3] (Some [Big 1; Big 10; Big 1]) [] (leafW 1 10) false) = Ok true
  /\ Big 3 ∉ [(Big 1, Big 10)].*1.
Proof.
  assert (H : verifyProof hashW tree1
                (mkMerkleProof [Big 3] (Some [Big 1; Big 10; Big 1]) [] (leafW 1 10) false)
              = Ok true) by (by vm_compute).
  split; [exact H|].
  apply (verifyProof_non_membership_sound hashW true hashW_inj hashW_nonzero tree1
           [(Big 1, Big 10)]
           (mkMerkleProof [Big 3] (Some [Big 1; Big 10; Big 1]) [] (leafW 1 10) false)
           (Big 3) reachable_tree1 eq_refl eq_refl); [|exact H].
  intros me [= <-]. exists (Big 1), (Big 10), (Big 1). split; [reflexivity|discriminate].
Defined.

Lemma verifyProof_same_key_matching_entry_witness :
  exists p, createProof tree1 (Big 1) = Ok p
    /\ proof_entry p = [Big 1; Big 10; entryMark tree1]
    /\ verifyProof hashW tree1
         (mkMerkleProof [Big 1] (Some (proof_entry p)) (proof_siblings p) (root tree1) false)
       = Ok true.
Proof.
  exact (verifyProof_same_key_matching_entry hashW true hashW_inj hashW_nonzero tree1
           [(Big 1, Big 10)] (Big 1) (Big 10) reachable_tree1 (list_elem_of_here _ _)).
Defined.

Lemma verifyProof_accepts_root_children_witness :
  exists a b, nodes tree2 !! root tree2 = Some (Pair a b)
    /\ verifyProof hashW tree2 (mkMerkleProof [a; b] None [] (root tree2) true) = Ok true
    /\ forall key,
         verifyProof hashW tree2 (mkMerkleProof [key] (Some [a; b]) [] (root tree2) false)
         = Ok true.
Proof.
  apply (verifyProof_accepts_root_children hashW true hashW_inj hashW_nonzero tree2
           [(Big 2, Big 20); (Big 1, Big 10)] (Big 1) (Big 10) (Big 2) (Big 20)
           reachable_tree2).
  - apply list_elem_of_further, list_elem_of_here.
  - apply list_elem_of_here.
  - discriminate.
Defined.

Lemma createProof_shape_witness :
  proof_root (mkMerkleProof [Big 3] (Some [Big 1; Big 10; Big 1]) [] (leafW 1 10) false)
  = root tree1
  /\ ((exists v, (Big 3, v) ∈ [(Big 1, Big 10)]
         /\ [Big 3] = [Big 3; v; entryMark tree1]
         /\ Some [Big 1; Big 10; Big 1] = None)
      \/ ((Big 3 ∉ [(Big 1, Big 10)].*1) /\ [Big 3] = [Big 3]
          /\ forall me, Some [Big 1; Big 10; Big 1] = Some me ->
               exists mk mv, me = [mk; mv; entryMark tree1]
                             /\ (mk, mv) ∈ [(Big 1, Big 10)] /\ mk <> Big 3)).
Proof.
  apply (createProof_shape hashW true hashW_inj hashW_nonzero tree1 [(Big 1, Big 10)]
           (Big 3)
           (mkMerkleProof [Big 3] (Some [Big 1; Big 10; Big 1]) [] (leafW 1 10) false)
           reachable_tree1 eq_refl).
  by vm_compute.
Defined.

Lemma table_holds_the_entries_witness :
  (forall h c, nodes tree1 !! h = Some c -> hashW (array_of c) = h)
  /\ (forall k v, nodes tree1 !! hashW [k; v; entryMark tree1]
                  = Some (Triple k v (entryMark tree1))
                  <-> (k, v) ∈ [(Big 1, Big 10)]).
Proof.
  exact (table_holds_the_entries hashW true hashW_inj hashW_nonzero tree1
           [(Big 1, Big 10)] reachable_tree1).
Defined.

Lemma add_keeps_other_entries_witness :
  add hashW tree1 (Big 2) (Big 20) = Done tree2
  /\ (get tree2 (Big 1) = Ok (Some (Big 10)) <-> get tree1 (Big 1) = Ok (Some (Big 10))).
Proof.
  assert (H : add hashW tree1 (Big 2) (Big 20) = Done tree2) by (by vm_compute).
  split; [exact H|].
  apply (add_keeps_other_entries hashW true hashW_inj hashW_nonzero tree1
           [(Big 1, Big 10)] (Big 2) (Big 20) tree2 reachable_tree1 eq_refl H
           (Big 1) (Big 10)).
  discriminate.
Defined.

Lemma add_same_number_never_returns_witness :
  keyValue (Str "0f") = keyValue (Str "f")
  /\ forall t', add hashX treeX1 (Str "0f") (Str "2") <> Done t'.
Proof.
  split; [reflexivity|].
  apply (add_same_number_never_returns hashX false hashX_inj hashX_nonzero treeX1
           [(Str "f", Str "1")] (Str "0f") (Str "f") (Str "1") (Str "2") reachable_treeX1).
  - apply list_elem_of_here.
  - reflexivity.
  - discriminate.
  - reflexivity.
Defined.

Lemma add_delete_restores_tree_witness :
  exists t2, SMT_delete hashW tree2 (Big 2) = Done t2 /\ t2 = tree1.
Proof.
  destruct (SMT_delete hashW tree2 (Big 2)) as [t2|e t2] eqn:H;
    [|by vm_compute in H].
  exists t2. split; [reflexivity|].
  apply (add_delete_restores_tree hashW true hashW_inj hashW_nonzero tree1
           [(Big 1, Big 10)] (Big 2) (Big 20) tree2 t2 reachable_tree1 eq_refl);
    [by vm_compute | exact H].
Defined.

Lemma keyToPath_same_iff_same_number_witness :
  keyToPath (Str "0f") = keyToPath (Big 15) <-> keyValue (Str "0f") = keyValue (Big 15).
Proof.
  exact (keyToPath_same_iff_same_number false true (Str "0f") (Big 15) eq_refl eq_refl).
Defined.

Lemma keyToPath_oversized_bigint_witness :
  checkParameterType tree0 (Big (2 ^ 256)) = true
  /\ (256 < length (keyToPath (Big (2 ^ 256))))%nat.
Proof.
  apply (keyToPath_oversized_bigint tree0 (2 ^ 256) eq_refl). lia.
Defined.

Lemma update_is_delete_then_add_witness :
  exists t' t1, update hashW tree1 (Big 1) (Big 11) = Done t'
    /\ SMT_delete hashW tree1 (Big 1) = Done t1
    /\ add hashW t1 (Big 1) (Big 11) = Done t'.
Proof.
  destruct (update hashW tree1 (Big 1) (Big 11)) as [t'|e t'] eqn:H;
    [|by vm_compute in H].
  destruct (update_is_delete_then_add hashW true hashW_inj hashW_nonzero tree1
              [(Big 1, Big 10)] (Big 1) (Big 11) t' reachable_tree1 H) as (t1 & H1 & H2).
  exists t', t1. split; [reflexivity|]. split; [exact H1 | exact H2].
Defined.

Lemma single_entry_tree_witness :
  root tree1 = hashW [Big 1; Big 10; entryMark tree1]
  /\ nodes tree1 = {[ root tree1 := Triple (Big 1) (Big 10) (entryMark tree1) ]}.
Proof.
  apply (single_entry_tree hashW true hashW_inj hashW_nonzero tree1 [(Big 1, Big 10)]
           (Big 1) (Big 10) reachable_tree1).
  intros e. apply list_elem_of_singleton.
Defined.
